(** * bundle-katex-fonts.py: a shallow embedding and its properties

    The program reads a stylesheet, finds its [url(fonts/...)] references
    with one regular expression, obtains every referenced font (local cache
    or CDN), encodes it as a base64 data URI, substitutes the references by
    plain [str.replace] passes and writes the bundled stylesheet.

    Python values are modelled as follows.
    - [str] is a list of Unicode code points ([text], code points in [N]).
    - [bytes] is a list of [Byte.byte].
    - the insertion-ordered [dict] of the program is an association list
      kept in insertion order.
    - everything the program obtains from outside the repository (file
      system, network, the encoding of the console, the case tables for
      characters beyond ASCII) is a field of the class [Platform]; calls
      that may raise return a [result]. *)

From Stdlib.Strings Require Import Ascii String Byte.
From Stdlib Require Import List NArith ZArith Bool Arith Lia.
From Stdlib Require Import Permutation Sorted DecimalString DecimalN.
Import ListNotations.

(** ** Text *)

Definition char := N.
Definition text := list char.
Definition bytes := list byte.

(** A literal of the source, as code points. *)
Definition str (s : string) : text := map N_of_ascii (list_ascii_of_string s).
Arguments str s%_string.

Definition ch_dquote : char := 34%N.   (* the double quote *)
Definition ch_squote : char := 39%N.   (* the single quote *)
Definition ch_lparen : char := 40%N.
Definition ch_rparen : char := 41%N.
Definition ch_dot : char := 46%N.
Definition ch_slash : char := 47%N.
Definition ch_equals : char := 61%N.

Fixpoint text_eqb (a b : text) : bool :=
  match a, b with
  | [], [] => true
  | x :: a', y :: b' => (x =? y)%N && text_eqb a' b'
  | _, _ => false
  end.

(** Python compares two [str] lexicographically by code point. *)
Fixpoint text_compare (a b : text) : comparison :=
  match a, b with
  | [], [] => Eq
  | [], _ :: _ => Lt
  | _ :: _, [] => Gt
  | x :: a', y :: b' =>
      match (x ?= y)%N with
      | Eq => text_compare a' b'
      | c => c
      end
  end.

Definition text_lt (a b : text) : Prop := text_compare a b = Lt.

(** The texts of ASCII characters, and [str.lower] on them: the letters
    [A] to [Z] become [a] to [z], every other character stays. *)
Definition ascii_text (t : text) : bool := forallb (fun c => (c <? 128)%N) t.

Definition lower_ascii (s : text) : text :=
  map (fun c => if ((65 <=? c) && (c <=? 90))%N then (c + 32)%N else c) s.

(** ** [str.replace]

    [strip_prefix p s] is [Some rest] when [s] starts with [p]. *)
Fixpoint strip_prefix (p s : text) : option text :=
  match p, s with
  | [], _ => Some s
  | _ :: _, [] => None
  | a :: p', b :: s' => if (a =? b)%N then strip_prefix p' s' else None
  end.

(** The scan of [str.replace] for a non-empty [old]: occurrences are taken
    left to right and do not overlap.  Every step consumes a character, so
    [length s] steps are enough. *)
Fixpoint replace_from (fuel : nat) (old new s : text) : text :=
  match fuel with
  | O => s
  | S fuel' =>
      match s with
      | [] => []
      | c :: s' =>
          match strip_prefix old s with
          | Some rest => new ++ replace_from fuel' old new rest
          | None => c :: replace_from fuel' old new s'
          end
      end
  end.

(** [s.replace(old, new)]; an empty [old] matches before every character
    and at the end. *)
Definition str_replace (old new s : text) : text :=
  match old with
  | [] => new ++ flat_map (fun c => c :: new) s
  | _ :: _ => replace_from (length s) old new s
  end.

(** ** The fragment of [re] the program uses

    A pattern is a sequence of atoms: literals, a greedy optional class, a
    greedy repeated class, and the marks of the one capturing group.  The
    matcher backtracks as [re] does: a greedy atom first takes the longer
    alternative and falls back to the shorter one when the rest of the
    pattern fails. *)
Inductive cls :=
| OneOf (cs : list char)
| NoneOf (cs : list char).

Definition in_cls (k : cls) (c : char) : bool :=
  match k with
  | OneOf cs => existsb (N.eqb c) cs
  | NoneOf cs => negb (existsb (N.eqb c) cs)
  end.

Inductive atom :=
| Lit (c : char)
| Opt (k : cls)
| Plus (k : cls)
| GroupOpen
| GroupClose.

Definition regex := list atom.

(** The state of one attempt: is the group open, and what it captured. *)
Definition push (open : bool) (cap : text) (c : char) : text :=
  if open then cap ++ [c] else cap.

(** One or more characters of class [k], longest first; [kont] is the rest
    of the pattern. *)
Fixpoint plus_loop (k : cls) (open : bool)
    (kont : text -> text -> option (text * text)) (cap s : text)
    : option (text * text) :=
  match s with
  | [] => None
  | c :: s' =>
      if in_cls k c then
        match plus_loop k open kont (push open cap c) s' with
        | Some r => Some r
        | None => kont (push open cap c) s'
        end
      else None
  end.

(** [re_match p open cap s]: match [p] at the start of [s]; the result is
    the text of the group and what is left of [s] after the match. *)
Fixpoint re_match (p : regex) (open : bool) (cap s : text)
    : option (text * text) :=
  match p with
  | [] => Some (cap, s)
  | Lit c :: p' =>
      match s with
      | x :: s' => if (x =? c)%N then re_match p' open (push open cap x) s' else None
      | [] => None
      end
  | Opt k :: p' =>
      match s with
      | x :: s' =>
          if in_cls k x then
            match re_match p' open (push open cap x) s' with
            | Some r => Some r
            | None => re_match p' open cap s
            end
          else re_match p' open cap s
      | [] => re_match p' open cap s
      end
  | Plus k :: p' => plus_loop k open (re_match p' open) cap s
  | GroupOpen :: p' => re_match p' true [] s
  | GroupClose :: p' => re_match p' false cap s
  end.

(** [pattern.findall(s)] for a pattern with one group: the group of every
    match, leftmost first, the search resuming where the last match ended
    (one character further after an empty match or a failed attempt). *)
Fixpoint findall_from (fuel : nat) (p : regex) (s : text) : list text :=
  match fuel with
  | O => []
  | S fuel' =>
      match re_match p false [] s with
      | Some (g, rest) =>
          if (length rest <? length s)%nat
          then g :: findall_from fuel' p rest
          else g :: match s with
                    | [] => []
                    | _ :: s' => findall_from fuel' p s'
                    end
      | None =>
          match s with
          | [] => []
          | _ :: s' => findall_from fuel' p s'
          end
      end
  end.

Definition findall (p : regex) (s : text) : list text :=
  findall_from (S (length s)) p s.

(** ** [sorted(set(...))] *)

(** Insertion into a strictly increasing list; an element already there is
    not inserted again (the set keeps one copy). *)
Fixpoint insert_sorted (x : text) (l : list text) : list text :=
  match l with
  | [] => [x]
  | y :: l' =>
      match text_compare x y with
      | Lt => x :: l
      | Eq => l
      | Gt => y :: insert_sorted x l'
      end
  end.

Definition sorted_set (l : list text) : list text :=
  fold_right insert_sorted [] l.

(** ** The program's [dict]: insertion-ordered, keys unique *)

Definition dict := list (text * text).

(** [d[k] = v]: an existing key keeps its place, a new key goes last. *)
Fixpoint dict_set (k v : text) (d : dict) : dict :=
  match d with
  | [] => [(k, v)]
  | (k', v') :: d' =>
      if text_eqb k' k then (k', v) :: d' else (k', v') :: dict_set k v d'
  end.

Fixpoint dict_get (k : text) (d : dict) : option text :=
  match d with
  | [] => None
  | (k', v') :: d' => if text_eqb k' k then Some v' else dict_get k d'
  end.

(** [d.get(k, default)] *)
Definition dict_get_default (d : dict) (k default : text) : text :=
  match dict_get k d with
  | Some v => v
  | None => default
  end.

(** ** [os.path.splitext] and [os.path.dirname] (posixpath) *)

(** [s.rfind(c)] for a one-character [c]: the last index, or -1.  [i] is
    the index of the head of [s]. *)
Fixpoint rfind_from (i : Z) (c : char) (s : text) : Z :=
  match s with
  | [] => (-1)%Z
  | x :: s' =>
      let r := rfind_from (i + 1) c s' in
      if (0 <=? r)%Z then r else if (x =? c)%N then i else (-1)%Z
  end.

Definition rfind (c : char) (s : text) : Z := rfind_from 0 c s.

(** The slices [p[:i]], [p[i:]] and [p[i:j]] for indices that are not
    negative. *)
Definition slice_to (p : text) (i : Z) : text := firstn (Z.to_nat i) p.
Definition slice_from (p : text) (i : Z) : text := skipn (Z.to_nat i) p.
Definition slice (p : text) (i j : Z) : text := slice_to (slice_from p i) (j - i).

(** The loop of [genericpath._splitext] that skips the leading dots of the
    file name; it runs at most [dotIndex - filenameIndex] times. *)
Fixpoint skip_leading_dots (fuel : nat) (p : text) (filenameIndex dotIndex : Z)
    : text * text :=
  match fuel with
  | O => (p, [])
  | S fuel' =>
      if (filenameIndex <? dotIndex)%Z then
        if negb (text_eqb (slice p filenameIndex (filenameIndex + 1)) [ch_dot])
        then (slice_to p dotIndex, slice_from p dotIndex)
        else skip_leading_dots fuel' p (filenameIndex + 1) dotIndex
      else (p, [])
  end.

(** [genericpath._splitext(p, sep, altsep, extsep)] with [extsep = '.'] *)
Definition splitext_generic (sep : char) (altsep : option char) (p : text)
    : text * text :=
  let sepIndex :=
    match altsep with
    | Some a => Z.max (rfind sep p) (rfind a p)
    | None => rfind sep p
    end in
  let dotIndex := rfind ch_dot p in
  if (sepIndex <? dotIndex)%Z
  then skip_leading_dots (Z.to_nat (dotIndex - sepIndex)) p (sepIndex + 1) dotIndex
  else (p, []).

Definition splitext (p : text) : text * text :=
  splitext_generic ch_slash None p.

(** [head.rstrip('/')] *)
Definition rstrip_slash (s : text) : text :=
  fold_right (fun c acc =>
                match acc with
                | [] => if (c =? ch_slash)%N then [] else [c]
                | _ :: _ => c :: acc
                end) [] s.

(** [posixpath.dirname] *)
Definition dirname (p : text) : text :=
  let i := (rfind ch_slash p + 1)%Z in
  let head := slice_to p i in
  if negb (text_eqb head []) && negb (forallb (N.eqb ch_slash) head)
  then rstrip_slash head
  else head.

(** ** [base64.b64encode] and the standard decoder *)

Definition b64_alphabet : text :=
  str "ABCDEFGHIJKLMNOPQRSTUVWXYZabcdefghijklmnopqrstuvwxyz0123456789+/".

Definition b64_char (n : N) : char := nth (N.to_nat n) b64_alphabet 0%N.

(** Three bytes are one 24-bit group, written as four 6-bit digits. *)
Definition enc3 (a b c : byte) : text :=
  let n := (Byte.to_N a * 65536 + Byte.to_N b * 256 + Byte.to_N c)%N in
  [b64_char (n / 262144); b64_char ((n / 4096) mod 64);
   b64_char ((n / 64) mod 64); b64_char (n mod 64)].

(** Two bytes left: three digits (the last has two zero bits) and one pad. *)
Definition enc2 (a b : byte) : text :=
  let n := (Byte.to_N a * 1024 + Byte.to_N b * 4)%N in
  [b64_char (n / 4096); b64_char ((n / 64) mod 64); b64_char (n mod 64);
   ch_equals].

(** One byte left: two digits (the last has four zero bits) and two pads. *)
Definition enc1 (a : byte) : text :=
  let n := (Byte.to_N a * 16)%N in
  [b64_char (n / 64); b64_char (n mod 64); ch_equals; ch_equals].

(** [base64.b64encode(data).decode("ascii")] *)
Fixpoint b64encode (data : bytes) : text :=
  match data with
  | a :: b :: c :: rest => enc3 a b c ++ b64encode rest
  | [a; b] => enc2 a b
  | [a] => enc1 a
  | [] => []
  end.

(** The digit a character of the alphabet stands for. *)
Fixpoint index_of (c : char) (l : text) (i : N) : option N :=
  match l with
  | [] => None
  | x :: l' => if (x =? c)%N then Some i else index_of c l' (N.succ i)
  end.

Definition b64_index (c : char) : option N := index_of c b64_alphabet 0%N.

Definition bytes_of_group (n : N) (count : nat) : option bytes :=
  match Byte.of_N (n / 65536), Byte.of_N ((n / 256) mod 256), Byte.of_N (n mod 256) with
  | Some a, Some b, Some c => Some (firstn count [a; b; c])
  | _, _, _ => None
  end.

(** The decoder of padded base64 text, after RFC 4648, section 4: groups
    of four characters, pads only in the last group. *)
Fixpoint b64decode (t : text) : option bytes :=
  match t with
  | [] => Some []
  | c1 :: c2 :: c3 :: c4 :: rest =>
      match b64_index c1, b64_index c2 with
      | Some d1, Some d2 =>
          if (c4 =? ch_equals)%N then
            match rest with
            | [] =>
                if (c3 =? ch_equals)%N
                then bytes_of_group (d1 * 262144 + d2 * 4096) 1
                else match b64_index c3 with
                     | Some d3 => bytes_of_group (d1 * 262144 + d2 * 4096 + d3 * 64) 2
                     | None => None
                     end
            | _ :: _ => None
            end
          else
            match b64_index c3, b64_index c4, b64decode rest with
            | Some d3, Some d4, Some tail =>
                match bytes_of_group (d1 * 262144 + d2 * 4096 + d3 * 64 + d4) 3 with
                | Some g => Some (g ++ tail)
                | None => None
                end
            | _, _, _ => None
            end
      | _, _ => None
      end
  | _ => None
  end.

(** ** Numbers in f-strings *)

(** [str(n)] *)
Definition format_int (n : N) : text :=
  str (DecimalString.NilZero.string_of_uint (N.to_uint n)).

(** Groups of three digits from the right, on the reversed digits. *)
Fixpoint group3 (rev_digits : text) : text :=
  match rev_digits with
  | a :: b :: c :: ((_ :: _) as more) => a :: b :: c :: 44%N :: group3 more
  | _ => rev_digits
  end.

(** [f"{n:,}"] *)
Definition format_int_commas (n : N) : text :=
  rev (group3 (rev (format_int n))).

(** ** The platform: everything outside the repository

    A call that may raise returns a [result]; the exception carries the
    message that [print] shows for it.  Every exception of the platform is
    an [Exception] (what [except Exception] catches).  [os.path] is
    [posixpath].

    [print] writes to [sys.stdout], whose encoding is the platform's: a
    line with a character the encoding does not have raises
    [UnicodeEncodeError].  Every encoding is taken to have the ASCII
    characters, and a stream that is closed or broken is not modelled.
    [str.lower] is written out on ASCII texts; on a text with other
    characters it is the platform's case tables. *)

Definition exn := text.

Inductive result (A : Type) : Type :=
| Ok (a : A)
| Raise (e : exn).

Arguments Ok {A} a.
Arguments Raise {A} e.

Class Platform := {
  filesystem : Type;
  network : Type;
  (* os.path.exists(p) *)
  os_path_exists : filesystem -> text -> bool;
  (* open(p, "rb").read() *)
  read_binary : filesystem -> text -> result bytes;
  (* open(p, "r", encoding="utf-8").read() *)
  read_utf8 : filesystem -> text -> result text;
  (* os.makedirs(p, exist_ok=True) *)
  os_makedirs : filesystem -> text -> result unit * filesystem;
  (* open(p, "wb").write(data) *)
  write_binary : filesystem -> text -> bytes -> result unit * filesystem;
  (* open(p, "w", encoding="utf-8").write(s) *)
  write_utf8 : filesystem -> text -> text -> result unit * filesystem;
  (* os.path.getsize(p) *)
  os_path_getsize : filesystem -> text -> result N;
  (* urllib.request.urlopen(Request(url, headers={"User-Agent": ua})).read() *)
  urlopen_read : network -> text -> text -> result bytes * network;
  (* can the encoding of sys.stdout encode this character *)
  stdout_encodes : char -> bool;
  (* the UnicodeEncodeError that print raises for a line it cannot encode *)
  stdout_error : text -> exn;
  (* str.lower() on a text that is not all ASCII, from the Unicode tables
     of the interpreter *)
  unicode_lower : text -> text
}.

(** What a platform promises about a file that was written: it exists and
    reads back as written. *)
Class PlatformLaws (P : Platform) : Prop := {
  write_binary_read : forall f p d f',
    write_binary f p d = (Ok tt, f') ->
    os_path_exists f' p = true /\ read_binary f' p = Ok d
}.

(** The state a run threads: the file system, the network, the URLs
    fetched so far and the lines printed so far. *)
Record world_of (F N : Type) := World {
  fs : F;
  net : N;
  fetched : list text;
  console : list text
}.
Arguments World {F N} _ _ _ _.
Arguments fs {F N} _.
Arguments net {F N} _.
Arguments fetched {F N} _.
Arguments console {F N} _.

Section Program.
Context {P : Platform}.

Definition world : Type := world_of filesystem network.

Definition M (A : Type) : Type := world -> result A * world.

Definition ret {A} (a : A) : M A := fun w => (Ok a, w).

Definition bind {A B} (m : M A) (k : A -> M B) : M B :=
  fun w =>
    match m w with
    | (Ok a, w') => k a w'
    | (Raise e, w') => (Raise e, w')
    end.

(** [try: m  except Exception as e: handler e] *)
Definition try_except {A} (m : M A) (handler : exn -> M A) : M A :=
  fun w =>
    match m w with
    | (Ok a, w') => (Ok a, w')
    | (Raise e, w') => handler e w'
    end.

(** Can [sys.stdout] take this line. *)
Definition printable (line : text) : bool :=
  forallb (fun c => (c <? 128)%N || stdout_encodes c) line.

(** [print(line)] *)
Definition print (line : text) : M unit :=
  fun w =>
    if printable line
    then (Ok tt, World (fs w) (net w) (fetched w) (console w ++ [line]))
    else (Raise (stdout_error line), w).

(** [s.lower()] *)
Definition str_lower (s : text) : text :=
  if ascii_text s then lower_ascii s else unicode_lower s.

Definition path_exists (p : text) : M bool :=
  fun w => (Ok (os_path_exists (fs w) p), w).

Definition read_bytes (p : text) : M bytes :=
  fun w => (read_binary (fs w) p, w).

Definition read_text (p : text) : M text :=
  fun w => (read_utf8 (fs w) p, w).

Definition on_fs {A} (op : filesystem -> result A * filesystem) : M A :=
  fun w =>
    let (r, f') := op (fs w) in
    (r, World f' (net w) (fetched w) (console w)).

Definition makedirs (p : text) : M unit := on_fs (fun f => os_makedirs f p).

Definition write_bytes (p : text) (d : bytes) : M unit :=
  on_fs (fun f => write_binary f p d).

Definition write_text (p : text) (s : text) : M unit :=
  on_fs (fun f => write_utf8 f p s).

Definition getsize (p : text) : M N :=
  fun w => (os_path_getsize (fs w) p, w).

Definition urlopen (url user_agent : text) : M bytes :=
  fun w =>
    let (r, n') := urlopen_read (net w) url user_agent in
    (r, World (fs w) n' (fetched w ++ [url]) (console w)).

End Program.

Declare Scope prog_scope.
Delimit Scope prog_scope with prog.
Notation "x <- m ;; k" := (bind m (fun x => k))
  (at level 61, m at next level, right associativity) : prog_scope.
Notation "m ;; k" := (bind m (fun _ => k))
  (at level 61, right associativity) : prog_scope.

(** ** The program *)

Definition KATEX_VERSION : text := str "0.16.9".
Definition CDN_BASE : text :=
  str "https://cdnjs.cloudflare.com/ajax/libs/KaTeX/" ++ KATEX_VERSION ++ str "/".

Definition INPUT_FILE : text := str "katex.min.css".
Definition OUTPUT_FILE : text := str "katex-bundled.css".
Definition FONTS_DIR : text := str "fonts".

Definition USER_AGENT : text := str "YMM-KaTeX-Bundler/1.0".

(** The two character classes of the pattern. *)
Definition quote_cls : cls := OneOf [ch_dquote; ch_squote].
Definition path_cls : cls := NoneOf [ch_rparen; ch_dquote; ch_squote].

(** The pattern of [re.compile]: the literal [url(], an optional quote
    (double or single), the group: the literal [fonts/] and one or more
    characters that are no closing parenthesis and no quote; then an optional
    quote and the closing parenthesis. *)
Definition url_pattern : regex :=
  map Lit (str "url(")
  ++ [Opt quote_cls]
  ++ [GroupOpen]
  ++ map Lit (str "fonts/")
  ++ [Plus path_cls]
  ++ [GroupClose]
  ++ [Opt quote_cls]
  ++ [Lit ch_rparen].

(** [sorted(set(url_pattern.findall(css)))] *)
Definition unique_fonts (css : text) : list text :=
  sorted_set (findall url_pattern css).

(** The three f-strings of the substitution: [url(x)], [url("x")] and
    [url('x')]. *)
Definition url_plain (x : text) : text := str "url(" ++ x ++ str ")".
Definition url_dquoted (x : text) : text :=
  str "url(" ++ [ch_dquote] ++ x ++ [ch_dquote] ++ str ")".
Definition url_squoted (x : text) : text :=
  str "url(" ++ [ch_squote] ++ x ++ [ch_squote] ++ str ")".

(** The body of the substitution loop for one entry of the dict. *)
Definition replace_variants (font_path data_uri bundled_css : text) : text :=
  let bundled_css := str_replace (url_plain font_path) (url_plain data_uri) bundled_css in
  let bundled_css := str_replace (url_dquoted font_path) (url_dquoted data_uri) bundled_css in
  let bundled_css := str_replace (url_squoted font_path) (url_squoted data_uri) bundled_css in
  bundled_css.

(** [for font_path, data_uri in replacements.items(): ...] *)
Definition apply_replacements (replacements : dict) (css : text) : text :=
  fold_left (fun bundled_css entry => replace_variants (fst entry) (snd entry) bundled_css)
            replacements css.

(** [f"data:{mime};base64,{b64}"] *)
Definition data_uri_of (mime : text) (font_data : bytes) : text :=
  str "data:" ++ mime ++ str ";base64," ++ b64encode font_data.

Definition mime_table : dict :=
  [ (str ".woff2", str "font/woff2");
    (str ".woff", str "font/woff");
    (str ".ttf", str "font/ttf");
    (str ".eot", str "application/vnd.ms-fontembedded-opentype") ].

Section Bundle.
Context {P : Platform}.
Local Open Scope prog_scope.

Definition download_font (relative_path : text) : M bytes :=
  let local_path := relative_path in
  cached <- path_exists local_path ;;
  if (cached : bool) then
    print (str "  [cached] " ++ relative_path) ;;
    read_bytes local_path
  else
    makedirs (dirname local_path) ;;
    let url := CDN_BASE ++ relative_path in
    print (str "  [download] " ++ url) ;;
    data <- urlopen url USER_AGENT ;;
    write_bytes local_path data ;;
    ret data.

Definition get_mime_type (path : text) : text :=
  let ext := str_lower (snd (splitext path)) in
  dict_get_default mime_table ext (str "application/octet-stream").

(** The body of the [try] for one font: the new dict and the new total. *)
Definition encode_font (font_path : text) (replacements : dict) (total_size : N)
    : M (dict * N) :=
  font_data <- download_font font_path ;;
  let total_size := (total_size + N.of_nat (length font_data))%N in
  let mime := get_mime_type font_path in
  let data_uri := data_uri_of mime font_data in
  ret (dict_set font_path data_uri replacements, total_size).

(** One turn of the loop, with its [except Exception] handler. *)
Definition process_font (font_path : text) (st : dict * N) : M (dict * N) :=
  try_except (encode_font font_path (fst st) (snd st))
    (fun e =>
       print (str "  [ERROR] Failed to process " ++ font_path ++ str ": " ++ e) ;;
       ret st).

Fixpoint process_fonts (fonts : list text) (st : dict * N) : M (dict * N) :=
  match fonts with
  | [] => ret st
  | font_path :: more =>
      st' <- process_font font_path st ;;
      process_fonts more st'
  end.

Definition bundle : M unit :=
  found <- path_exists INPUT_FILE ;;
  if negb found then
    print (str "ERROR: " ++ INPUT_FILE ++ str " not found in current directory.") ;;
    print (str "Make sure you're running this from src/main/resources/chat-window/") ;;
    ret tt
  else
    print (str "Reading " ++ INPUT_FILE ++ str "...") ;;
    css <- read_text INPUT_FILE ;;
    let fonts := unique_fonts css in
    print (str "Found " ++ format_int (N.of_nat (length fonts))
           ++ str " unique font references.") ;;
    st <- process_fonts fonts ([], 0%N) ;;
    let replacements := fst st in
    let total_size := snd st in
    let bundled_css := apply_replacements replacements css in
    write_text OUTPUT_FILE bundled_css ;;
    input_size <- getsize INPUT_FILE ;;
    output_size <- getsize OUTPUT_FILE ;;
    print ([10%N] ++ str "Done!") ;;
    print (str "  Input:  " ++ INPUT_FILE ++ str " ("
           ++ format_int_commas input_size ++ str " bytes)") ;;
    print (str "  Fonts:  " ++ format_int (N.of_nat (length replacements))
           ++ str " encoded (" ++ format_int_commas total_size ++ str " bytes raw)") ;;
    print (str "  Output: " ++ OUTPUT_FILE ++ str " ("
           ++ format_int_commas output_size ++ str " bytes)") ;;
    print ([10%N] ++ str "You can now use " ++ OUTPUT_FILE ++ str " instead of "
           ++ INPUT_FILE ++ str ".") ;;
    print (str "Delete " ++ INPUT_FILE
           ++ str " and the fonts/ directory if you don't need them.").

End Bundle.

(** ** Vocabulary of the specification *)

(** The three textual forms of a reference. *)
Inductive quoting := Unquoted | DoubleQuoted | SingleQuoted.

Definition url_form (k : quoting) (x : text) : text :=
  match k with
  | Unquoted => url_plain x
  | DoubleQuoted => url_dquoted x
  | SingleQuoted => url_squoted x
  end.

(** [occurs w s]: [w] is a substring of [s]. *)
Fixpoint occurs (w s : text) : bool :=
  match strip_prefix w s with
  | Some _ => true
  | None =>
      match s with
      | [] => false
      | _ :: s' => occurs w s'
      end
  end.

(** What the group of [url_pattern] accepts: [fonts/] and then at least one
    character, none of them a closing parenthesis or a quote. *)
Definition path_char (c : char) : Prop :=
  c <> ch_rparen /\ c <> ch_dquote /\ c <> ch_squote.
Definition font_path (p : text) : Prop :=
  exists r, p = str "fonts/" ++ r /\ r <> [] /\ Forall path_char r.

Definition path_charb (c : char) : bool :=
  negb (existsb (N.eqb c) [ch_rparen; ch_dquote; ch_squote]).

(** The text [url(] does not occur in [x]. *)
Definition no_url_open (x : text) : Prop := occurs (str "url(") x = false.

(** The texts whose three forms cannot interfere: no closing parenthesis,
    no quote, and no [url(] inside. *)
Definition plain (x : text) : Prop := Forall path_char x /\ no_url_open x.

Definition plainb (x : text) : bool :=
  forallb path_charb x && negb (occurs (str "url(") x).

(** No parenthesis at all and no quote: the characters of a data URI. *)
Definition strict_char (c : char) : Prop :=
  c <> ch_lparen /\ c <> ch_rparen /\ c <> ch_dquote /\ c <> ch_squote.
Definition strict (x : text) : Prop := Forall strict_char x.

Definition strict_charb (c : char) : bool :=
  negb (existsb (N.eqb c) [ch_lparen; ch_rparen; ch_dquote; ch_squote]).

(** An optional quote. *)
Definition quote_opt (q : text) : Prop :=
  q = [] \/ q = [ch_dquote] \/ q = [ch_squote].

(** A token of the pattern: the two optional quotes are independent. *)
Definition url_token (q1 p q2 : text) : text :=
  str "url(" ++ q1 ++ p ++ q2 ++ str ")".

(** The tokens of a text, read left to right: at every position either a
    token starts there and the reading resumes after it, or no token starts
    there and the reading moves one character on. *)
Inductive scan : text -> list text -> Prop :=
| scan_nil : scan [] []
| scan_token q1 p q2 rest l :
    quote_opt q1 -> quote_opt q2 -> font_path p ->
    scan rest l ->
    scan (url_token q1 p q2 ++ rest) (p :: l)
| scan_skip c s l :
    (forall q1 p q2 rest,
        quote_opt q1 -> quote_opt q2 -> font_path p ->
        c :: s <> url_token q1 p q2 ++ rest) ->
    scan s l ->
    scan (c :: s) l.

(** A text [url(body)] whose body has no closing parenthesis and no
    [url(].  The three forms of a plain path and of a data URI are of this
    shape. *)
Definition inner_free (x : text) : Prop := ~ In ch_rparen x /\ no_url_open x.
Definition bracketed (w : text) : Prop :=
  exists body, w = str "url(" ++ body ++ [ch_rparen] /\ inner_free body.

(** [closes x]: reading [x], a closing parenthesis comes before any
    [url(]. *)
Fixpoint closes (x : text) : bool :=
  match x with
  | [] => false
  | c :: x' =>
      if (c =? ch_rparen)%N then true
      else match strip_prefix (str "url(") x with
           | Some _ => false
           | None => closes x'
           end
  end.

(** [bstart s]: a bracketed text is a prefix of [s]. *)
Definition bstart (s : text) : bool :=
  match strip_prefix (str "url(") s with
  | Some x => closes x
  | None => false
  end.

(** What one [str.replace] pass does to a bracketed text met whole. *)
Definition swap (old new w : text) : text :=
  if text_eqb w old then new else w.

(** What the passes of [apply_replacements] do to it, in their order. *)
Definition swap_variants (font_path data_uri w : text) : text :=
  swap (url_squoted font_path) (url_squoted data_uri)
    (swap (url_dquoted font_path) (url_dquoted data_uri)
       (swap (url_plain font_path) (url_plain data_uri) w)).

Definition token_image (replacements : dict) (w : text) : text :=
  fold_left (fun w entry => swap_variants (fst entry) (snd entry) w) replacements w.

(** [tmap F s s']: [s'] is [s] with every bracketed text [w], read left to
    right, turned into [F w], and every other character kept. *)
Inductive tmap (F : text -> text) : text -> text -> Prop :=
| tmap_nil : tmap F [] []
| tmap_token w s s' :
    bracketed w -> tmap F s s' -> tmap F (w ++ s) (F w ++ s')
| tmap_char c s s' :
    bstart (c :: s) = false -> tmap F s s' -> tmap F (c :: s) (c :: s').

(** The frame of a substitution: the output is the input in which some
    occurrences of a form of a mapped path were replaced by the same form
    of its data URI; every other character is the input's. *)
Inductive frame_rel (replacements : dict) : text -> text -> Prop :=
| frame_nil : frame_rel replacements [] []
| frame_keep c s s' :
    frame_rel replacements s s' ->
    frame_rel replacements (c :: s) (c :: s')
| frame_replace k p u s s' :
    dict_get p replacements = Some u ->
    frame_rel replacements s s' ->
    frame_rel replacements (url_form k p ++ s) (url_form k u ++ s').

(** The mappings the theorems on substitution are about: plain paths and
    data URIs, and no data URI that is also a path. *)
Definition plain_entries (replacements : dict) : Prop :=
  Forall (fun e => plain (fst e) /\ plain (snd e)) replacements.
Definition plain_mapping (replacements : dict) : Prop :=
  plain_entries replacements
  /\ (forall e e', In e replacements -> In e' replacements -> snd e <> fst e').

Definition is_ascii (t : text) : Prop := Forall (fun c => (c < 128)%N) t.

(** The characters of padded standard base64. *)
Definition b64_text (t : text) : Prop :=
  Forall (fun c => In c b64_alphabet \/ c = ch_equals) t.

Section RunVocabulary.
Context {P : Platform}.

(** The world after one more printed line. *)
Definition printed (w : world) (line : text) : world :=
  World (fs w) (net w) (fetched w) (console w ++ [line]).

(** The line the [except] handler prints. *)
Definition error_line (font_path : text) (e : exn) : text :=
  str "  [ERROR] Failed to process " ++ font_path ++ str ": " ++ e.

(** The run of a loop that ends, turn by turn: a font that is obtained
    enters the mapping; a font whose turn raises is logged, when the handler
    can print its line, and skipped, and the loop goes on with the mapping
    it had. *)
Inductive loop_run : list text -> dict * N -> world -> dict * N -> world -> Prop :=
| loop_done st w : loop_run [] st w st w
| loop_encoded font_path more st w font_data w1 st' w' :
    download_font font_path w = (Ok font_data, w1) ->
    loop_run more
      (dict_set font_path (data_uri_of (get_mime_type font_path) font_data) (fst st),
       (snd st + N.of_nat (length font_data))%N) w1 st' w' ->
    loop_run (font_path :: more) st w st' w'
| loop_skipped font_path more st w e w1 st' w' :
    download_font font_path w = (Raise e, w1) ->
    printable (error_line font_path e) = true ->
    loop_run more st (printed w1 (error_line font_path e)) st' w' ->
    loop_run (font_path :: more) st w st' w'.

(** The part of [bundle] after the loop: write the output and report. *)
Definition write_and_report (css : text) (st : dict * N) : M unit :=
  (let replacements := fst st in
   let total_size := snd st in
   let bundled_css := apply_replacements replacements css in
   write_text OUTPUT_FILE bundled_css ;;
   input_size <- getsize INPUT_FILE ;;
   output_size <- getsize OUTPUT_FILE ;;
   print ([10%N] ++ str "Done!") ;;
   print (str "  Input:  " ++ INPUT_FILE ++ str " ("
          ++ format_int_commas input_size ++ str " bytes)") ;;
   print (str "  Fonts:  " ++ format_int (N.of_nat (length replacements))
          ++ str " encoded (" ++ format_int_commas total_size ++ str " bytes raw)") ;;
   print (str "  Output: " ++ OUTPUT_FILE ++ str " ("
          ++ format_int_commas output_size ++ str " bytes)") ;;
   print ([10%N] ++ str "You can now use " ++ OUTPUT_FILE ++ str " instead of "
          ++ INPUT_FILE ++ str ".") ;;
   print (str "Delete " ++ INPUT_FILE
          ++ str " and the fonts/ directory if you don't need them."))%prog.

(** What [download_font] gave at each turn of the loop that starts in [w]:
    the loop calls it on each font in turn, in the world the turns before
    have left, and after a turn that raised the handler prints its line;
    the loop stops where that [print] raises. *)
Fixpoint outcomes (fonts : list text) (w : world) : list (text * result bytes) :=
  match fonts with
  | [] => []
  | font_path :: more =>
      match download_font font_path w with
      | (Ok font_data, w1) => (font_path, Ok font_data) :: outcomes more w1
      | (Raise e, w1) =>
          (font_path, Raise e)
          :: match print (error_line font_path e) w1 with
             | (Ok _, w2) => outcomes more w2
             | (Raise _, _) => []
             end
      end
  end.

(** The fonts that were obtained, with their bytes. *)
Definition obtained (fonts : list text) (w : world) : list (text * bytes) :=
  flat_map (fun o => match snd o with
                     | Ok font_data => [(fst o, font_data)]
                     | Raise _ => []
                     end) (outcomes fonts w).

End RunVocabulary.

(** ** Does a token start here?

    The test the pattern makes at one position, written out: [url(], an
    optional quote, [fonts/], one or more path characters, an optional
    quote, the closing parenthesis.  A path character is neither a quote nor
    a closing parenthesis, so the greedy run ends at the first of these. *)

Definition is_quote (c : char) : bool := ((c =? ch_dquote) || (c =? ch_squote))%N.

(** After the first character of the path: the rest of the run, then a
    closing parenthesis, or a quote and a closing parenthesis. *)
Fixpoint path_rest (t : text) : bool :=
  match t with
  | [] => false
  | c :: t' =>
      if (c =? ch_rparen)%N then true
      else if is_quote c
           then match t' with
                | d :: _ => (d =? ch_rparen)%N
                | [] => false
                end
           else path_rest t'
  end.

Definition path_here (t : text) : bool :=
  match t with
  | c :: t' => path_charb c && path_rest t'
  | [] => false
  end.

Definition fonts_here (t : text) : bool :=
  match strip_prefix (str "fonts/") t with
  | Some y => path_here y
  | None => false
  end.

Definition quote_here (t : text) : bool :=
  match t with
  | c :: t' => if is_quote c then fonts_here t' else fonts_here t
  | [] => false
  end.

Definition token_here (s : text) : bool :=
  match strip_prefix (str "url(") s with
  | Some y => quote_here y
  | None => false
  end.

(** The paths that are not in the mapping. *)
Definition unmapped (replacements : dict) (p : text) : bool :=
  match dict_get p replacements with
  | Some _ => false
  | None => true
  end.

(** The functions on bracketed texts that the passes of a mapping are: a
    bracketed text is kept, or it is a form of a plain text and becomes the
    same form of another plain text. *)
Definition form_preserving (F : text -> text) : Prop :=
  forall w, bracketed w ->
    F w = w
    \/ exists k x y, plain x /\ plain y /\ w = url_form k x /\ F w = url_form k y.

(** ** The effects of a run

    [subseq l1 l2]: [l1] is [l2] with some elements left out, the others in
    their order. *)
Inductive subseq {A : Type} : list A -> list A -> Prop :=
| subseq_nil : subseq [] []
| subseq_skip x l1 l2 : subseq l1 l2 -> subseq l1 (x :: l2)
| subseq_take x l1 l2 : subseq l1 l2 -> subseq (x :: l1) (x :: l2).

(** The calls of the program that can change the file system. *)
Inductive fs_event :=
| Makedirs (d : text)
| WriteBinary (p : text) (data : bytes)
| WriteText (p : text) (s : text).

Section Effects.
Context {P : Platform}.

(** The file system after a call, whether it raised or not. *)
Definition fs_apply (f : filesystem) (ev : fs_event) : filesystem :=
  match ev with
  | Makedirs d => snd (os_makedirs f d)
  | WriteBinary p data => snd (write_binary f p data)
  | WriteText p s => snd (write_utf8 f p s)
  end.

Definition fs_replay (f : filesystem) (evs : list fs_event) : filesystem :=
  fold_left fs_apply evs f.

(** The calls [download_font] makes for one of [fonts]: [os.makedirs] on
    the directory of the font, and the write to its cache file of bytes
    that the request of its URL returned. *)
Definition font_event (fonts : list text) (ev : fs_event) : Prop :=
  match ev with
  | Makedirs d => exists p, In p fonts /\ d = dirname p
  | WriteBinary p data =>
      In p fonts
      /\ exists n n', urlopen_read n (CDN_BASE ++ p) USER_AGENT = (Ok data, n')
  | WriteText _ _ => False
  end.

End Effects.

(** ** Reading a number back

    [int(s)] for a text of decimal digits. *)
Definition parse_int (t : text) : option N :=
  option_map N.of_uint
    (DecimalString.NilZero.uint_of_string
       (string_of_list_ascii (map ascii_of_N t))).

Definition is_digit (c : char) : Prop := (48 <= c <= 57)%N.

(** ** The lines of the loop *)

Definition cached_line (font_path : text) : text := str "  [cached] " ++ font_path.
Definition download_line (font_path : text) : text :=
  str "  [download] " ++ CDN_BASE ++ font_path.

(** What the loop prints for one font, given the mapping it ends with: for
    a font of the mapping the line of the cache or the line of the
    download; for any other font an error line, after the line of the
    cache or of the download if one was printed. *)
Definition font_log (replacements : dict) (font_path : text) (lines : list text)
    : Prop :=
  match dict_get font_path replacements with
  | Some _ => lines = [cached_line font_path] \/ lines = [download_line font_path]
  | None =>
      exists e,
        lines = [cached_line font_path; error_line font_path e]
        \/ lines = [error_line font_path e]
        \/ lines = [download_line font_path; error_line font_path e]
  end.

(** ** An in-memory platform

    Files and remote resources are association lists from path (or URL) to
    content; text files are UTF-8, read with universal newlines and written
    with the line ends of POSIX.  The encoding of the console and the paths
    that cannot be written are parameters.  It serves the examples. *)
Module Mem.

Definition files := list (text * bytes).

Fixpoint lookup (p : text) (f : files) : option bytes :=
  match f with
  | [] => None
  | (p', d) :: f' => if text_eqb p' p then Some d else lookup p f'
  end.

Fixpoint remove (p : text) (f : files) : files :=
  match f with
  | [] => []
  | (p', d) :: f' => if text_eqb p' p then remove p f' else (p', d) :: remove p f'
  end.

Definition no_such_file (p : text) : exn :=
  str "[Errno 2] No such file or directory: '" ++ p ++ str "'".

Definition permission_denied (p : text) : exn :=
  str "[Errno 13] Permission denied: '" ++ p ++ str "'".

(** The six bits of a continuation byte. *)
Definition continuation (b : byte) : option N :=
  let n := Byte.to_N b in
  if ((128 <=? n) && negb (192 <=? n))%N then Some (n - 128)%N else None.

(** Strict UTF-8: no overlong form, no surrogate, nothing beyond
    U+10FFFF. *)
Fixpoint decode_utf8 (d : bytes) : option text :=
  match d with
  | [] => Some []
  | b0 :: d1 =>
      let n0 := Byte.to_N b0 in
      if (240 <=? n0)%N then
        match d1 with
        | b1 :: b2 :: b3 :: d4 =>
            match continuation b1, continuation b2, continuation b3 with
            | Some n1, Some n2, Some n3 =>
                let c := ((n0 - 240) * 262144 + n1 * 4096 + n2 * 64 + n3)%N in
                if ((65536 <=? c) && negb (1114112 <=? c))%N
                then option_map (cons c) (decode_utf8 d4)
                else None
            | _, _, _ => None
            end
        | _ => None
        end
      else if (224 <=? n0)%N then
        match d1 with
        | b1 :: b2 :: d3 =>
            match continuation b1, continuation b2 with
            | Some n1, Some n2 =>
                let c := ((n0 - 224) * 4096 + n1 * 64 + n2)%N in
                if ((2048 <=? c) && (negb (55296 <=? c) || (57344 <=? c)))%N
                then option_map (cons c) (decode_utf8 d3)
                else None
            | _, _ => None
            end
        | _ => None
        end
      else if (192 <=? n0)%N then
        match d1 with
        | b1 :: d2 =>
            match continuation b1 with
            | Some n1 =>
                let c := ((n0 - 192) * 64 + n1)%N in
                if (128 <=? c)%N then option_map (cons c) (decode_utf8 d2) else None
            | None => None
            end
        | _ => None
        end
      else if (128 <=? n0)%N then None
      else option_map (cons n0) (decode_utf8 d1)
  end.

(** Reading in text mode: the line ends [\r\n] and [\r] become [\n]. *)
Fixpoint universal_newlines (t : text) : text :=
  match t with
  | [] => []
  | c :: t' =>
      if (c =? 13)%N
      then 10%N :: match t' with
                   | d :: t'' =>
                       if (d =? 10)%N then universal_newlines t''
                       else universal_newlines t'
                   | [] => []
                   end
      else c :: universal_newlines t'
  end.

Definition bytes_of (ns : list N) : option bytes :=
  fold_right (fun n acc =>
                match Byte.of_N n, acc with
                | Some b, Some d => Some (b :: d)
                | _, _ => None
                end) (Some []) ns.

Definition encode_char (c : char) : option bytes :=
  if (1114112 <=? c)%N then None
  else if (65536 <=? c)%N then
    bytes_of [240 + c / 262144; 128 + (c / 4096) mod 64;
              128 + (c / 64) mod 64; 128 + c mod 64]%N
  else if (2048 <=? c)%N then
    if ((55296 <=? c) && negb (57344 <=? c))%N then None
    else bytes_of [224 + c / 4096; 128 + (c / 64) mod 64; 128 + c mod 64]%N
  else if (128 <=? c)%N then bytes_of [192 + c / 64; 128 + c mod 64]%N
  else bytes_of [c].

Fixpoint encode_utf8 (s : text) : option bytes :=
  match s with
  | [] => Some []
  | c :: s' =>
      match encode_char c, encode_utf8 s' with
      | Some b, Some d => Some (b ++ d)
      | _, _ => None
      end
  end.

(** The characters UTF-8 has: all but the surrogates. *)
Definition utf8_encodes (c : char) : bool :=
  match encode_char c with
  | Some _ => true
  | None => false
  end.

(** An ASCII console has no other character. *)
Definition ascii_encodes (_ : char) : bool := false.

(** The codec of a console: its name, and the characters it has beyond
    ASCII. *)
Definition codec : Type := text * (char -> bool).
Definition utf8_codec : codec := (str "utf-8", utf8_encodes).
Definition ascii_codec : codec := (str "ascii", ascii_encodes).

Definition write_file (locked : list text) (f : files) (p : text) (d : bytes)
    : result unit * files :=
  if existsb (text_eqb p) locked
  then (Raise (permission_denied p), f)
  else (Ok tt, (p, d) :: remove p f).

(** The platform whose console has the codec [stdout], and on which the
    paths [locked] cannot be written. *)
Definition platform_with (stdout : codec) (locked : list text) : Platform := {|
  filesystem := files;
  network := files;
  os_path_exists := fun f p => match lookup p f with Some _ => true | None => false end;
  read_binary := fun f p =>
    match lookup p f with Some d => Ok d | None => Raise (no_such_file p) end;
  read_utf8 := fun f p =>
    match lookup p f with
    | Some d =>
        match decode_utf8 d with
        | Some t => Ok (universal_newlines t)
        | None => Raise (str "'utf-8' codec can't decode bytes")
        end
    | None => Raise (no_such_file p)
    end;
  os_makedirs := fun f _ => (Ok tt, f);
  write_binary := write_file locked;
  write_utf8 := fun f p s =>
    match encode_utf8 s with
    | Some d => write_file locked f p d
    | None => (Raise (str "'utf-8' codec can't encode characters"), f)
    end;
  os_path_getsize := fun f p =>
    match lookup p f with
    | Some d => Ok (N.of_nat (length d))
    | None => Raise (no_such_file p)
    end;
  urlopen_read := fun n url _ =>
    match lookup url n with
    | Some d => (Ok d, n)
    | None => (Raise (str "HTTP Error 404: Not Found"), n)
    end;
  stdout_encodes := snd stdout;
  stdout_error := fun _ =>
    str "'" ++ fst stdout ++ str "' codec can't encode characters";
  unicode_lower := lower_ascii
|}.

(** A UTF-8 console, every path writable. *)
Definition platform : Platform := platform_with utf8_codec [].

(** The same with an ASCII console. *)
Definition ascii_console : Platform := platform_with ascii_codec [].


(** The bytes of an ASCII literal. *)
Definition ascii_bytes (s : string) : bytes :=
  map byte_of_ascii (list_ascii_of_string s).
Arguments ascii_bytes s%_string.

Definition start_with (stdout : codec) (locked : list text)
    (f n : files) : @world (platform_with stdout locked) :=
  World f n [] [].

Definition start (f n : files) : @world platform :=
  start_with utf8_codec [] f n.

End Mem.

(** ** Example inputs *)

(** The bytes of a text, as the in-memory platform stores it. *)
Definition text_bytes (t : text) : bytes :=
  match Mem.encode_utf8 t with
  | Some d => d
  | None => []
  end.

(** The stylesheet of the specification's first test: the three forms, and
    one path twice. *)
Module Sample.

Definition pA : text := str "fonts/A.woff2".
Definition pB : text := str "fonts/B.woff".
Definition pC : text := str "fonts/C.ttf".

Definition css : text :=
  str "a{src:url(fonts/A.woff2)}b{src:" ++ url_dquoted pB ++ str "}c{src:"
  ++ url_squoted pC ++ str "}d{src:url(fonts/A.woff2)}".

(** [fonts/C.ttf] is cached, [fonts/A.woff2] is on the CDN, [fonts/B.woff]
    is neither. *)
Definition disk : Mem.files :=
  [(INPUT_FILE, text_bytes css); (pC, Mem.ascii_bytes "ccc")].
Definition cdn : Mem.files := [(CDN_BASE ++ pA, Mem.ascii_bytes "aaaa")].

Definition uA : text := str "data:font/woff2;base64,YWFhYQ==".
Definition uC : text := str "data:font/ttf;base64,Y2Nj".
Definition mapping : dict := [(pA, uA); (pC, uC)].

End Sample.

(** A path that contains the unquoted form of another path. *)
Module Nested.

Definition p1 : text := str "fonts/a.ttf".
Definition p2 : text := str "fonts/xurl(fonts/a.ttf".
Definition pre : text := str "url(fonts/a.ttf) ".
Definition css : text := str "url(fonts/a.ttf) url(fonts/xurl(fonts/a.ttf)".

(** Both fonts are cached. *)
Definition disk : Mem.files :=
  [(INPUT_FILE, text_bytes css); (p1, [x00; x00; x00]); (p2, [xff])].

Definition u1 : text := str "data:font/ttf;base64,AAAA".
Definition u2 : text := str "data:font/ttf;base64,/w==".
Definition mapping : dict := [(p1, u1); (p2, u2)].

End Nested.

(** A path that contains the unquoted form of another path's data URI. *)
Module Chained.

Definition p1 : text := str "fonts/a.ttf".
Definition p_mid : text := str "fonts/xurl(fonts/a.ttf".
Definition p3 : text := str "fonts/xurl(data:font/ttf;base64,AAAA".
Definition css : text :=
  str "url(fonts/xurl(fonts/a.ttf)url(fonts/a.ttf)url(fonts/xurl(data:font/ttf;base64,AAAA)".

(** [p1] and [p3] are cached; [p_mid] is neither cached nor on the CDN. *)
Definition disk : Mem.files :=
  [(INPUT_FILE, text_bytes css); (p1, [x00; x00; x00]); (p3, [xff])].

Definition u1 : text := str "data:font/ttf;base64,AAAA".
Definition u3 : text := str "data:application/octet-stream;base64,/w==".
Definition mapping : dict := [(p1, u1); (p3, u3)].

End Chained.

(** Quotes that do not match. *)
Module Mismatch.

Definition p : text := str "fonts/X.woff2".
(** A double quote opens, none closes. *)
Definition css_open : text := str "url(" ++ [ch_dquote] ++ str "fonts/X.woff2)".
(** None opens, a double quote closes. *)
Definition css_close : text := str "url(fonts/X.woff2" ++ [ch_dquote] ++ str ")".

Definition disk (css : text) : Mem.files := [(INPUT_FILE, text_bytes css)].
Definition cdn : Mem.files := [(CDN_BASE ++ p, Mem.ascii_bytes "xx")].

End Mismatch.

(** A path with a character beyond ASCII: [fonts/] and U+00E9, [.ttf]. *)
Module Accent.

Definition p : text := str "fonts/" ++ [233%N] ++ str ".ttf".
Definition css : text := str "a{src:" ++ url_plain p ++ str "}".

(** The font is cached. *)
Definition disk : Mem.files := [(INPUT_FILE, text_bytes css); (p, [x00; x00; x00])].

End Accent.

(** * Properties *)

(** ** The models of the library functions on examples *)

Example str_replace_examples :
  str_replace (str "aa") (str "b") (str "aaa") = str "ba"
  /\ str_replace (str "ab") (str "X") (str "aabababbab") = str "aXXXbX"
  /\ str_replace (str "") (str "-") (str "abc") = str "-a-b-c-"
  /\ str_replace (str "zz") (str "y") (str "abc") = str "abc".
Proof. repeat split. Qed.

Example findall_examples :
  findall url_pattern Sample.css
  = [Sample.pA; Sample.pB; Sample.pC; Sample.pA]
  /\ unique_fonts Sample.css = [Sample.pA; Sample.pB; Sample.pC]
  /\ unique_fonts (str "a{color:red}url(other/a.ttf)url(fonts/)") = []
  /\ unique_fonts (str "url(fonts/b.ttf)url(fonts/a.ttf)url(fonts/B.ttf)")
     = [str "fonts/B.ttf"; str "fonts/a.ttf"; str "fonts/b.ttf"].
Proof. repeat split; vm_compute; reflexivity. Qed.

Example splitext_examples :
  map splitext [str "fonts/a.woff2"; str "fonts/.woff2"; str "fonts/..a.b";
                str "fonts/a.b/c"; str "a.tar.gz"; str "fonts/a."]
  = [(str "fonts/a", str ".woff2"); (str "fonts/.woff2", []);
     (str "fonts/..a", str ".b"); (str "fonts/a.b/c", []);
     (str "a.tar", str ".gz"); (str "fonts/a", str ".")].
Proof. vm_compute. reflexivity. Qed.

Example dirname_examples :
  map dirname [str "fonts/a.woff2"; str "fonts//a"; str "fonts/x/y"; str "a"; str "/a"]
  = [str "fonts"; str "fonts"; str "fonts/x"; []; str "/"].
Proof. vm_compute. reflexivity. Qed.

(** The test vectors of RFC 4648, and one with the two last characters of
    the alphabet. *)
Example b64encode_examples :
  map b64encode
    [Mem.ascii_bytes ""; Mem.ascii_bytes "f"; Mem.ascii_bytes "fo";
     Mem.ascii_bytes "foo"; Mem.ascii_bytes "foob"; Mem.ascii_bytes "fooba";
     Mem.ascii_bytes "foobar"; [xfb; xff; xfe]]
  = [str ""; str "Zg=="; str "Zm8="; str "Zm9v"; str "Zm9vYg=="; str "Zm9vYmE=";
     str "Zm9vYmFy"; str "+//+"].
Proof. vm_compute. reflexivity. Qed.

Example format_int_examples :
  map format_int_commas [0; 12; 123; 1234; 123456; 1234567]%N
  = [str "0"; str "12"; str "123"; str "1,234"; str "123,456"; str "1,234,567"].
Proof. vm_compute. reflexivity. Qed.

(** ** Texts: equality, prefixes, order *)

Lemma text_eqb_eq (a b : text) : text_eqb a b = true <-> a = b.
Proof.
  revert b; induction a as [|x a IH]; intros [|y b]; simpl; split; intro H;
    try reflexivity; try discriminate.
  - apply andb_true_iff in H as [Hx Hab].
    apply N.eqb_eq in Hx. apply IH in Hab. now subst.
  - injection H as -> ->. rewrite N.eqb_refl. simpl. now apply IH.
Qed.

Lemma text_eqb_refl (a : text) : text_eqb a a = true.
Proof. now apply text_eqb_eq. Qed.

Lemma text_eqb_neq (a b : text) : text_eqb a b = false <-> a <> b.
Proof.
  split.
  - intros H E. apply text_eqb_eq in E. congruence.
  - intro H. destruct (text_eqb a b) eqn:E; [|reflexivity].
    apply text_eqb_eq in E. contradiction.
Qed.

Lemma strip_prefix_Some (p s rest : text) :
  strip_prefix p s = Some rest <-> s = p ++ rest.
Proof.
  revert s; induction p as [|a p IH]; intros s; simpl.
  - split; intro H; congruence.
  - destruct s as [|b s].
    + split; intro H; discriminate.
    + destruct (N.eqb_spec a b) as [->|Hne].
      * rewrite IH. split; intro H; [now subst | now injection H].
      * split; intro H; [discriminate | injection H as E _; congruence].
Qed.

Lemma strip_prefix_app (p rest : text) : strip_prefix p (p ++ rest) = Some rest.
Proof. now apply strip_prefix_Some. Qed.

Lemma strip_prefix_None (p s : text) :
  strip_prefix p s = None <-> (forall rest, s <> p ++ rest).
Proof.
  split.
  - intros H rest E. apply strip_prefix_Some in E. congruence.
  - intro H. destruct (strip_prefix p s) as [rest|] eqn:E; [|reflexivity].
    apply strip_prefix_Some in E. now apply H in E.
Qed.

Lemma strip_prefix_shorter (p s rest : text) :
  p <> [] -> strip_prefix p s = Some rest -> length rest < length s.
Proof.
  intros Hp H. apply strip_prefix_Some in H. subst s.
  rewrite length_app. destruct p; [contradiction | simpl; lia].
Qed.

(** ** [str.replace]: the scan does not depend on the fuel *)

Lemma replace_from_enough (n m : nat) (old new s : text) :
  old <> [] -> length s <= n -> length s <= m ->
  replace_from n old new s = replace_from m old new s.
Proof.
  intro Hold. revert m s.
  induction n as [|n IH]; intros m s Hn Hm.
  - destruct s; [|simpl in Hn; lia]. destruct m; reflexivity.
  - destruct m as [|m].
    + destruct s; [reflexivity | simpl in Hm; lia].
    + simpl. destruct s as [|c s]; [reflexivity|].
      destruct (strip_prefix old (c :: s)) as [rest|] eqn:E.
      * apply strip_prefix_shorter in E; [|assumption].
        f_equal. apply IH; simpl in *; lia.
      * f_equal. apply IH; simpl in *; lia.
Qed.

Lemma str_replace_nil (old new : text) : old <> [] -> str_replace old new [] = [].
Proof. destruct old; [contradiction | reflexivity]. Qed.

(** The equation of the scan: at an occurrence the replacement is written
    and the scan resumes after it, elsewhere one character is copied. *)
Lemma str_replace_cons (old new : text) (c : char) (s : text) :
  old <> [] ->
  str_replace old new (c :: s) =
  match strip_prefix old (c :: s) with
  | Some rest => new ++ str_replace old new rest
  | None => c :: str_replace old new s
  end.
Proof.
  intro Hold. unfold str_replace.
  destruct old as [|o old]; [contradiction|].
  cbn [length replace_from].
  destruct (strip_prefix (o :: old) (c :: s)) as [rest|] eqn:E.
  - f_equal. apply replace_from_enough; [discriminate| |lia].
    apply strip_prefix_shorter in E; [simpl in E; lia | discriminate].
  - reflexivity.
Qed.

(** ** Occurrences *)

Lemma occurs_step (w s : text) :
  occurs w s =
  match strip_prefix w s with
  | Some _ => true
  | None => match s with [] => false | _ :: s' => occurs w s' end
  end.
Proof. destruct s; reflexivity. Qed.

Lemma occurs_app (w pre post : text) : occurs w (pre ++ w ++ post) = true.
Proof.
  induction pre as [|c pre IH].
  - rewrite occurs_step. simpl. now rewrite strip_prefix_app.
  - rewrite occurs_step.
    destruct (strip_prefix w ((c :: pre) ++ w ++ post)); [reflexivity | exact IH].
Qed.

Lemma not_occurs (w s : text) :
  occurs w s = false -> forall pre post, s <> pre ++ w ++ post.
Proof.
  intros H pre post ->. rewrite occurs_app in H. discriminate.
Qed.

Lemma occurs_split (w s : text) :
  occurs w s = true -> exists pre post, s = pre ++ w ++ post.
Proof.
  induction s as [|c s IH]; rewrite occurs_step.
  - destruct (strip_prefix w []) as [r|] eqn:E; [|discriminate].
    apply strip_prefix_Some in E. intros _. now exists [], r.
  - destruct (strip_prefix w (c :: s)) as [r|] eqn:E.
    + apply strip_prefix_Some in E. intros _. now exists [], r.
    + intro H. destruct (IH H) as (pre & post & ->). now exists (c :: pre), post.
Qed.

(** What does not occur in a text does not occur in a part of it. *)
Lemma occurs_part (w a x b : text) :
  occurs w (a ++ x ++ b) = false -> occurs w x = false.
Proof.
  intro H. destruct (occurs w x) eqn:E; [|reflexivity].
  apply occurs_split in E as (pre & post & ->).
  rewrite <- H. symmetry.
  replace (a ++ (pre ++ w ++ post) ++ b) with ((a ++ pre) ++ w ++ (post ++ b))
    by now rewrite <- !app_assoc.
  apply occurs_app.
Qed.

(** ** Bracketed texts *)

Lemma url_plain_chars (x : text) :
  url_plain x = (117 :: 114 :: 108 :: 40 :: x ++ [41])%N.
Proof. reflexivity. Qed.

Lemma url_dquoted_chars (x : text) :
  url_dquoted x = (117 :: 114 :: 108 :: 40 :: 34 :: x ++ [34; 41])%N.
Proof. reflexivity. Qed.

Lemma url_squoted_chars (x : text) :
  url_squoted x = (117 :: 114 :: 108 :: 40 :: 39 :: x ++ [39; 41])%N.
Proof. reflexivity. Qed.

Lemma bracketed_chars (w : text) :
  bracketed w <->
  exists body, w = (117 :: 114 :: 108 :: 40 :: body ++ [41])%N /\ inner_free body.
Proof. reflexivity. Qed.

Lemma inner_free_part (a x b : text) : inner_free (a ++ x ++ b) -> inner_free x.
Proof.
  intros [Hr Hu]. split.
  - intro H. apply Hr. apply in_or_app. right. apply in_or_app. now left.
  - now apply occurs_part with a b.
Qed.

Lemma inner_free_tail (c : char) (y : text) : inner_free (c :: y) -> inner_free y.
Proof.
  intro H. apply (inner_free_part [c] y []). now rewrite app_nil_r.
Qed.

(** A quote on each side of a plain text gives a body. *)
Lemma inner_free_quoted (q : char) (x : text) :
  (q = ch_dquote \/ q = ch_squote) -> plain x -> inner_free (q :: x ++ [q]).
Proof.
  intros Hq [Hx Hu]. split.
  - intros [E|H].
    + destruct Hq as [->| ->]; discriminate E.
    + apply in_app_or in H as [H|[E|[]]].
      * rewrite Forall_forall in Hx. now destruct (Hx _ H) as [Hr _].
      * destruct Hq as [->| ->]; discriminate E.
  - unfold no_url_open in *.
    destruct (occurs (str "url(") (q :: x ++ [q])) eqn:E; [|reflexivity].
    exfalso. apply occurs_split in E as (pre & post & E).
    destruct pre as [|c pre].
    + injection E as E _. destruct Hq as [->| ->]; discriminate E.
    + injection E as _ E.
      destruct post as [|d0 post0].
      * assert (E' : x ++ [q] = (pre ++ [117; 114; 108]%N) ++ [40%N])
          by (rewrite E, <- app_assoc; reflexivity).
        apply app_inj_tail in E' as [_ E'].
        destruct Hq as [->| ->]; discriminate E'.
      * destruct (exists_last (l := d0 :: post0)) as (post' & d & Ep);
          [discriminate|].
        rewrite Ep in E.
        assert (E' : x ++ [q] = (pre ++ str "url(" ++ post') ++ [d])
          by (rewrite E, <- !app_assoc; reflexivity).
        apply app_inj_tail in E' as [E' _].
        exact (not_occurs _ _ Hu pre post' E').
Qed.

Lemma plain_inner_free (x : text) : plain x -> inner_free x.
Proof.
  intros [Hx Hu]. split; [|assumption].
  intro H. rewrite Forall_forall in Hx. now destruct (Hx _ H) as [Hr _].
Qed.

Lemma bracketed_form (k : quoting) (x : text) : plain x -> bracketed (url_form k x).
Proof.
  intro Hx. apply bracketed_chars. destruct k; simpl.
  - exists x. rewrite url_plain_chars. split; [reflexivity|].
    now apply plain_inner_free.
  - exists (34 :: x ++ [34])%N. rewrite url_dquoted_chars. split.
    + simpl. now rewrite <- app_assoc.
    + apply (inner_free_quoted ch_dquote); [now left | assumption].
  - exists (39 :: x ++ [39])%N. rewrite url_squoted_chars. split.
    + simpl. now rewrite <- app_assoc.
    + apply (inner_free_quoted ch_squote); [now right | assumption].
Qed.

Lemma bracketed_nonempty (w : text) : bracketed w -> w <> [].
Proof. intros [body [-> _]]. discriminate. Qed.

(** When [url(] starts a text whose first closing parenthesis comes after
    [y], it starts [y]. *)
Lemma url_open_before_rparen (y s r : text) :
  ~ In ch_rparen y ->
  y ++ ch_rparen :: s = str "url(" ++ r ->
  exists y', y = str "url(" ++ y'.
Proof.
  intros Hy E. change (str "url(" ++ r) with (117 :: 114 :: 108 :: 40 :: r)%N in E.
  do 4 (destruct y as [|? y]; [discriminate E | injection E as -> E]).
  now exists y.
Qed.

Lemma strip_url_open_body (y s : text) :
  inner_free y -> strip_prefix (str "url(") (y ++ ch_rparen :: s) = None.
Proof.
  intros [Hr Hu]. apply strip_prefix_None. intros r E.
  destruct (url_open_before_rparen y s r Hr E) as [y' ->].
  exact (not_occurs _ _ Hu [] y' eq_refl).
Qed.

Lemma closes_app (body rest : text) :
  inner_free body -> closes (body ++ ch_rparen :: rest) = true.
Proof.
  induction body as [|c body IH]; intro H.
  - reflexivity.
  - pose proof (strip_url_open_body (c :: body) rest H) as E.
    cbn [app closes] in *. rewrite E.
    destruct (N.eqb_spec c ch_rparen); [reflexivity|].
    apply IH. now apply inner_free_tail with c.
Qed.

Lemma strip_prefix_None_app (w x y : text) :
  strip_prefix w (x ++ y) = None -> strip_prefix w x = None.
Proof.
  intro H. apply strip_prefix_None. intros r ->.
  rewrite <- app_assoc, strip_prefix_app in H. discriminate.
Qed.

Lemma closes_split (x : text) :
  closes x = true ->
  exists body rest, x = body ++ ch_rparen :: rest /\ inner_free body.
Proof.
  induction x as [|c x IH]; cbn [closes]; [discriminate|].
  destruct (N.eqb_spec c ch_rparen) as [->|Hr].
  - intros _. exists [], x. split; [reflexivity|]. split; [intros [] | reflexivity].
  - destruct (strip_prefix (str "url(") (c :: x)) as [r|] eqn:E; [discriminate|].
    intro H. destruct (IH H) as (body & rest & -> & Hb1 & Hb2).
    exists (c :: body), rest. split; [reflexivity|]. split.
    + intros [->|Hin]; [now apply Hr | contradiction].
    + unfold no_url_open. rewrite occurs_step.
      rewrite (strip_prefix_None_app _ (c :: body) (ch_rparen :: rest) E).
      exact Hb2.
Qed.

Lemma bracketed_bstart (w rest : text) : bracketed w -> bstart (w ++ rest) = true.
Proof.
  intros [body [-> Hb]]. unfold bstart.
  rewrite <- !app_assoc, strip_prefix_app. simpl.
  now apply closes_app.
Qed.

Lemma bstart_split (s : text) :
  bstart s = true -> exists w rest, bracketed w /\ s = w ++ rest.
Proof.
  unfold bstart. destruct (strip_prefix (str "url(") s) as [x|] eqn:E; [|discriminate].
  apply strip_prefix_Some in E. intro H.
  destruct (closes_split x H) as (body & rest & -> & Hb).
  exists (str "url(" ++ body ++ [ch_rparen]), rest. split.
  - now exists body.
  - subst s. now rewrite <- !app_assoc.
Qed.

Lemma rparen_first_inj (b b' r r' : text) :
  ~ In ch_rparen b -> ~ In ch_rparen b' ->
  b ++ ch_rparen :: r = b' ++ ch_rparen :: r' -> b = b' /\ r = r'.
Proof.
  revert b'. induction b as [|c b IH]; intros [|c' b'] Hb Hb' E; simpl in E.
  - injection E as ->. now split.
  - injection E as E _. exfalso. apply Hb'. left. now symmetry.
  - injection E as E _. exfalso. apply Hb. now left.
  - injection E as -> E.
    destruct (IH b') as [-> ->];
      [intro H; apply Hb; now right | intro H; apply Hb'; now right | exact E |].
    now split.
Qed.

(** At most one bracketed text starts at a given place. *)
Lemma bracketed_unique (w w' r r' : text) :
  bracketed w -> bracketed w' -> w ++ r = w' ++ r' -> w = w' /\ r = r'.
Proof.
  intros [b [-> [Hb _]]] [b' [-> [Hb' _]]] E.
  rewrite <- !app_assoc in E. apply app_inv_head in E.
  simpl in E. destruct (rparen_first_inj _ _ _ _ Hb Hb' E) as [-> ->].
  now split.
Qed.

Lemma bracketed_strip_None (old s : text) :
  bracketed old -> bstart s = false -> strip_prefix old s = None.
Proof.
  intros Hold Hs. apply strip_prefix_None. intros rest ->.
  rewrite bracketed_bstart in Hs by assumption. discriminate.
Qed.

(** A body followed by its closing parenthesis does not start a bracketed
    text. *)
Lemma bstart_after_body (y s : text) :
  inner_free y -> bstart (y ++ ch_rparen :: s) = false.
Proof. intro Hy. unfold bstart. now rewrite strip_url_open_body. Qed.

(** Inside a bracketed text, after its first character, no bracketed text
    starts, whatever follows. *)
Lemma bstart_inside (T a b s : text) :
  bracketed T -> T = a ++ b -> a <> [] -> b <> [] -> bstart (b ++ s) = false.
Proof.
  intros HT E Ha Hb. apply bracketed_chars in HT. destruct HT as [body [-> Hbody]].
  destruct a as [|a1 a]; [contradiction|]. clear Ha.
  destruct a as [|a2 a]; [injection E as _ <-; reflexivity|].
  destruct a as [|a3 a]; [injection E as _ _ <-; reflexivity|].
  destruct a as [|a4 a]; [injection E as _ _ _ <-; reflexivity|].
  injection E as _ _ _ _ E.
  destruct (exists_last Hb) as (b' & d & ->).
  rewrite app_assoc in E. apply app_inj_tail in E as [-> <-].
  rewrite <- app_assoc. simpl. apply bstart_after_body.
  apply (inner_free_part a b' []). now rewrite app_nil_r.
Qed.

(** ** One [str.replace] pass, seen on bracketed texts *)

Lemma str_replace_hit (old new s : text) :
  old <> [] -> str_replace old new (old ++ s) = new ++ str_replace old new s.
Proof.
  intro Hold. destruct old as [|c old]; [contradiction|].
  change ((c :: old) ++ s) with (c :: (old ++ s)).
  rewrite str_replace_cons by assumption.
  change (c :: (old ++ s)) with ((c :: old) ++ s).
  now rewrite strip_prefix_app.
Qed.

Lemma str_replace_copy (old new b s : text) :
  old <> [] ->
  (forall a' b', b = a' ++ b' -> b' <> [] -> strip_prefix old (b' ++ s) = None) ->
  str_replace old new (b ++ s) = b ++ str_replace old new s.
Proof.
  intro Hold. induction b as [|c b IH]; intro H; [reflexivity|].
  simpl. rewrite str_replace_cons by assumption.
  assert (H0 : strip_prefix old ((c :: b) ++ s) = None)
    by (apply (H [] (c :: b)); [reflexivity | discriminate]).
  simpl in H0. rewrite H0.
  f_equal. apply IH. intros a' b' -> Hb'.
  now apply (H (c :: a') b').
Qed.

Lemma str_replace_miss (old new T s : text) :
  bracketed old -> bracketed T -> T <> old ->
  str_replace old new (T ++ s) = T ++ str_replace old new s.
Proof.
  intros Hold HT Hne. apply str_replace_copy.
  - now apply bracketed_nonempty.
  - intros a' b' E Hb'. destruct a' as [|a1 a'].
    + simpl in E. subst b'. apply strip_prefix_None. intros rest E.
      destruct (bracketed_unique _ _ _ _ HT Hold E) as [E' _]. contradiction.
    + apply bracketed_strip_None; [assumption|].
      apply (bstart_inside _ _ _ s HT E); [discriminate | assumption].
Qed.

Lemma str_replace_char (old new : text) (c : char) (s : text) :
  bracketed old -> bstart (c :: s) = false ->
  str_replace old new (c :: s) = c :: str_replace old new s.
Proof.
  intros Hold Hs. rewrite str_replace_cons by now apply bracketed_nonempty.
  now rewrite bracketed_strip_None.
Qed.

(** ** [tmap]: inversion, determinism, composition *)

Lemma tmap_inv_nil (F : text -> text) (out : text) : tmap F [] out -> out = [].
Proof.
  intro H. inversion H as [|w s s' Hw _ E|]; [reflexivity|].
  apply app_eq_nil in E as [-> _]. now apply bracketed_nonempty in Hw.
Qed.

Lemma tmap_inv_token {F : text -> text} {v t out : text} :
  bracketed v -> tmap F (v ++ t) out ->
  exists t', out = F v ++ t' /\ tmap F t t'.
Proof.
  intros Hv H. inversion H as [E|w s s' Hw Hs E|c s s' Hc Hs E].
  - symmetry in E. apply app_eq_nil in E as [-> _].
    now apply bracketed_nonempty in Hv.
  - destruct (bracketed_unique _ _ _ _ Hw Hv E) as [-> ->]. now exists s'.
  - rewrite E, bracketed_bstart in Hc by assumption. discriminate.
Qed.

Lemma tmap_inv_char {F : text -> text} {c : char} {t out : text} :
  bstart (c :: t) = false -> tmap F (c :: t) out ->
  exists t', out = c :: t' /\ tmap F t t'.
Proof.
  intros Hc H. inversion H as [|w s s' Hw Hs E|c' s s' _ Hs].
  - rewrite <- E, bracketed_bstart in Hc by assumption. discriminate.
  - subst. now exists s'.
Qed.

Lemma tmap_deterministic (F : text -> text) (s a b : text) :
  tmap F s a -> tmap F s b -> a = b.
Proof.
  intro Ha. revert b. induction Ha as [|w s s' Hw _ IH|c s s' Hc _ IH]; intros b Hb.
  - now apply tmap_inv_nil in Hb.
  - destruct (tmap_inv_token Hw Hb) as (t' & -> & Ht'). f_equal. now apply IH.
  - destruct (tmap_inv_char Hc Hb) as (t' & -> & Ht'). f_equal. now apply IH.
Qed.

Lemma tmap_ext (F G : text -> text) (s s' : text) :
  (forall w, bracketed w -> F w = G w) -> tmap F s s' -> tmap G s s'.
Proof.
  intro HFG. induction 1 as [|w s s' Hw _ IH|c s s' Hc _ IH].
  - constructor.
  - rewrite HFG by assumption. now constructor.
  - now constructor.
Qed.

Lemma swap_same_eqb (old new w : text) :
  text_eqb w old = true -> swap old new w = new.
Proof. unfold swap. now intros ->. Qed.

Lemma swap_other_eqb (old new w : text) :
  text_eqb w old = false -> swap old new w = w.
Proof. unfold swap. now intros ->. Qed.

(** One pass is a [tmap]: every text has an image, read left to right. *)
Lemma tmap_replace (old new s : text) :
  bracketed old -> tmap (swap old new) s (str_replace old new s).
Proof.
  intro Hold.
  assert (Hne : old <> []) by now apply bracketed_nonempty.
  remember (length s) as n eqn:Hn.
  revert s Hn. induction n as [n IH] using lt_wf_ind. intros s Hn.
  destruct s as [|c s].
  - rewrite str_replace_nil by assumption. constructor.
  - destruct (bstart (c :: s)) eqn:Hb.
    + destruct (bstart_split _ Hb) as (w & rest & Hw & E). rewrite E.
      assert (Hlen : length rest < n).
      { subst n. rewrite E, length_app.
        destruct w; [now apply bracketed_nonempty in Hw | simpl; lia]. }
      pose proof (IH _ Hlen rest eq_refl) as Hrest.
      pose proof (tmap_token (swap old new) w rest _ Hw Hrest) as Ht.
      destruct (text_eqb w old) eqn:Ew.
      * rewrite swap_same_eqb in Ht by assumption.
        apply text_eqb_eq in Ew. subst w.
        now rewrite str_replace_hit.
      * rewrite swap_other_eqb in Ht by assumption.
        apply text_eqb_neq in Ew.
        now rewrite str_replace_miss.
    + rewrite str_replace_char by assumption.
      constructor; [assumption|].
      apply (IH (length s)); [subst n; simpl; lia | reflexivity].
Qed.

Lemma closes_bracketed (w s : text) : bracketed w -> closes (w ++ s) = false.
Proof. intros [body [-> _]]. reflexivity. Qed.

Lemma bracketed_head (w s : text) :
  bracketed w -> exists x, w ++ s = 117%N :: x.
Proof. intros [body [-> _]]. now eexists. Qed.

(** A test that first reads some characters other than [u] and then asks
    what [tmap] does not change, is not changed by [tmap]. *)
Lemma after_prefix_tmap (g : text -> bool) (F : text -> text) (pat s s' : text) :
  (forall w, bracketed w -> bracketed (F w)) ->
  (forall t t', tmap F t t' -> g t' = g t) ->
  ~ In 117%N pat ->
  tmap F s s' ->
  match strip_prefix pat s' with Some y => g y | None => false end =
  match strip_prefix pat s with Some y => g y | None => false end.
Proof.
  intros HF Hg. revert s s'. induction pat as [|a pat IH]; intros s s' Hpat H.
  - simpl. now apply Hg.
  - destruct H as [|w s s' Hw H|c s s' Hc H].
    + reflexivity.
    + destruct (bracketed_head _ s Hw) as [x ->].
      destruct (bracketed_head _ s' (HF _ Hw)) as [x' ->].
      simpl. destruct (N.eqb_spec a 117) as [->|_]; [|reflexivity].
      exfalso. apply Hpat. now left.
    + simpl. destruct (a =? c)%N; [|reflexivity].
      apply IH; [|assumption]. intro Hin. apply Hpat. now right.
Qed.

Lemma not_u_rl_open : ~ In 117%N [114; 108; 40]%N.
Proof. simpl. intros [E|[E|[E|[]]]]; discriminate. Qed.

(** [tmap] creates no [url(] at a character it keeps. *)
Lemma url_open_tmap (F : text -> text) (c : char) (s s' : text) :
  (forall w, bracketed w -> bracketed (F w)) ->
  tmap F s s' ->
  match strip_prefix (str "url(") (c :: s') with Some _ => true | None => false end =
  match strip_prefix (str "url(") (c :: s) with Some _ => true | None => false end.
Proof.
  intros HF H. change (str "url(") with [117; 114; 108; 40]%N.
  cbn [strip_prefix]. destruct (117 =? c)%N; [|reflexivity].
  apply (after_prefix_tmap (fun _ => true) F [114; 108; 40]%N _ _ HF);
    [reflexivity | exact not_u_rl_open | assumption].
Qed.

Lemma closes_tmap (F : text -> text) (s s' : text) :
  (forall w, bracketed w -> bracketed (F w)) ->
  tmap F s s' -> closes s' = closes s.
Proof.
  intro HF. induction 1 as [|w s s' Hw _ IH|c s s' Hc H IH].
  - reflexivity.
  - now rewrite !closes_bracketed by auto.
  - pose proof (url_open_tmap F c s s' HF H) as E.
    cbn [closes]. destruct (c =? ch_rparen)%N; [reflexivity|].
    destruct (strip_prefix (str "url(") (c :: s')),
             (strip_prefix (str "url(") (c :: s));
      try discriminate E; [reflexivity | exact IH].
Qed.

(** [tmap] creates no start of a bracketed text. *)
Lemma bstart_tmap (F : text -> text) (c : char) (s s' : text) :
  (forall w, bracketed w -> bracketed (F w)) ->
  tmap F s s' -> bstart (c :: s') = bstart (c :: s).
Proof.
  intros HF H. unfold bstart.
  change (str "url(") with [117; 114; 108; 40]%N.
  cbn [strip_prefix app].
  destruct (117 =? c)%N; [|reflexivity].
  apply (after_prefix_tmap closes F [114; 108; 40]%N _ _ HF);
    [intros t t'; now apply closes_tmap | exact not_u_rl_open | assumption].
Qed.

Lemma tmap_compose (F G : text -> text) (s s' s'' : text) :
  (forall w, bracketed w -> bracketed (F w)) ->
  tmap F s s' -> tmap G s' s'' -> tmap (fun w => G (F w)) s s''.
Proof.
  intros HF H. revert s''.
  induction H as [|w s s' Hw H IH|c s s' Hc H IH]; intros s'' HG.
  - apply tmap_inv_nil in HG. subst. constructor.
  - destruct (tmap_inv_token (HF _ Hw) HG) as (t' & -> & Ht').
    apply (tmap_token (fun w => G (F w))); auto.
  - assert (Hc' : bstart (c :: s') = false)
      by now rewrite (bstart_tmap F c s s' HF H).
    destruct (tmap_inv_char Hc' HG) as (t' & -> & Ht').
    constructor; auto.
Qed.

(** A bracketed text that follows does not change whether a bracketed text
    starts earlier. *)
Lemma after_prefix_before_token (g : text -> bool) (pat x T y : text) :
  bracketed T ->
  (forall t, g (t ++ T ++ y) = g t) ->
  ~ In 117%N pat ->
  match strip_prefix pat (x ++ T ++ y) with Some z => g z | None => false end =
  match strip_prefix pat x with Some z => g z | None => false end.
Proof.
  intros HT Hg. revert x. induction pat as [|a pat IH]; intros x Hpat.
  - simpl. apply Hg.
  - destruct x as [|c x].
    + simpl. destruct (bracketed_head _ y HT) as [z ->].
      destruct (N.eqb_spec a 117) as [->|_]; [|reflexivity].
      exfalso. apply Hpat. now left.
    + simpl. destruct (a =? c)%N; [|reflexivity].
      apply IH. intro Hin. apply Hpat. now right.
Qed.

Lemma url_open_before_token (c : char) (x T y : text) :
  bracketed T ->
  match strip_prefix (str "url(") (c :: x ++ T ++ y) with
  | Some _ => true | None => false end =
  match strip_prefix (str "url(") (c :: x) with
  | Some _ => true | None => false end.
Proof.
  intro HT. change (str "url(") with [117; 114; 108; 40]%N.
  cbn [strip_prefix]. destruct (117 =? c)%N; [|reflexivity].
  apply (after_prefix_before_token (fun _ => true) [114; 108; 40]%N x T y HT);
    [reflexivity | exact not_u_rl_open].
Qed.

Lemma closes_before_token (x T y : text) :
  bracketed T -> closes (x ++ T ++ y) = closes x.
Proof.
  intro HT. induction x as [|c x IH].
  - simpl. now apply closes_bracketed.
  - pose proof (url_open_before_token c x T y HT) as E.
    cbn [app closes]. destruct (c =? ch_rparen)%N; [reflexivity|].
    destruct (strip_prefix (str "url(") (c :: x ++ T ++ y)),
             (strip_prefix (str "url(") (c :: x));
      try discriminate E; [reflexivity | exact IH].
Qed.

Lemma bstart_before_token (c : char) (x T y : text) :
  bracketed T -> bstart (c :: x ++ T ++ y) = bstart (c :: x).
Proof.
  intro HT. unfold bstart.
  change (str "url(") with [117; 114; 108; 40]%N.
  cbn [strip_prefix app].
  destruct (117 =? c)%N; [|reflexivity].
  apply (after_prefix_before_token closes [114; 108; 40]%N x T y HT);
    [intro t; now apply closes_before_token | exact not_u_rl_open].
Qed.

(** [tmap] works on the text before a bracketed text, on that text and on
    the text after it independently. *)
Lemma tmap_app_token (F : text -> text) (pre pre' T post post' : text) :
  bracketed T -> tmap F pre pre' -> tmap F post post' ->
  tmap F (pre ++ T ++ post) (pre' ++ F T ++ post').
Proof.
  intros HT Hpre Hpost.
  induction Hpre as [|w s s' Hw _ IH|c s s' Hc _ IH]; simpl.
  - now constructor.
  - rewrite <- !app_assoc. now constructor.
  - constructor; [|assumption].
    now rewrite bstart_before_token.
Qed.

Lemma tmap_id (s : text) : tmap (fun w => w) s s.
Proof.
  remember (length s) as n eqn:Hn.
  revert s Hn. induction n as [n IH] using lt_wf_ind. intros s Hn.
  destruct s as [|c s]; [constructor|].
  destruct (bstart (c :: s)) eqn:Hb.
  - destruct (bstart_split _ Hb) as (w & rest & Hw & E). rewrite E.
    apply (tmap_token (fun w => w)); [assumption|].
    apply (IH (length rest)); [|reflexivity].
    subst n. rewrite E, length_app.
    destruct w; [now apply bracketed_nonempty in Hw | simpl; lia].
  - constructor; [assumption|].
    apply (IH (length s)); [subst n; simpl; lia | reflexivity].
Qed.

(** ** The passes of [apply_replacements] as one [tmap] *)

Lemma swap_bracketed (old new w : text) :
  bracketed new -> bracketed w -> bracketed (swap old new w).
Proof. intros Hn Hw. unfold swap. now destruct (text_eqb w old). Qed.

Lemma swap_variants_bracketed (p u w : text) :
  plain u -> bracketed w -> bracketed (swap_variants p u w).
Proof.
  intros Hu Hw. unfold swap_variants.
  apply swap_bracketed; [apply (bracketed_form SingleQuoted); assumption|].
  apply swap_bracketed; [apply (bracketed_form DoubleQuoted); assumption|].
  apply swap_bracketed; [apply (bracketed_form Unquoted); assumption|].
  assumption.
Qed.

Lemma tmap_replace_variants (p u s : text) :
  plain p -> plain u ->
  tmap (swap_variants p u) s (replace_variants p u s).
Proof.
  intros Hp Hu. unfold replace_variants, swap_variants.
  pose proof (bracketed_form Unquoted _ Hu) as Bu.
  pose proof (bracketed_form DoubleQuoted _ Hu) as Bd.
  set (F1 := swap (url_plain p) (url_plain u)).
  set (F2 := swap (url_dquoted p) (url_dquoted u)).
  set (F3 := swap (url_squoted p) (url_squoted u)).
  apply (tmap_compose (fun w => F2 (F1 w)) F3) with
    (s' := str_replace (url_dquoted p) (url_dquoted u)
             (str_replace (url_plain p) (url_plain u) s)).
  - intros w Hw. subst F1 F2. now repeat apply swap_bracketed.
  - apply (tmap_compose F1 F2) with
      (s' := str_replace (url_plain p) (url_plain u) s).
    + intros w Hw. subst F1. now apply swap_bracketed.
    + apply tmap_replace. exact (bracketed_form Unquoted _ Hp).
    + apply tmap_replace. exact (bracketed_form DoubleQuoted _ Hp).
  - apply tmap_replace. exact (bracketed_form SingleQuoted _ Hp).
Qed.

Lemma tmap_apply_replacements (m : dict) (s : text) :
  plain_entries m -> tmap (token_image m) s (apply_replacements m s).
Proof.
  intro Hm. revert s. induction Hm as [|[p u] m [Hp Hu] Hm IH]; intro s.
  - apply tmap_id.
  - simpl in Hp, Hu.
    change (apply_replacements ((p, u) :: m) s)
      with (apply_replacements m (replace_variants p u s)).
    apply (tmap_compose (swap_variants p u) (token_image m))
      with (s' := replace_variants p u s).
    + intros w Hw. now apply swap_variants_bracketed.
    + now apply tmap_replace_variants.
    + apply IH.
Qed.

(** ** The image of one token *)

Lemma plain_not_quoted (y z : text) (c : char) :
  plain y -> c = ch_dquote \/ c = ch_squote -> y ++ [ch_rparen] <> c :: z.
Proof.
  intros [Hy _] Hc E. destruct Hy as [|d y (_ & Hd & Hs) _].
  - injection E as <-. destruct Hc; discriminate.
  - injection E as -> _. destruct Hc as [->| ->]; contradiction.
Qed.

Lemma url_form_inj (k k' : quoting) (x x' : text) :
  plain x -> plain x' -> url_form k x = url_form k' x' -> k = k' /\ x = x'.
Proof.
  intros Hx Hx' E.
  destruct k, k'; simpl in E;
    rewrite ?url_plain_chars, ?url_dquoted_chars, ?url_squoted_chars in E;
    do 4 (apply (f_equal (@tl char)) in E; cbn [tl] in E).
  - apply app_inv_tail in E. now split.
  - exfalso. exact (plain_not_quoted x _ ch_dquote Hx (or_introl eq_refl) E).
  - exfalso. exact (plain_not_quoted x _ ch_squote Hx (or_intror eq_refl) E).
  - exfalso. symmetry in E.
    exact (plain_not_quoted x' _ ch_dquote Hx' (or_introl eq_refl) E).
  - injection E as E. apply app_inv_tail in E. now split.
  - discriminate E.
  - exfalso. symmetry in E.
    exact (plain_not_quoted x' _ ch_squote Hx' (or_intror eq_refl) E).
  - discriminate E.
  - injection E as E. apply app_inv_tail in E. now split.
Qed.

Lemma form_eqb_false (k k' : quoting) (x x' : text) :
  plain x -> plain x' -> k <> k' \/ x <> x' ->
  text_eqb (url_form k x) (url_form k' x') = false.
Proof.
  intros Hx Hx' Hne. apply text_eqb_neq. intro E.
  destruct (url_form_inj _ _ _ _ Hx Hx' E) as [-> ->].
  destruct Hne; contradiction.
Qed.

Lemma swap_variants_form (p u : text) (k : quoting) :
  plain p -> plain u -> swap_variants p u (url_form k p) = url_form k u.
Proof.
  intros Hp Hu. unfold swap_variants, swap.
  change (url_plain p) with (url_form Unquoted p).
  change (url_dquoted p) with (url_form DoubleQuoted p).
  change (url_squoted p) with (url_form SingleQuoted p).
  change (url_plain u) with (url_form Unquoted u).
  change (url_dquoted u) with (url_form DoubleQuoted u).
  change (url_squoted u) with (url_form SingleQuoted u).
  destruct k;
    repeat first
      [ rewrite text_eqb_refl
      | rewrite form_eqb_false by (assumption || (left; discriminate)) ];
    reflexivity.
Qed.

Lemma swap_variants_other (p u w : text) :
  (forall k, w <> url_form k p) -> swap_variants p u w = w.
Proof.
  intro H. unfold swap_variants, swap.
  pose proof (H Unquoted) as H1. pose proof (H DoubleQuoted) as H2.
  pose proof (H SingleQuoted) as H3. simpl in H1, H2, H3.
  apply text_eqb_neq in H1, H2, H3. now rewrite H1, H2, H3.
Qed.

Lemma token_image_fixed (m : dict) (w : text) :
  (forall e k, In e m -> w <> url_form k (fst e)) -> token_image m w = w.
Proof.
  induction m as [|[p u] m IH]; intro H; [reflexivity|].
  change (token_image ((p, u) :: m) w) with (token_image m (swap_variants p u w)).
  rewrite swap_variants_other.
  - apply IH. intros e k He. apply H. now right.
  - intro k. apply (H (p, u) k). now left.
Qed.

Lemma plain_mapping_tail (e : text * text) (m : dict) :
  plain_mapping (e :: m) -> plain_mapping m.
Proof.
  intros [He Hd]. split.
  - now inversion He.
  - intros a b Ha Hb. apply Hd; now right.
Qed.

Lemma plain_mapping_perm (m m' : dict) :
  Permutation m m' -> plain_mapping m -> plain_mapping m'.
Proof.
  intros Hp [He Hd]. split.
  - unfold plain_entries. now rewrite <- Hp.
  - intros a b Ha Hb.
    apply Hd; (eapply Permutation_in; [apply Permutation_sym; exact Hp | assumption]).
Qed.

Lemma plain_entries_In (m : dict) (e : text * text) :
  plain_entries m -> In e m -> plain (fst e) /\ plain (snd e).
Proof. intros Hm He. unfold plain_entries in Hm. rewrite Forall_forall in Hm. auto. Qed.

(** A form of a plain path is replaced by the same form of its data URI
    when the path is mapped, and is kept otherwise. *)
Lemma token_image_form (m : dict) (k : quoting) (p : text) :
  plain_mapping m -> plain p ->
  token_image m (url_form k p) =
  match dict_get p m with
  | Some u => url_form k u
  | None => url_form k p
  end.
Proof.
  intros Hm Hp. induction m as [|[p1 u1] m IH]; [reflexivity|].
  change (token_image ((p1, u1) :: m) (url_form k p))
    with (token_image m (swap_variants p1 u1 (url_form k p))).
  destruct (plain_entries_In _ (p1, u1) (proj1 Hm) (or_introl eq_refl)) as [Hp1 Hu1].
  simpl in Hp1, Hu1. simpl. destruct (text_eqb p1 p) eqn:E.
  - apply text_eqb_eq in E. subst p1.
    rewrite swap_variants_form by assumption.
    apply token_image_fixed. intros e k' He E.
    destruct (plain_entries_In _ e (proj1 Hm) (or_intror He)) as [Hk _].
    apply url_form_inj in E as [_ E]; [|assumption|assumption].
    apply (proj2 Hm (p, u1) e); [now left | now right | exact E].
  - apply text_eqb_neq in E.
    rewrite swap_variants_other.
    + apply IH. now apply plain_mapping_tail in Hm.
    + intros k' E'. apply url_form_inj in E' as [_ E']; [|assumption|assumption].
      congruence.
Qed.

Lemma token_image_cases (m : dict) (w : text) :
  (exists k p, In p (map fst m) /\ w = url_form k p)
  \/ (forall e k, In e m -> w <> url_form k (fst e)).
Proof.
  induction m as [|[p u] m IH].
  - right. intros e k [].
  - destruct (text_eqb w (url_form Unquoted p)) eqn:E1;
      [apply text_eqb_eq in E1; left; exists Unquoted, p; split; [now left | assumption]|].
    destruct (text_eqb w (url_form DoubleQuoted p)) eqn:E2;
      [apply text_eqb_eq in E2; left; exists DoubleQuoted, p; split; [now left | assumption]|].
    destruct (text_eqb w (url_form SingleQuoted p)) eqn:E3;
      [apply text_eqb_eq in E3; left; exists SingleQuoted, p; split; [now left | assumption]|].
    apply text_eqb_neq in E1, E2, E3.
    destruct IH as [(k & q & Hq & ->)|IH].
    + left. exists k, q. split; [now right | reflexivity].
    + right. intros e k [<-|He]; [destruct k; assumption | now apply IH].
Qed.

(** ** The dict *)

Lemma dict_get_In (p u : text) (m : dict) : dict_get p m = Some u -> In (p, u) m.
Proof.
  induction m as [|[p1 u1] m IH]; simpl; [discriminate|].
  destruct (text_eqb p1 p) eqn:E.
  - apply text_eqb_eq in E. intros [= ->]. left. now subst.
  - intro H. right. now apply IH.
Qed.

Lemma dict_get_None (p : text) (m : dict) :
  dict_get p m = None <-> ~ In p (map fst m).
Proof.
  induction m as [|[p1 u1] m IH]; simpl.
  - split; [intros _ [] | reflexivity].
  - destruct (text_eqb p1 p) eqn:E.
    + apply text_eqb_eq in E. split; [discriminate | intro H; exfalso; apply H; now left].
    + apply text_eqb_neq in E. rewrite IH. split.
      * intros H [H1|H1]; contradiction.
      * intros H H1. apply H. now right.
Qed.

Lemma dict_get_key (p : text) (m : dict) :
  In p (map fst m) -> exists u, dict_get p m = Some u.
Proof.
  intro H. destruct (dict_get p m) as [u|] eqn:E; [now exists u|].
  apply dict_get_None in E. contradiction.
Qed.

Lemma dict_get_unique (p u : text) (m : dict) :
  NoDup (map fst m) -> In (p, u) m -> dict_get p m = Some u.
Proof.
  induction m as [|[p1 u1] m IH]; simpl; intros Hnd Hin; [contradiction|].
  inversion Hnd as [|? ? Hp1 Hnd']; subst.
  destruct Hin as [[= -> ->]|Hin].
  - now rewrite text_eqb_refl.
  - destruct (text_eqb p1 p) eqn:E.
    + apply text_eqb_eq in E. subst p1. exfalso. apply Hp1.
      apply in_map_iff. now exists (p, u).
    + now apply IH.
Qed.

Lemma dict_get_perm (p : text) (m m' : dict) :
  NoDup (map fst m) -> Permutation m m' -> dict_get p m = dict_get p m'.
Proof.
  intros Hnd Hp.
  assert (Hnd' : NoDup (map fst m'))
    by (eapply Permutation_NoDup; [apply Permutation_map; exact Hp | exact Hnd]).
  destruct (dict_get p m) as [u|] eqn:E.
  - apply dict_get_In in E. symmetry. apply dict_get_unique; [assumption|].
    eapply Permutation_in; eauto.
  - symmetry. apply dict_get_None. apply dict_get_None in E.
    intro H. apply E. eapply Permutation_in; [|exact H].
    apply Permutation_map. now apply Permutation_sym.
Qed.

Lemma frame_rel_app_same (m : dict) (w s s' : text) :
  frame_rel m s s' -> frame_rel m (w ++ s) (w ++ s').
Proof. intro H. induction w; simpl; [assumption | now constructor]. Qed.

(** ** The pattern and its matches *)

Lemma url_pattern_atoms :
  url_pattern =
  [Lit 117; Lit 114; Lit 108; Lit 40; Opt quote_cls; GroupOpen;
   Lit 102; Lit 111; Lit 110; Lit 116; Lit 115; Lit 47;
   Plus path_cls; GroupClose; Opt quote_cls; Lit 41]%N.
Proof. reflexivity. Qed.

Lemma in_path_cls (c : char) : in_cls path_cls c = true <-> path_char c.
Proof.
  unfold path_char, path_cls, in_cls, ch_rparen, ch_dquote, ch_squote. simpl.
  destruct (N.eqb_spec c 41), (N.eqb_spec c 34), (N.eqb_spec c 39); simpl;
    split; intro H; try discriminate; try reflexivity;
    try (destruct H as (H1 & H2 & H3); contradiction); now repeat split.
Qed.

Lemma in_quote_cls (c : char) :
  in_cls quote_cls c = true <-> c = ch_dquote \/ c = ch_squote.
Proof.
  unfold quote_cls, in_cls, ch_dquote, ch_squote. simpl.
  destruct (N.eqb_spec c 34), (N.eqb_spec c 39); simpl;
    split; intro H; try discriminate; try reflexivity; auto.
  destruct H; contradiction.
Qed.

Lemma re_match_lit (c : char) (p : regex) (open : bool) (cap s : text) :
  re_match (Lit c :: p) open cap (c :: s) = re_match p open (push open cap c) s.
Proof. simpl. now rewrite N.eqb_refl. Qed.

Lemma re_match_lit_inv (c : char) (p : regex) (open : bool) (cap s : text)
    (res : text * text) :
  re_match (Lit c :: p) open cap s = Some res ->
  exists s', s = c :: s' /\ re_match p open (push open cap c) s' = Some res.
Proof.
  simpl. destruct s as [|x s]; [discriminate|].
  destruct (N.eqb_spec x c) as [->|]; [|discriminate].
  intro H. now exists s.
Qed.

Lemma re_match_opt_inv (k : cls) (p : regex) (open : bool) (cap s : text)
    (res : text * text) :
  re_match (Opt k :: p) open cap s = Some res ->
  (exists x s', s = x :: s' /\ in_cls k x = true
                /\ re_match p open (push open cap x) s' = Some res)
  \/ re_match p open cap s = Some res.
Proof.
  simpl. destruct s as [|x s]; [now right|].
  destruct (in_cls k x) eqn:E; [|now right].
  destruct (re_match p open (push open cap x) s) as [r|] eqn:E'; [|now right].
  intros [= <-]. left. now exists x, s.
Qed.

(** The greedy loop takes the whole run when the rest of the pattern
    matches after it. *)
Lemma plus_loop_run (k : cls) (kont : text -> text -> option (text * text))
    (r tail cap : text) (res : text * text) :
  r <> [] -> Forall (fun c => in_cls k c = true) r ->
  match tail with [] => True | x :: _ => in_cls k x = false end ->
  kont (cap ++ r) tail = Some res ->
  plus_loop k true kont cap (r ++ tail) = Some res.
Proof.
  intros Hne Hr Htail. revert cap.
  induction Hr as [|c r Hc Hr IH]; [contradiction|]. intros cap Hk.
  simpl. rewrite Hc. destruct r as [|c2 r].
  - simpl. simpl in Hk.
    destruct tail as [|x tail]; simpl; [exact Hk|].
    now rewrite Htail.
  - rewrite IH; [reflexivity | discriminate |].
    now rewrite <- app_assoc.
Qed.

Lemma plus_loop_inv (k : cls) (kont : text -> text -> option (text * text))
    (s cap : text) (res : text * text) :
  plus_loop k true kont cap s = Some res ->
  exists r tail, s = r ++ tail /\ r <> []
                 /\ Forall (fun c => in_cls k c = true) r
                 /\ kont (cap ++ r) tail = Some res.
Proof.
  revert cap. induction s as [|c s IH]; intros cap; simpl; [discriminate|].
  destruct (in_cls k c) eqn:Hc; [|discriminate].
  destruct (plus_loop k true kont (cap ++ [c]) s) as [r0|] eqn:E.
  - intros [= <-]. destruct (IH _ E) as (r & tail & -> & _ & Hr & Hk).
    exists (c :: r), tail. repeat split.
    + discriminate.
    + now constructor.
    + now rewrite <- app_assoc in Hk.
  - intro Hk. exists [c], s. repeat split.
    + discriminate.
    + now repeat constructor.
    + exact Hk.
Qed.

(** The end of the pattern: the group closes, an optional quote, [)]. *)
Lemma tail_match (cap q2 rest : text) :
  quote_opt q2 ->
  re_match [GroupClose; Opt quote_cls; Lit 41%N] true cap (q2 ++ 41%N :: rest)
  = Some (cap, rest).
Proof. intros [->|[->| ->]]; reflexivity. Qed.

Lemma tail_match_inv (cap s : text) (res : text * text) :
  re_match [GroupClose; Opt quote_cls; Lit 41%N] true cap s = Some res ->
  exists q2 rest, quote_opt q2 /\ s = q2 ++ 41%N :: rest /\ res = (cap, rest).
Proof.
  intro H. change (re_match [Opt quote_cls; Lit 41%N] false cap s = Some res) in H.
  apply re_match_opt_inv in H as [(x & s' & -> & Hx & H)|H];
    apply re_match_lit_inv in H as (s'' & -> & H); simpl in H;
    injection H as <-.
  - apply in_quote_cls in Hx. exists [x], s''. split; [|now split].
    destruct Hx as [->| ->]; [right; now left | right; now right].
  - exists [], s''. split; [now left | now split].
Qed.

Lemma url_token_chars (q1 p q2 rest : text) :
  url_token q1 p q2 ++ rest
  = (117 :: 114 :: 108 :: 40 :: q1 ++ p ++ q2 ++ 41 :: rest)%N.
Proof.
  unfold url_token. rewrite <- !app_assoc. reflexivity.
Qed.

Lemma re_match_opt_skip (k : cls) (p : regex) (open : bool) (cap : text)
    (x : char) (s : text) :
  in_cls k x = false ->
  re_match (Opt k :: p) open cap (x :: s) = re_match p open cap (x :: s).
Proof. intro H. simpl. now rewrite H. Qed.

Lemma re_match_opt_take (k : cls) (p : regex) (open : bool) (cap : text)
    (x : char) (s : text) (res : text * text) :
  in_cls k x = true ->
  re_match p open (push open cap x) s = Some res ->
  re_match (Opt k :: p) open cap (x :: s) = Some res.
Proof. intros H E. simpl. now rewrite H, E. Qed.

(** The matcher accepts every token, with the path as its group. *)
Lemma re_match_token (q1 p q2 rest : text) :
  quote_opt q1 -> quote_opt q2 -> font_path p ->
  re_match url_pattern false [] (url_token q1 p q2 ++ rest) = Some (p, rest).
Proof.
  intros Hq1 Hq2 (r & -> & Hne & Hr).
  rewrite url_token_chars, url_pattern_atoms.
  rewrite !re_match_lit. cbn [push].
  change (str "fonts/" ++ r) with (102 :: 111 :: 110 :: 116 :: 115 :: 47 :: r)%N.
  set (tail := [GroupClose; Opt quote_cls; Lit 41%N]).
  assert (G : forall cap,
             re_match (GroupOpen :: Lit 102 :: Lit 111 :: Lit 110 :: Lit 116
                         :: Lit 115 :: Lit 47 :: Plus path_cls :: tail)%N
               false cap
               (102 :: 111 :: 110 :: 116 :: 115 :: 47 :: r ++ q2 ++ 41 :: rest)%N
             = Some ((102 :: 111 :: 110 :: 116 :: 115 :: 47 :: r)%N, rest)).
  { intro cap.
    change (re_match (GroupOpen :: ?p) false cap ?s) with (re_match p true [] s).
    rewrite !re_match_lit. cbn [push app].
    change (re_match (Plus path_cls :: tail) true ?c ?s)
      with (plus_loop path_cls true (re_match tail true) c s).
    apply plus_loop_run.
    - assumption.
    - apply Forall_impl with (2 := Hr). intros c Hc. now apply in_path_cls.
    - destruct Hq2 as [->|[->| ->]]; reflexivity.
    - now apply tail_match. }
  destruct Hq1 as [->|[->| ->]]; cbn [app].
  - rewrite re_match_opt_skip by reflexivity. apply G.
  - apply re_match_opt_take; [reflexivity | apply G].
  - apply re_match_opt_take; [reflexivity | apply G].
Qed.

Lemma group_match_inv (cap s : text) (res : text * text) :
  re_match [GroupOpen; Lit 102; Lit 111; Lit 110; Lit 116; Lit 115; Lit 47;
            Plus path_cls; GroupClose; Opt quote_cls; Lit 41]%N false cap s
  = Some res ->
  exists r q2 rest,
    s = (102 :: 111 :: 110 :: 116 :: 115 :: 47 :: r ++ q2 ++ 41 :: rest)%N
    /\ r <> [] /\ Forall path_char r /\ quote_opt q2
    /\ res = ((102 :: 111 :: 110 :: 116 :: 115 :: 47 :: r)%N, rest).
Proof.
  intro H.
  change (re_match (GroupOpen :: ?p) false cap ?s) with (re_match p true [] s) in H.
  do 6 (apply re_match_lit_inv in H as (? & -> & H); cbn [push app] in H).
  change (re_match (Plus path_cls :: ?t) true ?c ?s)
    with (plus_loop path_cls true (re_match t true) c s) in H.
  apply plus_loop_inv in H as (r & tail & -> & Hne & Hr & H).
  apply tail_match_inv in H as (q2 & rest & Hq2 & -> & ->).
  exists r, q2, rest. repeat split; try assumption.
  apply Forall_impl with (2 := Hr). intros c Hc. now apply in_path_cls.
Qed.

(** What the matcher accepts is a token, and its group is the path. *)
Lemma re_match_inv (s g rest : text) :
  re_match url_pattern false [] s = Some (g, rest) ->
  exists q1 q2,
    quote_opt q1 /\ quote_opt q2 /\ font_path g /\ s = url_token q1 g q2 ++ rest.
Proof.
  rewrite url_pattern_atoms. intro H.
  do 4 (apply re_match_lit_inv in H as (? & -> & H); cbn [push] in H).
  apply re_match_opt_inv in H as [(x & s' & -> & Hx & H)|H]; cbn [push] in H;
    apply group_match_inv in H as (r & q2 & rest' & -> & Hne & Hr & Hq2 & E);
    injection E as -> ->.
  - apply in_quote_cls in Hx. exists [x], q2. repeat split.
    + destruct Hx as [->| ->]; [right; now left | right; now right].
    + assumption.
    + now exists r.
    + now rewrite url_token_chars.
  - exists [], q2. repeat split.
    + now left.
    + assumption.
    + now exists r.
    + now rewrite url_token_chars.
Qed.

Lemma url_token_length (q1 p q2 rest : text) :
  length rest < length (url_token q1 p q2 ++ rest).
Proof. rewrite url_token_chars. simpl. rewrite !length_app. simpl. lia. Qed.

(** ** [findall]: the matches are the tokens, read left to right *)

Lemma findall_from_scan (n : nat) (s : text) :
  length s < n -> scan s (findall_from n url_pattern s).
Proof.
  revert s. induction n as [|n IH]; intros s Hn; [lia|].
  cbn [findall_from].
  destruct (re_match url_pattern false [] s) as [[g rest]|] eqn:E.
  - destruct (re_match_inv _ _ _ E) as (q1 & q2 & Hq1 & Hq2 & Hg & ->).
    pose proof (url_token_length q1 g q2 rest) as Hlen.
    apply Nat.ltb_lt in Hlen as Hlt. rewrite Hlt.
    constructor; try assumption. apply IH. lia.
  - destruct s as [|c s]; [constructor|].
    constructor.
    + intros q1 p q2 rest Hq1 Hq2 Hp E'.
      rewrite E', re_match_token in E by assumption. discriminate.
    + apply IH. simpl in Hn. lia.
Qed.

Lemma findall_scan (s : text) : scan s (findall url_pattern s).
Proof. apply findall_from_scan. lia. Qed.

Lemma scan_nil_inv (l : list text) : scan [] l -> l = [].
Proof.
  intro H. remember [] as s eqn:Es.
  destruct H as [|q1 p q2 rest l _ _ _ _|c s l _ _]; [reflexivity| |discriminate].
  rewrite url_token_chars in Es. discriminate.
Qed.

Lemma scan_token_inv (q1 p q2 rest : text) (l' : list text) :
  quote_opt q1 -> quote_opt q2 -> font_path p ->
  scan (url_token q1 p q2 ++ rest) l' ->
  exists l0, l' = p :: l0 /\ scan rest l0.
Proof.
  intros Hq1 Hq2 Hp H. remember (url_token q1 p q2 ++ rest) as s eqn:Es.
  destruct H as [|q1' p' q2' rest' l0 Hq1' Hq2' Hp' Hs|c s l0 Hno Hs].
  - rewrite url_token_chars in Es. discriminate.
  - pose proof (re_match_token q1 p q2 rest Hq1 Hq2 Hp) as M.
    rewrite <- Es, re_match_token in M by assumption.
    injection M as -> ->. now exists l0.
  - exfalso. exact (Hno q1 p q2 rest Hq1 Hq2 Hp Es).
Qed.

Lemma scan_skip_inv (c : char) (s : text) (l' : list text) :
  (forall q1 p q2 rest,
      quote_opt q1 -> quote_opt q2 -> font_path p ->
      c :: s <> url_token q1 p q2 ++ rest) ->
  scan (c :: s) l' -> scan s l'.
Proof.
  intros Hno H. remember (c :: s) as s0 eqn:Es.
  destruct H as [|q1' p' q2' rest' l0 Hq1' Hq2' Hp' Hs|c' s' l0 _ Hs].
  - discriminate.
  - exfalso. exact (Hno q1' p' q2' rest' Hq1' Hq2' Hp' eq_refl).
  - now injection Es as -> ->.
Qed.

Lemma scan_deterministic (s : text) (l l' : list text) :
  scan s l -> scan s l' -> l = l'.
Proof.
  intro H. revert l'.
  induction H as [|q1 p q2 rest l Hq1 Hq2 Hp _ IH|c s l Hno _ IH]; intros l' H'.
  - symmetry. now apply scan_nil_inv.
  - destruct (scan_token_inv _ _ _ _ _ Hq1 Hq2 Hp H') as (l0 & -> & Hl0).
    f_equal. now apply IH.
  - apply IH. now apply scan_skip_inv with c.
Qed.

(** ** [sorted(set(...))] *)

Lemma text_compare_eq (a b : text) : text_compare a b = Eq <-> a = b.
Proof.
  revert b. induction a as [|x a IH]; intros [|y b]; simpl;
    try (split; (reflexivity || discriminate)).
  destruct (N.compare_spec x y) as [->|Hlt|Hgt].
  - rewrite IH. split; intro H; [now subst | now injection H].
  - split; [discriminate | intros [= -> _]; lia].
  - split; [discriminate | intros [= -> _]; lia].
Qed.

Lemma text_compare_antisym (a b : text) :
  text_compare b a = CompOpp (text_compare a b).
Proof.
  revert b. induction a as [|x a IH]; intros [|y b]; simpl; try reflexivity.
  rewrite (N.compare_antisym x y).
  destruct (x ?= y)%N; simpl; [apply IH | reflexivity | reflexivity].
Qed.

Lemma text_lt_trans (a b c : text) : text_lt a b -> text_lt b c -> text_lt a c.
Proof.
  unfold text_lt. revert b c.
  induction a as [|x a IH]; intros [|y b] [|z c]; simpl; try discriminate;
    try reflexivity.
  destruct (N.compare_spec x y) as [->|Hxy|Hxy]; [| |discriminate].
  - destruct (y ?= z)%N; [apply IH | reflexivity | discriminate].
  - intros _. destruct (N.compare_spec y z) as [->|Hyz|Hyz]; [| |discriminate].
    + intros _. apply N.compare_lt_iff in Hxy. now rewrite Hxy.
    + intros _. assert (H : (x < z)%N) by lia.
      apply N.compare_lt_iff in H. now rewrite H.
Qed.

Lemma text_lt_irrefl (a : text) : ~ text_lt a a.
Proof.
  unfold text_lt. intro H.
  assert (E : text_compare a a = Eq) by now apply text_compare_eq.
  congruence.
Qed.

Lemma insert_sorted_In (x y : text) (l : list text) :
  In y (insert_sorted x l) <-> y = x \/ In y l.
Proof.
  induction l as [|z l IH]; simpl.
  - split; [intros [<-|[]]; now left | intros [->|[]]; now left].
  - destruct (text_compare x z) eqn:E; simpl.
    + apply text_compare_eq in E. subst z. split; [now right|].
      intros [->|H]; [now left | assumption].
    + split; [intros [<-|H]; [now left | now right] | intros [->|H]; [now left | now right]].
    + rewrite IH. split.
      * intros [<-|[->|H]]; [right; now left | now left | right; now right].
      * intros [->|[<-|H]]; [right; now left | now left | right; now right].
Qed.

Lemma insert_sorted_Sorted (x : text) (l : list text) :
  Sorted text_lt l -> Sorted text_lt (insert_sorted x l).
Proof.
  induction 1 as [|z l Hs IH Hd]; simpl.
  - repeat constructor.
  - destruct (text_compare x z) eqn:E.
    + now constructor.
    + constructor; [now constructor | now constructor].
    + constructor; [assumption|].
      assert (Hzx : text_lt z x)
        by (unfold text_lt; rewrite text_compare_antisym, E; reflexivity).
      destruct Hd as [|w l Hzw]; simpl.
      * now constructor.
      * destruct (text_compare x w); now constructor.
Qed.

Lemma sorted_set_In (x : text) (l : list text) :
  In x (sorted_set l) <-> In x l.
Proof.
  induction l as [|y l IH]; simpl; [reflexivity|].
  rewrite insert_sorted_In, IH. split; intros [H|H]; auto.
Qed.

Lemma sorted_set_Sorted (l : list text) : StronglySorted text_lt (sorted_set l).
Proof.
  apply Sorted_StronglySorted.
  - intros a b c. apply text_lt_trans.
  - induction l as [|y l IH]; simpl; [constructor|].
    now apply insert_sorted_Sorted.
Qed.

Lemma sorted_set_NoDup (l : list text) : NoDup (sorted_set l).
Proof.
  pose proof (sorted_set_Sorted l) as H.
  induction H as [|x l' _ IH Hx]; constructor; [|assumption].
  intro Hin. rewrite Forall_forall in Hx.
  exact (text_lt_irrefl x (Hx x Hin)).
Qed.

(** ** Base64 *)

Lemma below_64 (f : N -> bool) :
  forallb f (map N.of_nat (seq 0 64)) = true ->
  forall n, (n < 64)%N -> f n = true.
Proof.
  intros H n Hn. rewrite forallb_forall in H. apply H.
  apply in_map_iff. exists (N.to_nat n). split; [apply N2Nat.id|].
  apply in_seq. lia.
Qed.

(** The alphabet is one-to-one on the 64 digits, within ASCII, and its
    characters are neither the pad nor a parenthesis or a quote. *)
Lemma b64_char_facts (n : N) :
  (n < 64)%N ->
  b64_index (b64_char n) = Some n
  /\ b64_char n <> ch_equals
  /\ (b64_char n < 128)%N
  /\ In (b64_char n) b64_alphabet
  /\ strict_char (b64_char n).
Proof.
  intro Hn.
  pose proof (below_64
    (fun n => match b64_index (b64_char n) with
              | Some m => (m =? n)%N
              | None => false
              end
              && negb (b64_char n =? ch_equals)%N
              && (b64_char n <? 128)%N
              && existsb (N.eqb (b64_char n)) b64_alphabet
              && strict_charb (b64_char n)) eq_refl n Hn) as H.
  cbv beta in H.
  repeat (apply andb_true_iff in H as [H ?]).
  repeat split.
  - destruct (b64_index (b64_char n)) as [m|]; [|discriminate].
    apply N.eqb_eq in H. now subst.
  - intro E. rewrite E in *. discriminate.
  - now apply N.ltb_lt.
  - match goal with H : existsb _ _ = true |- _ =>
      apply existsb_exists in H as (x & Hx & Ex); apply N.eqb_eq in Ex; now subst
    end.
  - match goal with H : strict_charb _ = true |- _ => unfold strict_charb in H;
      apply negb_true_iff in H; intro E; rewrite E in H; discriminate end.
  - match goal with H : strict_charb _ = true |- _ => unfold strict_charb in H;
      apply negb_true_iff in H; intro E; rewrite E in H; discriminate end.
  - match goal with H : strict_charb _ = true |- _ => unfold strict_charb in H;
      apply negb_true_iff in H; intro E; rewrite E in H; discriminate end.
  - match goal with H : strict_charb _ = true |- _ => unfold strict_charb in H;
      apply negb_true_iff in H; intro E; rewrite E in H; discriminate end.
Qed.

Lemma byte_bound (a : byte) : (Byte.to_N a < 256)%N.
Proof. pose proof (Byte.to_N_bounded a). lia. Qed.

Lemma b64_index_char (n : N) : (n < 64)%N -> b64_index (b64_char n) = Some n.
Proof. intro H. now apply b64_char_facts. Qed.

Lemma b64_char_not_pad (n : N) : (n < 64)%N -> (b64_char n =? ch_equals)%N = false.
Proof. intro H. apply N.eqb_neq. now apply b64_char_facts. Qed.

Lemma bytes_of_group3 (a b c : byte) :
  bytes_of_group (Byte.to_N a * 65536 + Byte.to_N b * 256 + Byte.to_N c) 3
  = Some [a; b; c].
Proof.
  pose proof (byte_bound a) as Ba. pose proof (byte_bound b) as Bb.
  pose proof (byte_bound c) as Bc.
  unfold bytes_of_group.
  replace ((Byte.to_N a * 65536 + Byte.to_N b * 256 + Byte.to_N c) / 65536)%N
    with (Byte.to_N a) by (zify; Z.to_euclidean_division_equations; lia).
  replace (((Byte.to_N a * 65536 + Byte.to_N b * 256 + Byte.to_N c) / 256) mod 256)%N
    with (Byte.to_N b) by (zify; Z.to_euclidean_division_equations; lia).
  replace ((Byte.to_N a * 65536 + Byte.to_N b * 256 + Byte.to_N c) mod 256)%N
    with (Byte.to_N c) by (zify; Z.to_euclidean_division_equations; lia).
  now rewrite !Byte.of_to_N.
Qed.

Lemma b64decode_enc3 (a b c : byte) (rest : text) (tail : bytes) :
  b64decode rest = Some tail ->
  b64decode (enc3 a b c ++ rest) = Some (a :: b :: c :: tail).
Proof.
  intro Hrest.
  pose proof (byte_bound a) as Ba. pose proof (byte_bound b) as Bb.
  pose proof (byte_bound c) as Bc.
  unfold enc3. cbv zeta.
  set (n := (Byte.to_N a * 65536 + Byte.to_N b * 256 + Byte.to_N c)%N).
  assert (H1 : (n / 262144 < 64)%N) by (subst n; zify; Z.to_euclidean_division_equations; lia).
  assert (H2 : ((n / 4096) mod 64 < 64)%N) by (apply N.mod_lt; discriminate).
  assert (H3 : ((n / 64) mod 64 < 64)%N) by (apply N.mod_lt; discriminate).
  assert (H4 : (n mod 64 < 64)%N) by (apply N.mod_lt; discriminate).
  cbn [app b64decode].
  rewrite !b64_index_char, b64_char_not_pad, Hrest by assumption.
  replace (n / 262144 * 262144 + (n / 4096) mod 64 * 4096
           + (n / 64) mod 64 * 64 + n mod 64)%N
    with n by (zify; Z.to_euclidean_division_equations; lia).
  subst n. now rewrite bytes_of_group3.
Qed.

Lemma b64decode_enc2 (a b : byte) : b64decode (enc2 a b) = Some [a; b].
Proof.
  pose proof (byte_bound a) as Ba. pose proof (byte_bound b) as Bb.
  unfold enc2. cbv zeta.
  set (n := (Byte.to_N a * 1024 + Byte.to_N b * 4)%N).
  assert (H1 : (n / 4096 < 64)%N) by (subst n; zify; Z.to_euclidean_division_equations; lia).
  assert (H2 : ((n / 64) mod 64 < 64)%N) by (apply N.mod_lt; discriminate).
  assert (H3 : (n mod 64 < 64)%N) by (apply N.mod_lt; discriminate).
  cbn [b64decode].
  rewrite !b64_index_char, b64_char_not_pad by assumption.
  rewrite N.eqb_refl.
  replace (n / 4096 * 262144 + (n / 64) mod 64 * 4096 + n mod 64 * 64)%N
    with (Byte.to_N a * 65536 + Byte.to_N b * 256 + Byte.to_N x00)%N
    by (subst n; change (Byte.to_N x00) with 0%N; zify;
        Z.to_euclidean_division_equations; lia).
  unfold bytes_of_group. 
  pose proof (bytes_of_group3 a b x00) as G. unfold bytes_of_group in G.
  destruct (Byte.of_N _) as [a'|]; [|discriminate].
  destruct (Byte.of_N _) as [b'|]; [|discriminate].
  destruct (Byte.of_N _) as [c'|]; [|discriminate].
  now injection G as -> -> ->.
Qed.

Lemma b64decode_enc1 (a : byte) : b64decode (enc1 a) = Some [a].
Proof.
  pose proof (byte_bound a) as Ba.
  unfold enc1. cbv zeta.
  set (n := (Byte.to_N a * 16)%N).
  assert (H1 : (n / 64 < 64)%N) by (subst n; zify; Z.to_euclidean_division_equations; lia).
  assert (H2 : (n mod 64 < 64)%N) by (apply N.mod_lt; discriminate).
  cbn [b64decode].
  rewrite !b64_index_char by assumption.
  rewrite !N.eqb_refl.
  replace (n / 64 * 262144 + n mod 64 * 4096)%N
    with (Byte.to_N a * 65536 + Byte.to_N x00 * 256 + Byte.to_N x00)%N
    by (subst n; change (Byte.to_N x00) with 0%N; zify;
        Z.to_euclidean_division_equations; lia).
  pose proof (bytes_of_group3 a x00 x00) as G. unfold bytes_of_group in *.
  destruct (Byte.of_N _) as [a'|]; [|discriminate].
  destruct (Byte.of_N _) as [b'|]; [|discriminate].
  destruct (Byte.of_N _) as [c'|]; [|discriminate].
  now injection G as -> -> ->.
Qed.

(** Induction on a list, three elements at a time. *)
Lemma list_ind3 {A : Type} (Q : list A -> Prop) :
  Q [] -> (forall a, Q [a]) -> (forall a b, Q [a; b]) ->
  (forall a b c l, Q l -> Q (a :: b :: c :: l)) ->
  forall l, Q l.
Proof.
  intros H0 H1 H2 H3 l.
  assert (H : Q l /\ (forall a, Q (a :: l)) /\ (forall a b, Q (a :: b :: l))).
  { induction l as [|x l (IH0 & IH1 & IH2)].
    - now repeat split.
    - split; [apply IH1|]. split; [intro a; apply IH2|].
      intros a b. now apply H3. }
  apply H.
Qed.

(** Decoding what was encoded gives the bytes back. *)
Lemma b64_roundtrip (data : bytes) : b64decode (b64encode data) = Some data.
Proof.
  induction data as [|a|a b|a b c l IH] using list_ind3.
  - reflexivity.
  - apply b64decode_enc1.
  - apply b64decode_enc2.
  - change (b64encode (a :: b :: c :: l)) with (enc3 a b c ++ b64encode l).
    now apply b64decode_enc3.
Qed.

Lemma enc_digit (n : N) :
  (n < 64)%N ->
  (In (b64_char n) b64_alphabet \/ b64_char n = ch_equals)
  /\ (b64_char n < 128)%N /\ strict_char (b64_char n).
Proof.
  intro H. destruct (b64_char_facts n H) as (_ & _ & H1 & H2 & H3). auto.
Qed.

Lemma pad_char :
  (In ch_equals b64_alphabet \/ ch_equals = ch_equals)
  /\ (ch_equals < 128)%N /\ strict_char ch_equals.
Proof. repeat split; try discriminate. now right. Qed.

(** Every character of the encoding is a digit of the alphabet or the pad;
    the encoding comes in groups of four characters. *)
Lemma b64encode_chars (data : bytes) :
  Forall (fun c => (In c b64_alphabet \/ c = ch_equals)
                   /\ (c < 128)%N /\ strict_char c) (b64encode data)
  /\ (length (b64encode data) mod 4 = 0)%nat.
Proof.
  assert (F4 : forall (Q : char -> Prop) c1 c2 c3 c4,
             Q c1 -> Q c2 -> Q c3 -> Q c4 -> Forall Q [c1; c2; c3; c4])
    by (intros; repeat (apply Forall_cons; [assumption|]); apply Forall_nil).
  assert (M : forall n, (n mod 64 < 64)%N) by (intro n; apply N.mod_lt; discriminate).
  induction data as [|a|a b|a b c l [IH IHlen]] using list_ind3.
  - split; [constructor | reflexivity].
  - pose proof (byte_bound a) as Ba. split; [|reflexivity].
    unfold b64encode, enc1. cbv zeta.
    apply F4; try apply pad_char; apply enc_digit; try apply M.
    zify; Z.to_euclidean_division_equations; lia.
  - pose proof (byte_bound a) as Ba. pose proof (byte_bound b) as Bb.
    split; [|reflexivity].
    unfold b64encode, enc2. cbv zeta.
    apply F4; try apply pad_char; apply enc_digit; try apply M.
    zify; Z.to_euclidean_division_equations; lia.
  - pose proof (byte_bound a) as Ba. pose proof (byte_bound b) as Bb.
    pose proof (byte_bound c) as Bc.
    change (b64encode (a :: b :: c :: l)) with (enc3 a b c ++ b64encode l).
    split.
    + apply Forall_app. split; [|assumption].
      unfold enc3. cbv zeta.
      apply F4; apply enc_digit; try apply M.
      zify; Z.to_euclidean_division_equations; lia.
    + rewrite length_app. unfold enc3. cbv zeta. cbn [length].
      rewrite Nat.Div0.add_mod, IHlen by lia. reflexivity.
Qed.

Lemma b64encode_b64_text (data : bytes) : b64_text (b64encode data).
Proof.
  apply Forall_impl with (2 := proj1 (b64encode_chars data)). now intros c [H _].
Qed.

Lemma b64encode_ascii (data : bytes) : is_ascii (b64encode data).
Proof.
  apply Forall_impl with (2 := proj1 (b64encode_chars data)). now intros c (_ & H & _).
Qed.

Lemma b64encode_strict (data : bytes) : strict (b64encode data).
Proof.
  apply Forall_impl with (2 := proj1 (b64encode_chars data)). now intros c (_ & _ & H).
Qed.

(** ** Texts checked by evaluation *)

Lemma plain_by_eval (t : text) : plainb t = true -> plain t.
Proof.
  unfold plainb. intro H. apply andb_true_iff in H as [H1 H2]. split.
  - apply Forall_forall. intros c Hc.
    rewrite forallb_forall in H1. specialize (H1 c Hc).
    unfold path_charb in H1. apply negb_true_iff in H1.
    repeat split; intro E; rewrite E in H1; discriminate.
  - now apply negb_true_iff in H2.
Qed.

Lemma strict_by_eval (t : text) : forallb strict_charb t = true -> strict t.
Proof.
  intro H. apply Forall_forall. intros c Hc.
  rewrite forallb_forall in H. specialize (H c Hc).
  unfold strict_charb in H. apply negb_true_iff in H.
  repeat split; intro E; rewrite E in H; discriminate.
Qed.

(** A text without any parenthesis or quote is plain. *)
Lemma strict_plain (t : text) : strict t -> plain t.
Proof.
  intro H. split.
  - apply Forall_impl with (2 := H). intros c (_ & H1 & H2 & H3). now repeat split.
  - unfold no_url_open. destruct (occurs (str "url(") t) eqn:E; [|reflexivity].
    exfalso. apply occurs_split in E as (pre & post & ->).
    apply Forall_app in H as [_ H]. apply Forall_app in H as [H _].
    change (str "url(") with [117; 114; 108; 40]%N in H.
    do 3 (apply Forall_inv_tail in H). apply Forall_inv in H.
    now destruct H as [H _].
Qed.

Lemma ascii_by_eval (t : text) : forallb (fun c => (c <? 128)%N) t = true -> is_ascii t.
Proof.
  intro H. apply Forall_forall. intros c Hc.
  rewrite forallb_forall in H. now apply N.ltb_lt, H.
Qed.

(** A text that does not occur is not replaced. *)
Lemma str_replace_absent (old new s : text) :
  old <> [] -> occurs old s = false -> str_replace old new s = s.
Proof.
  intro Hold. induction s as [|c s IH]; intro H.
  - now apply str_replace_nil.
  - rewrite str_replace_cons by assumption.
    rewrite occurs_step in H.
    destruct (strip_prefix old (c :: s)); [discriminate|].
    f_equal. now apply IH.
Qed.

(** ** The classifier *)

Section Classifier.
Context {P : Platform}.

Lemma get_mime_type_values (path : text) :
  In (get_mime_type path)
     [str "font/woff2"; str "font/woff"; str "font/ttf";
      str "application/vnd.ms-fontembedded-opentype";
      str "application/octet-stream"].
Proof.
  unfold get_mime_type, dict_get_default, mime_table. cbn [dict_get].
  repeat match goal with
         | |- context [text_eqb ?a ?b] => destruct (text_eqb a b)
         end; simpl; tauto.
Qed.

Lemma get_mime_type_strict (path : text) : strict (get_mime_type path).
Proof.
  pose proof (get_mime_type_values path) as H. simpl in H.
  destruct H as [<-|[<-|[<-|[<-|[<-|[]]]]]]; now apply strict_by_eval.
Qed.

Lemma get_mime_type_ascii (path : text) : is_ascii (get_mime_type path).
Proof.
  pose proof (get_mime_type_values path) as H. simpl in H.
  destruct H as [<-|[<-|[<-|[<-|[<-|[]]]]]]; now apply ascii_by_eval.
Qed.

End Classifier.

Lemma data_uri_of_strict (mime : text) (data : bytes) :
  strict mime -> strict (data_uri_of mime data).
Proof.
  intro Hm. unfold data_uri_of, strict.
  rewrite !Forall_app. repeat split.
  - now apply strict_by_eval.
  - assumption.
  - now apply strict_by_eval.
  - apply b64encode_strict.
Qed.

Lemma data_uri_of_ascii (mime : text) (data : bytes) :
  is_ascii (data_uri_of mime data) <-> is_ascii mime.
Proof.
  unfold data_uri_of, is_ascii. rewrite !Forall_app. split.
  - now intros (_ & H & _).
  - intro H. repeat split.
    + now apply ascii_by_eval.
    + assumption.
    + now apply ascii_by_eval.
    + apply b64encode_ascii.
Qed.

Lemma splitext_concat (path : text) :
  fst (splitext path) ++ snd (splitext path) = path.
Proof.
  unfold splitext, splitext_generic.
  destruct (rfind ch_slash path <? rfind ch_dot path)%Z; [|apply app_nil_r].
  generalize (rfind ch_slash path + 1)%Z as i.
  generalize (Z.to_nat (rfind ch_dot path - rfind ch_slash path)) as n.
  induction n as [|n IH]; intro i; simpl; [apply app_nil_r|].
  destruct (i <? rfind ch_dot path)%Z; [|apply app_nil_r].
  destruct (negb _); [|apply IH].
  apply firstn_skipn.
Qed.

(** [rfind]: the index of the last occurrence, or -1 when there is none. *)
Lemma rfind_from_spec (i : Z) (c : char) (s : text) :
  (0 <= i)%Z ->
  (rfind_from i c s = (-1)%Z /\ ~ In c s)
  \/ (exists a b, s = a ++ c :: b /\ ~ In c b
                  /\ rfind_from i c s = (i + Z.of_nat (length a))%Z).
Proof.
  revert i. induction s as [|x s IH]; intros i Hi; simpl.
  - left. split; [reflexivity | intros []].
  - destruct (IH (i + 1)%Z ltac:(lia)) as [[E Hno]|(a & b & -> & Hb & E)]; rewrite E.
    + change (0 <=? -1)%Z with false. cbv iota.
      destruct (N.eqb_spec x c) as [->|Hne].
      * right. exists [], s. repeat split; [assumption | simpl; lia].
      * left. split; [reflexivity|]. intros [H|H]; [congruence | contradiction].
    + assert (H : (0 <=? i + 1 + Z.of_nat (length a))%Z = true)
        by (apply Z.leb_le; lia).
      rewrite H. right. exists (x :: a), b. repeat split; [assumption|].
      simpl length. lia.
Qed.

Lemma skip_leading_dots_cases (fuel : nat) (p : text) (i dotIndex : Z) :
  skip_leading_dots fuel p i dotIndex = (p, [])
  \/ skip_leading_dots fuel p i dotIndex = (slice_to p dotIndex, slice_from p dotIndex).
Proof.
  revert i. induction fuel as [|fuel IH]; intro i; simpl; [now left|].
  destruct (i <? dotIndex)%Z; [|now left].
  destruct (negb _); [now right | apply IH].
Qed.

(** The extension is empty, or a dot followed by characters that are
    neither a dot nor a slash. *)
Lemma splitext_extension (path : text) :
  snd (splitext path) = []
  \/ exists rest, snd (splitext path) = ch_dot :: rest
                  /\ ~ In ch_dot rest /\ ~ In ch_slash rest.
Proof.
  unfold splitext, splitext_generic.
  destruct (rfind ch_slash path <? rfind ch_dot path)%Z eqn:Hlt; [|now left].
  apply Z.ltb_lt in Hlt.
  destruct (skip_leading_dots_cases
              (Z.to_nat (rfind ch_dot path - rfind ch_slash path)) path
              (rfind ch_slash path + 1) (rfind ch_dot path)) as [-> | ->];
    [now left|].
  right. cbn [snd]. unfold slice_from, rfind in *.
  destruct (rfind_from_spec 0 ch_dot path ltac:(lia))
    as [[Ed _]|(a & b & Ep & Hb & Ed)].
  - exfalso. rewrite Ed in Hlt.
    destruct (rfind_from_spec 0 ch_slash path ltac:(lia))
      as [[Es _]|(a' & b' & _ & _ & Es)]; rewrite Es in Hlt; lia.
  - rewrite Ed. exists b. split; [|split; [assumption|]].
    + rewrite Ep. replace (Z.to_nat (0 + Z.of_nat (length a))) with (length a) by lia.
      rewrite skipn_app, skipn_all, Nat.sub_diag. reflexivity.
    + destruct (rfind_from_spec 0 ch_slash path ltac:(lia))
        as [[_ Hno]|(a' & b' & Ep' & Hb' & Es)].
      * intro H. apply Hno. rewrite Ep. apply in_or_app. right. now right.
      * rewrite Es, Ed in Hlt.
        assert (Hlen : length a' < length a) by lia.
        intro H. apply Hb'.
        assert (E : skipn (S (length a')) path = b').
        { rewrite Ep'. change (S (length a')) with (1 + length a')%nat.
          rewrite <- skipn_skipn.
          rewrite skipn_app, skipn_all, Nat.sub_diag. reflexivity. }
        rewrite <- E, Ep.
        rewrite skipn_app.
        apply in_or_app. right.
        replace (S (length a') - length a) with 0 by lia.
        simpl. now right.
Qed.

(** ** The extension, by the shape of the path *)

Lemma rfind_from_absent (i : Z) (c : char) (s : text) :
  ~ In c s -> rfind_from i c s = (-1)%Z.
Proof.
  revert i. induction s as [|x s IH]; intros i H; [reflexivity|].
  cbn [rfind_from]. rewrite IH by (intro Hin; apply H; now right).
  change (0 <=? -1)%Z with false. cbv iota.
  destruct (N.eqb_spec x c) as [->|_]; [|reflexivity].
  exfalso. apply H. now left.
Qed.

Lemma rfind_from_last (i : Z) (c : char) (a b : text) :
  (0 <= i)%Z -> ~ In c b ->
  rfind_from i c (a ++ c :: b) = (i + Z.of_nat (length a))%Z.
Proof.
  revert i. induction a as [|x a IH]; intros i Hi Hb.
  - cbn [app rfind_from length]. rewrite rfind_from_absent by assumption.
    change (0 <=? -1)%Z with false. cbv iota.
    rewrite N.eqb_refl. cbn. lia.
  - cbn [app rfind_from]. rewrite IH by (assumption || lia).
    replace (0 <=? i + 1 + Z.of_nat (length a))%Z with true
      by (symmetry; apply Z.leb_le; lia).
    cbn [length]. lia.
Qed.

(** A character that is not in the end of a text is last found before
    that end, if at all. *)
Lemma rfind_before (c : char) (x y : text) :
  ~ In c y -> (rfind c (x ++ y) < Z.of_nat (length x))%Z.
Proof.
  intro Hy. unfold rfind.
  destruct (rfind_from_spec 0 c (x ++ y) ltac:(lia))
    as [[E _]|(a & b & E & Hb & Er)]; [rewrite E; lia|].
  rewrite Er. symmetry in E. apply app_eq_app in E as [l [[E1 E2]|[E1 E2]]].
  - exfalso. apply Hy. rewrite E2. apply in_or_app. right. now left.
  - destruct l as [|d l].
    + exfalso. apply Hy. cbn [app] in E2. rewrite <- E2. now left.
    + rewrite E1. rewrite !length_app. cbn [length]. lia.
Qed.

Lemma skipn_past (pre s : text) (n : nat) :
  skipn (length pre + n) (pre ++ s) = skipn n s.
Proof.
  rewrite skipn_app.
  rewrite skipn_all2 by lia.
  replace (length pre + n - length pre) with n by lia. reflexivity.
Qed.

Lemma slice_from_past (pre s : text) (i : Z) :
  (0 <= i)%Z ->
  slice_from (pre ++ s) (Z.of_nat (length pre) + i) = slice_from s i.
Proof.
  intro Hi. unfold slice_from.
  replace (Z.to_nat (Z.of_nat (length pre) + i)) with (length pre + Z.to_nat i)
    by lia.
  apply skipn_past.
Qed.

Lemma slice_past (pre s : text) (i j : Z) :
  (0 <= i)%Z ->
  slice (pre ++ s) (Z.of_nat (length pre) + i) (Z.of_nat (length pre) + j)
  = slice s i j.
Proof.
  intro Hi. unfold slice. rewrite slice_from_past by assumption.
  unfold slice_to. f_equal. lia.
Qed.

(** The loop over the leading dots reads the file name only. *)
Lemma skip_leading_dots_past (fuel : nat) (pre s : text) (i dot : Z) :
  (0 <= i)%Z -> (0 <= dot)%Z ->
  snd (skip_leading_dots fuel (pre ++ s)
         (Z.of_nat (length pre) + i) (Z.of_nat (length pre) + dot))
  = snd (skip_leading_dots fuel s i dot).
Proof.
  revert i. induction fuel as [|fuel IH]; intros i Hi Hdot; [reflexivity|].
  cbn [skip_leading_dots].
  replace (Z.of_nat (length pre) + i <? Z.of_nat (length pre) + dot)%Z
    with (i <? dot)%Z
    by (destruct (Z.ltb_spec i dot), (Z.ltb_spec (Z.of_nat (length pre) + i)
                                        (Z.of_nat (length pre) + dot));
        (reflexivity || lia)).
  destruct (i <? dot)%Z; [|reflexivity].
  replace (Z.of_nat (length pre) + i + 1)%Z with (Z.of_nat (length pre) + (i + 1))%Z
    by lia.
  rewrite slice_past by assumption.
  destruct (negb (text_eqb (slice s i (i + 1)) [ch_dot])).
  - cbn [snd]. now apply slice_from_past.
  - apply IH; lia.
Qed.

Lemma slice_head (s : text) (i dot : Z) :
  (0 <= i < dot)%Z -> (i < Z.of_nat (length s))%Z ->
  exists x,
    slice s i (i + 1) = [x] /\ slice s i dot = x :: slice s (i + 1) dot.
Proof.
  intros Hi Hlen. unfold slice, slice_to, slice_from.
  destruct (skipn (Z.to_nat i) s) as [|x rest] eqn:E.
  - exfalso. apply (f_equal (@length _)) in E. rewrite length_skipn in E.
    cbn in E. lia.
  - exists x. split.
    + replace (Z.to_nat (i + 1 - i)) with 1 by lia. reflexivity.
    + replace (Z.to_nat (dot - i)) with (S (Z.to_nat (dot - (i + 1)))) by lia.
      cbn [firstn]. f_equal. f_equal.
      replace (Z.to_nat (i + 1)) with (1 + Z.to_nat i) by lia.
      now rewrite <- skipn_skipn, E.
Qed.

(** The loop gives no extension exactly when only dots stand between the
    start of the file name and its last dot. *)
Lemma skip_leading_dots_spec (fuel : nat) (s : text) (i dot : Z) :
  (0 <= i <= dot)%Z -> (dot <= Z.of_nat (length s))%Z ->
  Z.to_nat (dot - i) <= fuel ->
  snd (skip_leading_dots fuel s i dot)
  = if forallb (N.eqb ch_dot) (slice s i dot) then [] else slice_from s dot.
Proof.
  revert i. induction fuel as [|fuel IH]; intros i Hi Hlen Hfuel.
  - cbn [skip_leading_dots snd]. unfold slice, slice_to.
    replace (Z.to_nat (dot - i)) with 0 by lia. reflexivity.
  - cbn [skip_leading_dots].
    destruct (Z.ltb_spec i dot) as [Hlt|Hge].
    + destruct (slice_head s i dot) as (x & E1 & E2); [lia | lia|].
      rewrite E1, E2. cbn [text_eqb forallb].
      rewrite andb_true_r, (N.eqb_sym ch_dot x).
      destruct (x =? ch_dot)%N; cbn [negb andb snd]; [|reflexivity].
      apply IH; lia.
    + cbn [snd]. unfold slice, slice_to.
      replace (Z.to_nat (dot - i)) with 0 by lia. reflexivity.
Qed.

Lemma splitext_no_dot (s : text) : ~ In ch_dot s -> snd (splitext s) = [].
Proof.
  intro H. unfold splitext, splitext_generic, rfind.
  rewrite (rfind_from_absent 0 ch_dot s H).
  destruct (rfind_from_spec 0 ch_slash s ltac:(lia))
    as [[E _]|(a & b & _ & _ & E)]; rewrite E;
    replace (_ <? -1)%Z with false by (symmetry; apply Z.ltb_ge; lia);
    reflexivity.
Qed.

Lemma splitext_name (a b : text) :
  ~ In ch_slash (a ++ ch_dot :: b) -> ~ In ch_dot b ->
  snd (splitext (a ++ ch_dot :: b))
  = if forallb (N.eqb ch_dot) a then [] else ch_dot :: b.
Proof.
  intros Hs Hb. unfold splitext, splitext_generic, rfind.
  rewrite (rfind_from_absent 0 ch_slash _ Hs).
  rewrite (rfind_from_last 0 ch_dot a b ltac:(lia) Hb).
  replace (-1 <? 0 + Z.of_nat (length a))%Z with true
    by (symmetry; apply Z.ltb_lt; lia).
  replace (-1 + 1)%Z with 0%Z by reflexivity.
  rewrite skip_leading_dots_spec.
  - unfold slice, slice_to, slice_from.
    replace (Z.to_nat (0 + Z.of_nat (length a) - 0)) with (length a) by lia.
    replace (Z.to_nat (0 + Z.of_nat (length a))) with (length a) by lia.
    change (Z.to_nat 0) with 0. cbn [skipn].
    rewrite firstn_app, firstn_all, Nat.sub_diag, firstn_O, app_nil_r.
    rewrite skipn_app, skipn_all, Nat.sub_diag. reflexivity.
  - lia.
  - rewrite length_app. cbn [length]. lia.
  - lia.
Qed.

Lemma splitext_directory (dir name : text) :
  ~ In ch_slash name ->
  snd (splitext (dir ++ ch_slash :: name)) = snd (splitext name).
Proof.
  intro Hs. unfold splitext, splitext_generic.
  assert (Esep : rfind ch_slash (dir ++ ch_slash :: name) = Z.of_nat (length dir))
    by (unfold rfind; rewrite rfind_from_last by (assumption || lia); lia).
  assert (Esep' : rfind ch_slash name = (-1)%Z)
    by (unfold rfind; now apply rfind_from_absent).
  rewrite Esep, Esep'.
  destruct (rfind_from_spec 0 ch_dot name ltac:(lia))
    as [[E Hno]|(a & b & En & Hb & E)].
  - assert (Hlt : (rfind ch_dot (dir ++ ch_slash :: name)
                   < Z.of_nat (length (dir ++ [ch_slash])))%Z).
    { replace (dir ++ ch_slash :: name) with ((dir ++ [ch_slash]) ++ name)
        by (now rewrite <- app_assoc).
      now apply rfind_before. }
    rewrite length_app in Hlt. cbn [length] in Hlt.
    change (rfind_from 0 ch_dot name) with (rfind ch_dot name) in E. rewrite E.
    replace (_ <? rfind ch_dot (dir ++ ch_slash :: name))%Z with false
      by (symmetry; apply Z.ltb_ge; lia).
    reflexivity.
  - assert (Edot : rfind ch_dot (dir ++ ch_slash :: name)
                   = (Z.of_nat (length (dir ++ [ch_slash])) + Z.of_nat (length a))%Z).
    { rewrite En.
      replace (dir ++ ch_slash :: a ++ ch_dot :: b)
        with (((dir ++ [ch_slash]) ++ a) ++ ch_dot :: b)
        by (now rewrite <- !app_assoc).
      unfold rfind. rewrite rfind_from_last by (assumption || lia).
      rewrite length_app. lia. }
    change (rfind_from 0 ch_dot name) with (rfind ch_dot name) in E.
    rewrite Edot, E.
    rewrite length_app. cbn [length].
    replace (Z.of_nat (length dir) <? Z.of_nat (length dir + 1) + Z.of_nat (length a))%Z
      with true by (symmetry; apply Z.ltb_lt; lia).
    replace (-1 <? 0 + Z.of_nat (length a))%Z
      with true by (symmetry; apply Z.ltb_lt; lia).
    replace (Z.to_nat (Z.of_nat (length dir + 1) + Z.of_nat (length a)
                       - Z.of_nat (length dir)))
      with (Z.to_nat (0 + Z.of_nat (length a) - -1)) by lia.
    replace (dir ++ ch_slash :: name) with ((dir ++ [ch_slash]) ++ name)
      by (now rewrite <- app_assoc).
    replace (Z.of_nat (length dir) + 1)%Z
      with (Z.of_nat (length (dir ++ [ch_slash])) + (-1 + 1))%Z
      by (rewrite length_app; cbn [length]; lia).
    replace (Z.of_nat (length dir + 1) + Z.of_nat (length a))%Z
      with (Z.of_nat (length (dir ++ [ch_slash])) + (0 + Z.of_nat (length a)))%Z
      by (rewrite length_app; cbn [length]; lia).
    apply skip_leading_dots_past; lia.
Qed.

(** ** The dict of the loop *)

Lemma dict_set_In (e : text * text) (k v : text) (d : dict) :
  In e (dict_set k v d) -> e = (k, v) \/ In e d.
Proof.
  induction d as [|[k' v'] d IH]; simpl.
  - intros [<-|[]]. now left.
  - destruct (text_eqb k' k) eqn:E.
    + apply text_eqb_eq in E. subst k'.
      intros [<-|H]; [now left | right; now right].
    + intros [<-|H]; [right; now left|].
      destruct (IH H) as [->|H']; [now left | right; now right].
Qed.

Lemma dict_set_keys (x k v : text) (d : dict) :
  In x (map fst (dict_set k v d)) <-> x = k \/ In x (map fst d).
Proof.
  induction d as [|[k' v'] d IH]; simpl.
  - split; [intros [<-|[]]; now left | intros [->|[]]; now left].
  - destruct (text_eqb k' k) eqn:E; simpl.
    + apply text_eqb_eq in E. subst k'. split; [tauto|].
      intros [->|[H|H]]; [now left | now left | now right].
    + rewrite IH. tauto.
Qed.

Lemma dict_set_NoDup (k v : text) (d : dict) :
  NoDup (map fst d) -> NoDup (map fst (dict_set k v d)).
Proof.
  induction d as [|[k' v'] d IH]; simpl; intro H.
  - repeat constructor. intros [].
  - inversion H as [|? ? Hk' Hd]; subst.
    destruct (text_eqb k' k) eqn:E; simpl.
    + now constructor.
    + constructor; [|now apply IH].
      rewrite dict_set_keys. intros [->|H']; [|contradiction].
      now rewrite text_eqb_refl in E.
Qed.

Lemma dict_get_set_other (p k v : text) (d : dict) :
  k <> p -> dict_get p (dict_set k v d) = dict_get p d.
Proof.
  intro Hne. induction d as [|[k' v'] d IH]; simpl.
  - apply text_eqb_neq in Hne. now rewrite Hne.
  - destruct (text_eqb k' k) eqn:E; simpl.
    + apply text_eqb_eq in E. subst k'.
      apply text_eqb_neq in Hne. now rewrite Hne.
    + now rewrite IH.
Qed.

Lemma dict_get_set_same (k v : text) (d : dict) :
  dict_get k (dict_set k v d) = Some v.
Proof.
  induction d as [|[k' v'] d IH]; simpl.
  - now rewrite text_eqb_refl.
  - destruct (text_eqb k' k) eqn:E; simpl; rewrite E; [reflexivity | exact IH].
Qed.

(** ** Numbers and lines that every console can take *)

Lemma to_uint_not_nil (n : N) : N.to_uint n <> Decimal.Nil.
Proof.
  rewrite <- (DecimalN.Unsigned.of_to n) at 1.
  rewrite DecimalN.Unsigned.to_of. apply DecimalFacts.unorm_nonnil.
Qed.

Lemma digits_of_uint (d : Decimal.uint) :
  Forall is_digit (str (DecimalString.NilEmpty.string_of_uint d)).
Proof.
  induction d; cbn [DecimalString.NilEmpty.string_of_uint];
    [constructor | ..];
    (constructor; [unfold is_digit; cbn; lia | exact IHd]).
Qed.

Lemma format_int_digits (n : N) :
  Forall is_digit (format_int n) /\ format_int n <> [].
Proof.
  unfold format_int. pose proof (to_uint_not_nil n) as H.
  destruct (N.to_uint n) as [|d|d|d|d|d|d|d|d|d|d] eqn:E;
    [contradiction | ..];
    (split; [apply (digits_of_uint (_ d)) | discriminate]).
Qed.

Lemma ascii_text_app (a b : text) :
  ascii_text (a ++ b) = ascii_text a && ascii_text b.
Proof. apply forallb_app. Qed.

Lemma format_int_ascii (n : N) : ascii_text (format_int n) = true.
Proof.
  destruct (format_int_digits n) as [H _]. apply forallb_forall. intros c Hc.
  rewrite Forall_forall in H. apply H in Hc. unfold is_digit in Hc.
  apply N.ltb_lt. lia.
Qed.

Lemma group3_ascii (l : text) : ascii_text l = true -> ascii_text (group3 l) = true.
Proof.
  remember (length l) as n eqn:Hn. revert l Hn.
  induction n as [n IH] using lt_wf_ind. intros l Hn H.
  destruct l as [|a [|b [|c [|d more]]]]; try exact H.
  change (group3 (a :: b :: c :: d :: more))
    with (a :: b :: c :: 44%N :: group3 (d :: more)).
  cbn [ascii_text forallb] in *.
  apply andb_true_iff in H as [Ha H]. apply andb_true_iff in H as [Hb H].
  apply andb_true_iff in H as [Hc H].
  rewrite Ha, Hb, Hc. cbn [andb].
  apply (IH (length (d :: more))); [subst n; cbn; lia | reflexivity | exact H].
Qed.

Lemma format_int_commas_ascii (n : N) : ascii_text (format_int_commas n) = true.
Proof.
  unfold format_int_commas.
  assert (R : forall l, ascii_text (rev l) = ascii_text l).
  { intro l. induction l as [|c l IH]; [reflexivity|].
    cbn [rev]. rewrite ascii_text_app, IH. unfold ascii_text. cbn [forallb].
    rewrite andb_true_r. apply andb_comm. }
  rewrite R. apply group3_ascii. rewrite R. apply format_int_ascii.
Qed.

Ltac ascii_line :=
  rewrite ?ascii_text_app, ?format_int_ascii, ?format_int_commas_ascii; reflexivity.

Section Printing.
Context {P : Platform}.

Lemma printable_app (a b : text) : printable (a ++ b) = printable a && printable b.
Proof. apply forallb_app. Qed.

Lemma printable_ascii (t : text) : ascii_text t = true -> printable t = true.
Proof.
  unfold ascii_text, printable. rewrite !forallb_forall.
  intros H c Hc. now rewrite (H c Hc).
Qed.

Lemma print_ok (line : text) (w : world) :
  printable line = true -> print line w = (Ok tt, printed w line).
Proof. intro H. unfold print, printed. now rewrite H. Qed.

Lemma print_fail (line : text) (w : world) :
  printable line = false -> print line w = (Raise (stdout_error line), w).
Proof. intro H. unfold print. now rewrite H. Qed.

Lemma print_ascii (line : text) (w : world) :
  ascii_text line = true -> print line w = (Ok tt, printed w line).
Proof. intro H. apply print_ok. now apply printable_ascii. Qed.

(** A line of the loop can be printed when the path and the message in it
    can. *)
Lemma printable_cached (p : text) : printable (str "  [cached] " ++ p) = printable p.
Proof.
  rewrite printable_app.
  now rewrite (printable_ascii (str "  [cached] ")) by reflexivity.
Qed.

Lemma printable_download (p : text) :
  printable (str "  [download] " ++ CDN_BASE ++ p) = printable p.
Proof.
  rewrite !printable_app.
  rewrite (printable_ascii (str "  [download] ")) by reflexivity.
  now rewrite (printable_ascii CDN_BASE) by reflexivity.
Qed.


Lemma printable_found (n : N) :
  printable (str "Found " ++ format_int n ++ str " unique font references.") = true.
Proof.
  apply printable_ascii. ascii_line.
Qed.

End Printing.

(** ** The run: [download_font], the loop, [bundle] *)

Section Run.
Context {P : Platform}.

(** A cached font: the line of the cache, then the read. *)
Lemma download_font_cached_eq (p : text) (w : world) :
  os_path_exists (fs w) p = true ->
  download_font p w
  = if printable (str "  [cached] " ++ p)
    then (read_binary (fs w) p, printed w (str "  [cached] " ++ p))
    else (Raise (stdout_error (str "  [cached] " ++ p)), w).
Proof.
  intro H. unfold download_font, bind, path_exists, print, read_bytes, printed.
  cbn [fs net fetched console]. rewrite H.
  now destruct (printable (str "  [cached] " ++ p)).
Qed.

Lemma download_font_cached (p : text) (w : world) :
  os_path_exists (fs w) p = true ->
  printable p = true ->
  download_font p w = (read_binary (fs w) p, printed w (str "  [cached] " ++ p)).
Proof.
  intros H Hp. rewrite download_font_cached_eq by assumption.
  now rewrite printable_cached, Hp.
Qed.

(** A font that is not cached, when every call succeeds: the line of the
    download comes after [os.makedirs] and before the request. *)
Lemma download_font_fetched_eq (p : text) (w : world)
    (f1 f2 : filesystem) (n' : network) (data : bytes) :
  os_path_exists (fs w) p = false ->
  os_makedirs (fs w) (dirname p) = (Ok tt, f1) ->
  urlopen_read (net w) (CDN_BASE ++ p) USER_AGENT = (Ok data, n') ->
  write_binary f1 p data = (Ok tt, f2) ->
  download_font p w
  = if printable (str "  [download] " ++ CDN_BASE ++ p)
    then (Ok data,
          World f2 n' (fetched w ++ [CDN_BASE ++ p])
                (console w ++ [str "  [download] " ++ CDN_BASE ++ p]))
    else (Raise (stdout_error (str "  [download] " ++ CDN_BASE ++ p)),
          World f1 (net w) (fetched w) (console w)).
Proof.
  intros H Hm Hu Hw.
  unfold download_font, bind, path_exists, print, makedirs, urlopen, write_bytes,
    on_fs, ret.
  cbn [fs net fetched console]. rewrite H, Hm.
  cbn [fs net fetched console].
  destruct (printable (str "  [download] " ++ CDN_BASE ++ p)); [|reflexivity].
  cbn [fs net fetched console]. rewrite Hu.
  cbn [fs net fetched console]. now rewrite Hw.
Qed.

Lemma download_font_fetched (p : text) (w : world)
    (f1 f2 : filesystem) (n' : network) (data : bytes) :
  os_path_exists (fs w) p = false ->
  printable p = true ->
  os_makedirs (fs w) (dirname p) = (Ok tt, f1) ->
  urlopen_read (net w) (CDN_BASE ++ p) USER_AGENT = (Ok data, n') ->
  write_binary f1 p data = (Ok tt, f2) ->
  download_font p w =
  (Ok data,
   World f2 n' (fetched w ++ [CDN_BASE ++ p])
         (console w ++ [str "  [download] " ++ CDN_BASE ++ p])).
Proof.
  intros H Hp Hm Hu Hw.
  rewrite (download_font_fetched_eq p w f1 f2 n' data H Hm Hu Hw).
  now rewrite printable_download, Hp.
Qed.

(** A font that was obtained has a path the console can take: one of the
    two lines was printed. *)
Lemma download_font_printable (p : text) (w w' : world) (d : bytes) :
  download_font p w = (Ok d, w') -> printable p = true.
Proof.
  unfold download_font, bind, path_exists, print, read_bytes, makedirs, urlopen,
    write_bytes, on_fs, ret.
  cbn [fs net fetched console].
  destruct (os_path_exists (fs w) p).
  - rewrite printable_cached. destruct (printable p); [reflexivity | discriminate].
  - destruct (os_makedirs (fs w) (dirname p)) as [[[]|e] f1];
      cbn [fs net fetched console]; [|discriminate].
    rewrite printable_download. destruct (printable p); [reflexivity | discriminate].
Qed.

(** After a successful [download_font] the cache file holds the bytes that
    were returned. *)
Lemma download_font_cache (L : PlatformLaws P) (p : text) (w w' : world) (d : bytes) :
  download_font p w = (Ok d, w') ->
  os_path_exists (fs w') p = true /\ read_binary (fs w') p = Ok d.
Proof.
  intro Hd. pose proof (download_font_printable p w w' d Hd) as Hp. revert Hd.
  destruct (os_path_exists (fs w) p) eqn:H.
  - rewrite download_font_cached by assumption.
    intros [= Hr <-]. cbn [printed fs]. now split.
  - unfold download_font, bind, path_exists, print, makedirs, urlopen, write_bytes,
      on_fs, ret.
    cbn [fs net fetched console]. rewrite H.
    destruct (os_makedirs (fs w) (dirname p)) as [[[]|e] f1];
      cbn [fs net fetched console]; [|discriminate].
    rewrite printable_download, Hp. cbn [fs net fetched console].
    destruct (urlopen_read (net w) (CDN_BASE ++ p) USER_AGENT) as [[data|e] n'];
      cbn [fs net fetched console]; [|discriminate].
    destruct (write_binary f1 p data) as [[[]|e] f2] eqn:Hw;
      cbn [fs net fetched console]; [|discriminate].
    intros [= <- <-]. cbn [fs].
    exact (write_binary_read f1 p data f2 Hw).
Qed.

Lemma process_font_encoded (p : text) (st : dict * N) (w w1 : world) (d : bytes) :
  download_font p w = (Ok d, w1) ->
  process_font p st w =
  (Ok (dict_set p (data_uri_of (get_mime_type p) d) (fst st),
       (snd st + N.of_nat (length d))%N), w1).
Proof.
  intro H. unfold process_font, try_except, encode_font, bind, ret.
  now rewrite H.
Qed.

(** A turn that raises: the handler prints its line and the loop goes on,
    or the handler's [print] raises, outside the [try]. *)
Lemma process_font_raised (p : text) (st : dict * N) (w w1 : world) (e : exn) :
  download_font p w = (Raise e, w1) ->
  process_font p st w
  = if printable (error_line p e)
    then (Ok st, printed w1 (error_line p e))
    else (Raise (stdout_error (error_line p e)), w1).
Proof.
  intro H. unfold process_font, try_except, encode_font, bind, ret, print, printed.
  rewrite H. fold (error_line p e).
  now destruct (printable (error_line p e)).
Qed.

Lemma process_font_skipped (p : text) (st : dict * N) (w w1 : world) (e : exn) :
  download_font p w = (Raise e, w1) ->
  printable (error_line p e) = true ->
  process_font p st w = (Ok st, printed w1 (error_line p e)).
Proof. intros H Hp. now rewrite (process_font_raised p st w w1 e H), Hp. Qed.


(** A loop that ends is a [loop_run], and a [loop_run] is a loop that
    ends. *)
Lemma process_fonts_loop_run (fonts : list text) (st st' : dict * N) (w w' : world) :
  process_fonts fonts st w = (Ok st', w') <-> loop_run fonts st w st' w'.
Proof.
  split.
  - revert st w. induction fonts as [|p more IH]; intros st w Hrun.
    + cbn in Hrun. injection Hrun as <- <-. constructor.
    + cbn [process_fonts] in Hrun. unfold bind in Hrun.
      destruct (download_font p w) as [[d|e] w1] eqn:E.
      * rewrite (process_font_encoded p st w w1 d E) in Hrun.
        apply loop_encoded with d w1; [assumption | now apply IH].
      * rewrite (process_font_raised p st w w1 e E) in Hrun.
        destruct (printable (error_line p e)) eqn:Hp; [|discriminate].
        apply loop_skipped with e w1; [assumption | assumption | now apply IH].
  - induction 1 as [st w|p more st w d w1 st' w' E _ IH
                    |p more st w e w1 st' w' E Hp _ IH].
    + reflexivity.
    + cbn [process_fonts]. unfold bind.
      now rewrite (process_font_encoded p st w w1 d E).
    + cbn [process_fonts]. unfold bind.
      now rewrite (process_font_skipped p st w w1 e E Hp).
Qed.

(** With a console that can take every line, the loop ends. *)
Lemma process_fonts_run (fonts : list text) (st : dict * N) (w : world) :
  (forall line, printable line = true) ->
  exists st' w',
    process_fonts fonts st w = (Ok st', w') /\ loop_run fonts st w st' w'.
Proof.
  intro Hall. revert st w. induction fonts as [|p more IH]; intros st w.
  - exists st, w. split; [reflexivity | constructor].
  - cbn [process_fonts]. unfold bind at 1.
    destruct (download_font p w) as [[d|e] w1] eqn:E.
    + rewrite (process_font_encoded p st w w1 d E).
      destruct (IH (dict_set p (data_uri_of (get_mime_type p) d) (fst st),
                    (snd st + N.of_nat (length d))%N) w1) as (st' & w' & H1 & H2).
      exists st', w'. split; [assumption|].
      now apply loop_encoded with d w1.
    + rewrite (process_font_skipped p st w w1 e E (Hall _)).
      destruct (IH st (printed w1 (error_line p e))) as (st' & w' & H1 & H2).
      exists st', w'. split; [assumption|].
      apply loop_skipped with e w1; auto.
Qed.




(** Every entry the loop adds maps a font of the loop to a data URI. *)
Lemma loop_run_entries (fonts : list text) (st st' : dict * N) (w w' : world) :
  loop_run fonts st w st' w' ->
  forall e, In e (fst st') ->
    In e (fst st)
    \/ (In (fst e) fonts
        /\ exists d, snd e = data_uri_of (get_mime_type (fst e)) d).
Proof.
  induction 1 as [st w|p more st w d w1 st' w' _ _ IH|p more st w e w1 st' w' _ _ _ IH];
    intros x Hx.
  - now left.
  - destruct (IH x Hx) as [H|[H1 H2]]; [|right; split; [now right | assumption]].
    cbn [fst] in H. apply dict_set_In in H as [->|H]; [|now left].
    right. split; [now left | now exists d].
  - destruct (IH x Hx) as [H|[H1 H2]]; [now left|].
    right. split; [now right | assumption].
Qed.

Lemma loop_run_NoDup (fonts : list text) (st st' : dict * N) (w w' : world) :
  loop_run fonts st w st' w' ->
  NoDup (map fst (fst st)) -> NoDup (map fst (fst st')).
Proof.
  induction 1 as [st w|p more st w d w1 st' w' _ _ IH|p more st w e w1 st' w' _ _ _ IH];
    intro H; [assumption | | now apply IH].
  apply IH. cbn [fst]. now apply dict_set_NoDup.
Qed.

Lemma bundle_missing (w : world) :
  os_path_exists (fs w) INPUT_FILE = false ->
  bundle w =
  (Ok tt,
   printed
     (printed w (str "ERROR: " ++ INPUT_FILE ++ str " not found in current directory."))
     (str "Make sure you're running this from src/main/resources/chat-window/")).
Proof.
  intro H. unfold bundle, bind, path_exists, ret.
  rewrite H. cbn [negb].
  now rewrite !print_ascii.
Qed.

Lemma bundle_found (w : world) (css : text) :
  os_path_exists (fs w) INPUT_FILE = true ->
  read_utf8 (fs w) INPUT_FILE = Ok css ->
  bundle w =
  match process_fonts (unique_fonts css) ([], 0%N)
          (printed
             (printed w (str "Reading " ++ INPUT_FILE ++ str "..."))
             (str "Found " ++ format_int (N.of_nat (length (unique_fonts css)))
              ++ str " unique font references.")) with
  | (Ok st, w3) => write_and_report css st w3
  | (Raise e, w3) => (Raise e, w3)
  end.
Proof.
  intros H Hr. unfold bundle. unfold bind at 1. unfold path_exists.
  rewrite H. cbn [negb].
  unfold bind at 1. rewrite print_ascii by reflexivity.
  unfold bind at 1. unfold read_text. cbn [printed fs]. rewrite Hr.
  unfold bind at 1. rewrite print_ok by apply printable_found.
  unfold bind at 1.
  reflexivity.
Qed.

End Run.

(** ** The mapping the program builds *)

Lemma scan_font_path (s : text) (l : list text) : scan s l -> Forall font_path l.
Proof. induction 1; [constructor | now constructor | assumption]. Qed.

Lemma unique_fonts_font_path (css p : text) :
  In p (unique_fonts css) -> font_path p.
Proof.
  intro H. unfold unique_fonts in H. rewrite sorted_set_In in H.
  pose proof (scan_font_path _ _ (findall_scan css)) as F.
  rewrite Forall_forall in F. now apply F.
Qed.

Lemma font_path_plain (p : text) : font_path p -> no_url_open p -> plain p.
Proof.
  intros (r & -> & _ & Hr) Hno. split; [|assumption].
  apply Forall_app. split; [|assumption].
  repeat constructor; discriminate.
Qed.

Lemma data_uri_not_font_path (mime : text) (d : bytes) (p : text) :
  font_path p -> data_uri_of mime d <> p.
Proof. intros (r & -> & _) E. discriminate E. Qed.

Section BuiltMapping.
Context {P : Platform}.

(** When no font of the loop contains the text [url(], the mapping
    the loop builds from the empty dict is a [plain_mapping] with unique
    keys. *)
Lemma built_mapping_plain (fonts : list text) (st' : dict * N) (w w' : world) :
  (forall p, In p fonts -> font_path p /\ no_url_open p) ->
  process_fonts fonts ([], 0%N) w = (Ok st', w') ->
  plain_mapping (fst st') /\ NoDup (map fst (fst st')).
Proof.
  intros Hf Hrun.
  pose proof (proj1 (process_fonts_loop_run _ _ _ _ _) Hrun) as R.
  assert (He : forall e, In e (fst st') ->
                 In (fst e) fonts
                 /\ exists d, snd e = data_uri_of (get_mime_type (fst e)) d).
  { intros e H. destruct (loop_run_entries _ _ _ _ _ R e H) as [[]|H']. exact H'. }
  split; [split|].
  - apply Forall_forall. intros e H. destruct (He e H) as (Hk & d & Hv). split.
    + destruct (Hf _ Hk). now apply font_path_plain.
    + rewrite Hv. apply strict_plain, data_uri_of_strict, get_mime_type_strict.
  - intros e e' H H' E. destruct (He e H) as (_ & d & Hv).
    destruct (He e' H') as (Hk' & _). rewrite Hv in E.
    destruct (Hf _ Hk') as [Hp _]. exact (data_uri_not_font_path _ _ _ Hp E).
  - apply (loop_run_NoDup _ _ _ _ _ R). constructor.
Qed.


End BuiltMapping.

(** ** Substitution *)

Lemma plain_mapping_by_eval (m : dict) :
  forallb (fun e => plainb (fst e) && plainb (snd e)) m = true ->
  forallb (fun e => forallb (fun e' => negb (text_eqb (snd e) (fst e'))) m) m = true ->
  plain_mapping m.
Proof.
  intros H1 H2. rewrite forallb_forall in H1, H2. split.
  - apply Forall_forall. intros e He.
    apply H1 in He. apply andb_true_iff in He as [Hk Hv].
    split; now apply plain_by_eval.
  - intros e e' He He' E. apply H2 in He. rewrite forallb_forall in He.
    apply He in He'. apply negb_true_iff, text_eqb_neq in He'. contradiction.
Qed.

(** The passes on the text before a form of a plain path, on the form and
    on the text after it are independent. *)
Lemma apply_replacements_around (m : dict) (pre post p : text) (k : quoting) :
  plain_mapping m -> plain p ->
  apply_replacements m (pre ++ url_form k p ++ post)
  = apply_replacements m pre
    ++ match dict_get p m with
       | Some u => url_form k u
       | None => url_form k p
       end
    ++ apply_replacements m post.
Proof.
  intros Hm Hp.
  transitivity (apply_replacements m pre ++ token_image m (url_form k p)
                ++ apply_replacements m post);
    [|now rewrite token_image_form].
  apply tmap_deterministic with (token_image m) (pre ++ url_form k p ++ post).
  - apply tmap_apply_replacements, Hm.
  - apply tmap_app_token.
    + now apply bracketed_form.
    + apply tmap_apply_replacements, Hm.
    + apply tmap_apply_replacements, Hm.
Qed.

Lemma sample_fonts_no_url_open (q : text) :
  In q (unique_fonts Sample.css) -> no_url_open q.
Proof.
  intro Hq. vm_compute in Hq.
  destruct Hq as [<-|[<-|[<-|[]]]]; vm_compute; intuition discriminate.
Qed.

Section Substitution.
Context {P : Platform}.

(** The same on the mapping that the loop builds for a stylesheet none of
    whose discovered paths contains the text [url(]. *)
Lemma built_replacements_around (css : text) (w w' : world) (st' : dict * N)
    (pre post p : text) (k : quoting) :
  (forall q, In q (unique_fonts css) -> no_url_open q) ->
  process_fonts (unique_fonts css) ([], 0%N) w = (Ok st', w') ->
  In p (unique_fonts css) ->
  apply_replacements (fst st') (pre ++ url_form k p ++ post)
  = apply_replacements (fst st') pre
    ++ match dict_get p (fst st') with
       | Some u => url_form k u
       | None => url_form k p
       end
    ++ apply_replacements (fst st') post.
Proof.
  intros Hno Hrun Hp.
  destruct (built_mapping_plain (unique_fonts css) st' w w') as [Hm _];
    [|exact Hrun|].
  - intros q Hq. split; [now apply unique_fonts_font_path with css | now apply Hno].
  - apply apply_replacements_around; [exact Hm|].
    apply font_path_plain; [now apply unique_fonts_font_path with css | now apply Hno].
Qed.

Lemma built_mapping_of_css (css : text) (w w' : world) (st' : dict * N) :
  (forall q, In q (unique_fonts css) -> no_url_open q) ->
  process_fonts (unique_fonts css) ([], 0%N) w = (Ok st', w') ->
  plain_mapping (fst st') /\ NoDup (map fst (fst st')).
Proof.
  intros Hno Hrun. apply built_mapping_plain with (unique_fonts css) w w'.
  - intros q Hq. split; [now apply unique_fonts_font_path with css | now apply Hno].
  - exact Hrun.
Qed.

(** C1 (as amended): for every stylesheet text none of whose discovered
    paths contains the text [url(], and the mapping the program builds for
    it, every occurrence of each of the three forms [url(p)], [url("p")],
    [url('p')] of a discovered path [p] is replaced in place by the same
    form of the data URI when [p] is in the mapping, and is left as it is
    when [p] is not in the mapping; the text before and the text after the
    occurrence are substituted on their own.  The same holds for every
    mapping of plain paths to plain data URIs (no closing parenthesis, no
    quote, no [url(] inside) none of which is a path of the mapping, and
    every plain path. *)
Theorem substitution_complete :
  (forall css w st' w' pre post p k,
      (forall q, In q (unique_fonts css) -> no_url_open q) ->
      process_fonts (unique_fonts css) ([], 0%N) w = (Ok st', w') ->
      In p (unique_fonts css) ->
      apply_replacements (fst st') (pre ++ url_form k p ++ post)
      = apply_replacements (fst st') pre
        ++ match dict_get p (fst st') with
           | Some u => url_form k u
           | None => url_form k p
           end
        ++ apply_replacements (fst st') post)
  /\ (forall m pre post p k,
         plain_mapping m -> plain p ->
         apply_replacements m (pre ++ url_form k p ++ post)
         = apply_replacements m pre
           ++ match dict_get p m with
              | Some u => url_form k u
              | None => url_form k p
              end
           ++ apply_replacements m post).
Proof.
  split.
  - intros css w st' w' pre post p k. apply built_replacements_around.
  - intros m pre post p k. apply apply_replacements_around.
Qed.

End Substitution.

(** On [Sample.css]: the double-quoted reference to the encoded
    [fonts/A.woff2] is replaced, the single-quoted reference to
    [fonts/B.woff], which could not be obtained, stays. *)
Lemma substitution_complete_witness :
  let w0 := Mem.start Sample.disk Sample.cdn in
  (exists w', @process_fonts Mem.platform (unique_fonts Sample.css) ([], 0%N) w0
              = (Ok (Sample.mapping, 7%N), w'))
  /\ apply_replacements Sample.mapping
       (str "a{src:" ++ url_form DoubleQuoted Sample.pA ++ str "}")
     = str "a{src:" ++ url_form DoubleQuoted Sample.uA ++ str "}"
  /\ apply_replacements Sample.mapping
       (str "b{src:" ++ url_form SingleQuoted Sample.pB ++ str "}")
     = str "b{src:" ++ url_form SingleQuoted Sample.pB ++ str "}".
Proof.
  intro w0.
  destruct (@substitution_complete Mem.platform) as [Hbuilt _].
  assert (Hrun : exists w',
             @process_fonts Mem.platform (unique_fonts Sample.css) ([], 0%N) w0
             = (Ok (Sample.mapping, 7%N), w'))
    by (eexists; vm_compute; reflexivity).
  split; [exact Hrun|]. destruct Hrun as [w' Hrun]. split.
  - refine (Hbuilt Sample.css w0 (Sample.mapping, 7%N) w' (str "a{src:") (str "}")
              Sample.pA DoubleQuoted sample_fonts_no_url_open Hrun _).
    vm_compute. tauto.
  - refine (Hbuilt Sample.css w0 (Sample.mapping, 7%N) w' (str "b{src:") (str "}")
              Sample.pB SingleQuoted sample_fonts_no_url_open Hrun _).
    vm_compute. tauto.
Defined.

(** C1 as stated fails: the program maps both fonts of [Nested.css], the
    text holds the unquoted form of [Nested.p2], and the output holds no
    form of its data URI, because the pass for [Nested.p1] rewrote the end
    of that occurrence first. *)
Lemma substitution_complete_counterexample :
  (exists w', @process_fonts Mem.platform (unique_fonts Nested.css) ([], 0%N)
                (Mem.start Nested.disk []) = (Ok (Nested.mapping, 4%N), w'))
  /\ Nested.css = Nested.pre ++ url_form Unquoted Nested.p2 ++ []
  /\ dict_get Nested.p2 Nested.mapping = Some Nested.u2
  /\ apply_replacements Nested.mapping Nested.css
     = str "url(data:font/ttf;base64,AAAA) url(fonts/xurl(data:font/ttf;base64,AAAA)"
  /\ occurs (url_form Unquoted Nested.u2)
       (apply_replacements Nested.mapping Nested.css) = false
  /\ apply_replacements Nested.mapping Nested.css
     <> apply_replacements Nested.mapping Nested.pre
        ++ url_form Unquoted Nested.u2
        ++ apply_replacements Nested.mapping [].
Proof.
  split; [eexists; vm_compute; reflexivity|].
  repeat split; try (vm_compute; reflexivity).
  vm_compute. discriminate.
Qed.

Lemma apply_replacements_perm (m m' : dict) (css : text) :
  plain_mapping m -> NoDup (map fst m) -> Permutation m m' ->
  apply_replacements m css = apply_replacements m' css.
Proof.
  intros Hm Hnd Hp.
  assert (Hm' : plain_mapping m') by now apply plain_mapping_perm with m.
  apply tmap_deterministic with (token_image m) css.
  - apply tmap_apply_replacements, Hm.
  - apply tmap_ext with (token_image m'); [|apply tmap_apply_replacements, Hm'].
    intros w _. destruct (token_image_cases m w) as [(k & p & Hin & ->)|Hno].
    + apply in_map_iff in Hin as (e & <- & He).
      destruct (plain_entries_In _ e (proj1 Hm) He) as [Hk _].
      rewrite !token_image_form by assumption.
      now rewrite (dict_get_perm (fst e) m m' Hnd Hp).
    + rewrite (token_image_fixed m w Hno). apply token_image_fixed.
      intros e k He. apply Hno.
      apply Permutation_in with m'; [now apply Permutation_sym | assumption].
Qed.

Section Order.
Context {P : Platform}.

(** C9 (as amended): for every stylesheet text none of whose discovered
    paths contains the text [url(], and the mapping the program builds for
    it, the passes applied in any order of the entries give the same output
    text as in the program's (sorted) order.  The same holds for every
    mapping with unique keys of plain paths to plain data URIs (no closing
    parenthesis, no quote, no [url(] inside) none of which is a path of the
    mapping. *)
Theorem substitution_order_independent :
  (forall css w st' w' m',
      (forall q, In q (unique_fonts css) -> no_url_open q) ->
      process_fonts (unique_fonts css) ([], 0%N) w = (Ok st', w') ->
      Permutation (fst st') m' ->
      apply_replacements (fst st') css = apply_replacements m' css)
  /\ (forall m m' css,
         plain_mapping m -> NoDup (map fst m) -> Permutation m m' ->
         apply_replacements m css = apply_replacements m' css).
Proof.
  split.
  - intros css w st' w' m' Hno Hrun Hp.
    destruct (built_mapping_of_css css w w' st' Hno Hrun) as [Hm Hnd].
    now apply apply_replacements_perm.
  - exact apply_replacements_perm.
Qed.

End Order.

Lemma substitution_order_independent_witness :
  let w0 := Mem.start Sample.disk Sample.cdn in
  (exists w', @process_fonts Mem.platform (unique_fonts Sample.css) ([], 0%N) w0
              = (Ok (Sample.mapping, 7%N), w'))
  /\ apply_replacements Sample.mapping Sample.css
     = apply_replacements (rev Sample.mapping) Sample.css.
Proof.
  intro w0.
  destruct (@substitution_order_independent Mem.platform) as [Hbuilt _].
  assert (Hrun : exists w',
             @process_fonts Mem.platform (unique_fonts Sample.css) ([], 0%N) w0
             = (Ok (Sample.mapping, 7%N), w'))
    by (eexists; vm_compute; reflexivity).
  split; [exact Hrun|]. destruct Hrun as [w' Hrun].
  exact (Hbuilt Sample.css w0 (Sample.mapping, 7%N) w' (rev Sample.mapping)
           sample_fonts_no_url_open Hrun (Permutation_rev Sample.mapping)).
Defined.

(** C9 as stated fails: on [Nested.css] the mapping the program builds,
    applied in its own (sorted) order and in the reverse order, gives two
    different texts. *)
Lemma substitution_order_counterexample :
  (exists w', @process_fonts Mem.platform (unique_fonts Nested.css) ([], 0%N)
                (Mem.start Nested.disk []) = (Ok (Nested.mapping, 4%N), w'))
  /\ Permutation Nested.mapping (rev Nested.mapping)
  /\ apply_replacements Nested.mapping Nested.css
     = str "url(data:font/ttf;base64,AAAA) url(fonts/xurl(data:font/ttf;base64,AAAA)"
  /\ apply_replacements (rev Nested.mapping) Nested.css
     = str "url(data:font/ttf;base64,AAAA) url(data:font/ttf;base64,/w==)"
  /\ apply_replacements Nested.mapping Nested.css
     <> apply_replacements (rev Nested.mapping) Nested.css.
Proof.
  split; [eexists; vm_compute; reflexivity|].
  split; [apply Permutation_rev|].
  repeat split; try (vm_compute; reflexivity).
  vm_compute. discriminate.
Qed.

Lemma frame_rel_cons_inv (m : dict) (c : char) (s out : text) :
  frame_rel m (c :: s) out ->
  (exists out', out = c :: out' /\ frame_rel m s out')
  \/ (exists k p u rest rest',
        In (p, u) m /\ strip_prefix (url_form k p) (c :: s) = Some rest
        /\ out = url_form k u ++ rest' /\ frame_rel m rest rest').
Proof.
  intro H. remember (c :: s) as s0 eqn:E.
  destruct H as [|c' s' out' H|k p u rest rest' Hg H].
  - discriminate.
  - injection E as -> ->. left. now exists out'.
  - right. exists k, p, u, rest, rest'. repeat split; try assumption.
    + now apply dict_get_In.
    + apply strip_prefix_Some. congruence.
Qed.

Lemma apply_replacements_frame (m : dict) (css : text) :
  plain_mapping m -> frame_rel m css (apply_replacements m css).
Proof.
  intro Hm.
  pose proof (tmap_apply_replacements m css (proj1 Hm)) as H.
  induction H as [|w s s' Hw _ IH|c s s' _ _ IH].
  - constructor.
  - destruct (token_image_cases m w) as [(k & p & Hin & ->)|Hno].
    + apply in_map_iff in Hin as (e & <- & He).
      destruct (plain_entries_In _ e (proj1 Hm) He) as [Hk _].
      rewrite token_image_form by assumption.
      destruct (dict_get_key (fst e) m) as [u Hu];
        [apply in_map_iff; now exists e|].
      rewrite Hu. now constructor.
    + rewrite (token_image_fixed m w Hno). now apply frame_rel_app_same.
  - now constructor.
Qed.

Section Frame.
Context {P : Platform}.

(** C5 (as amended): for every stylesheet text none of whose discovered
    paths contains the text [url(], and the mapping the program builds for
    it, the output is the input in which occurrences of a form of a mapped
    path were replaced by the same form of its data URI, and every other
    character of the output is the corresponding character of the input.
    The same holds for every text and every mapping of plain paths to plain
    data URIs (no closing parenthesis, no quote, no [url(] inside) none of
    which is a path of the mapping. *)
Theorem substitution_frame :
  (forall css w st' w',
      (forall q, In q (unique_fonts css) -> no_url_open q) ->
      process_fonts (unique_fonts css) ([], 0%N) w = (Ok st', w') ->
      frame_rel (fst st') css (apply_replacements (fst st') css))
  /\ (forall m css,
         plain_mapping m -> frame_rel m css (apply_replacements m css)).
Proof.
  split.
  - intros css w st' w' Hno Hrun.
    destruct (built_mapping_of_css css w w' st' Hno Hrun) as [Hm _].
    now apply apply_replacements_frame.
  - exact apply_replacements_frame.
Qed.

End Frame.

Lemma substitution_frame_witness :
  let w0 := Mem.start Sample.disk Sample.cdn in
  (exists w', @process_fonts Mem.platform (unique_fonts Sample.css) ([], 0%N) w0
              = (Ok (Sample.mapping, 7%N), w'))
  /\ frame_rel Sample.mapping Sample.css
       (apply_replacements Sample.mapping Sample.css).
Proof.
  intro w0.
  destruct (@substitution_frame Mem.platform) as [Hbuilt _].
  assert (Hrun : exists w',
             @process_fonts Mem.platform (unique_fonts Sample.css) ([], 0%N) w0
             = (Ok (Sample.mapping, 7%N), w'))
    by (eexists; vm_compute; reflexivity).
  split; [exact Hrun|]. destruct Hrun as [w' Hrun].
  exact (Hbuilt Sample.css w0 (Sample.mapping, 7%N) w' sample_fonts_no_url_open Hrun).
Defined.

(** C5 as stated fails: on [Chained.css] the program leaves [Chained.p_mid]
    out of the mapping (its turn raises), the pass for [Chained.p1] rewrites
    the end of the reference to [Chained.p_mid], and the pass for
    [Chained.p3] then replaces that whole reference: the characters
    [fonts/x] at its start, which are in no occurrence of a form of a mapped
    path, are not in the output. *)
Lemma substitution_frame_counterexample :
  (exists w', @process_fonts Mem.platform (unique_fonts Chained.css) ([], 0%N)
                (Mem.start Chained.disk []) = (Ok (Chained.mapping, 4%N), w'))
  /\ apply_replacements Chained.mapping Chained.css
     = str "url(data:application/octet-stream;base64,/w==)url(data:font/ttf;base64,AAAA)url(data:application/octet-stream;base64,/w==)"
  /\ ~ frame_rel Chained.mapping Chained.css
         (apply_replacements Chained.mapping Chained.css).
Proof.
  split; [eexists; vm_compute; reflexivity|].
  split; [vm_compute; reflexivity|].
  intro H.
  assert (E : apply_replacements Chained.mapping Chained.css
              = str "url(data:application/octet-stream;base64,/w==)url(data:font/ttf;base64,AAAA)url(data:application/octet-stream;base64,/w==)")
    by (vm_compute; reflexivity).
  rewrite E in H. clear E.
  assert (Hno : forall k p u s rest,
             In (p, u) Chained.mapping ->
             (s = Chained.css \/ s = tl Chained.css \/ s = tl (tl Chained.css)
              \/ s = tl (tl (tl Chained.css)) \/ s = tl (tl (tl (tl Chained.css)))) ->
             strip_prefix (url_form k p) s <> Some rest).
  { intros k p u s rest [[= <- <-]|[[= <- <-]|[]]] Hs;
      destruct k;
      destruct Hs as [->|[->|[->|[->| ->]]]]; vm_compute; discriminate. }
  change Chained.css with (117 :: tl Chained.css)%N in H.
  apply frame_rel_cons_inv in H
    as [(o & E & H)|(k & p & u & rest & rest' & Hin & Hs & _)];
    [|apply (Hno k p u Chained.css rest Hin); [now left | exact Hs]].
  injection E as <-.
  change (tl Chained.css) with (114 :: tl (tl Chained.css))%N in H.
  apply frame_rel_cons_inv in H
    as [(o & E & H)|(k & p & u & rest & rest' & Hin & Hs & _)];
    [|apply (Hno k p u (tl Chained.css) rest Hin); [right; now left | exact Hs]].
  injection E as <-.
  change (tl (tl Chained.css)) with (108 :: tl (tl (tl Chained.css)))%N in H.
  apply frame_rel_cons_inv in H
    as [(o & E & H)|(k & p & u & rest & rest' & Hin & Hs & _)];
    [|apply (Hno k p u (tl (tl Chained.css)) rest Hin);
      [right; right; now left | exact Hs]].
  injection E as <-.
  change (tl (tl (tl Chained.css)))
    with (40 :: tl (tl (tl (tl Chained.css))))%N in H.
  apply frame_rel_cons_inv in H
    as [(o & E & H)|(k & p & u & rest & rest' & Hin & Hs & _)];
    [|apply (Hno k p u (tl (tl (tl Chained.css))) rest Hin);
      [right; right; right; now left | exact Hs]].
  injection E as <-.
  change (tl (tl (tl (tl Chained.css))))
    with (102 :: tl (tl (tl (tl (tl Chained.css)))))%N in H.
  apply frame_rel_cons_inv in H
    as [(o & E & H)|(k & p & u & rest & rest' & Hin & Hs & _)];
    [|apply (Hno k p u (tl (tl (tl (tl Chained.css)))) rest Hin);
      [right; right; right; now right | exact Hs]].
  discriminate E.
Qed.

(** ** Discovery *)

(** C2 (as amended): for every stylesheet text, the discovery operation
    returns the strictly increasing (lexicographic, so duplicate-free)
    sequence of the paths of the tokens of the text, read left to right
    without overlap, where a token is [url(], an optional quote, a path that
    starts with [fonts/], an optional quote and [)]; the quote that opens
    and the quote that closes are independent of each other.  A text with
    no token yields the empty sequence. *)
Theorem discovery_sorted_distinct_tokens (css : text) :
  (forall l, scan css l <-> l = findall url_pattern css)
  /\ StronglySorted text_lt (unique_fonts css)
  /\ NoDup (unique_fonts css)
  /\ (forall p, In p (unique_fonts css) <-> In p (findall url_pattern css))
  /\ (forall p, In p (unique_fonts css) -> font_path p)
  /\ (findall url_pattern css = [] -> unique_fonts css = []).
Proof.
  repeat split.
  - intro H. exact (scan_deterministic _ _ _ H (findall_scan css)).
  - intros ->. apply findall_scan.
  - apply sorted_set_Sorted.
  - apply sorted_set_NoDup.
  - apply sorted_set_In.
  - apply sorted_set_In.
  - apply unique_fonts_font_path.
  - unfold unique_fonts. now intros ->.
Qed.

(** C2 as stated fails: in [Mismatch.css_open] a double quote opens the
    argument of [url(...)] and none closes it, so no path that starts with
    [fonts/] stands in any of the three forms [url(p)], [url("p")],
    [url('p')]; discovery returns [fonts/X.woff2] all the same. *)
Lemma discovery_counterexample :
  unique_fonts Mismatch.css_open = [Mismatch.p]
  /\ forall p k pre post,
       font_path p -> Mismatch.css_open <> pre ++ url_form k p ++ post.
Proof.
  split; [vm_compute; reflexivity|].
  intros p k pre post (r & -> & _) E.
  destruct k; simpl in E.
  - apply (not_occurs (str "url(fonts/") Mismatch.css_open eq_refl
             pre (r ++ [ch_rparen] ++ post)).
    rewrite E. f_equal. unfold url_plain. rewrite <- !app_assoc. reflexivity.
  - apply (not_occurs [ch_dquote; ch_rparen] Mismatch.css_open eq_refl
             (pre ++ str "url(" ++ [ch_dquote] ++ str "fonts/" ++ r) post).
    rewrite E. unfold url_dquoted. rewrite <- !app_assoc. reflexivity.
  - apply (not_occurs (str "url('") Mismatch.css_open eq_refl
             pre (str "fonts/" ++ r ++ [ch_squote; ch_rparen] ++ post)).
    rewrite E. f_equal. unfold url_squoted. rewrite <- !app_assoc. reflexivity.
Qed.

(** ** Encoding *)

Section Encode.
Context {P : Platform}.

(** C3: for every byte sequence and every font path, the data URI the
    program builds is [data:<mime>;base64,<payload>] with the MIME type the
    classifier gives for the path and the payload the standard padded
    base64 encoding of the bytes; the payload is made of the 64 characters
    of the standard alphabet and the pad, in groups of four; decoding it
    gives the bytes back; the URI is pure ASCII.  For any MIME string the
    format is the same, and the URI is pure ASCII exactly when the MIME
    string is. *)
Theorem encode_roundtrip (font_path : text) (font_data : bytes) :
  let mime := get_mime_type font_path in
  let b64 := b64encode font_data in
  data_uri_of mime font_data = str "data:" ++ mime ++ str ";base64," ++ b64
  /\ b64decode b64 = Some font_data
  /\ b64_text b64
  /\ (length b64 mod 4 = 0)%nat
  /\ is_ascii (data_uri_of mime font_data)
  /\ (forall m, data_uri_of m font_data = str "data:" ++ m ++ str ";base64," ++ b64)
  /\ (forall m, is_ascii (data_uri_of m font_data) <-> is_ascii m).
Proof.
  cbv zeta. repeat split.
  - apply b64_roundtrip.
  - apply b64encode_b64_text.
  - apply b64encode_chars.
  - apply data_uri_of_ascii, get_mime_type_ascii.
  - apply data_uri_of_ascii.
  - apply data_uri_of_ascii.
Qed.

(** ** Classification *)

(** C7: for every path the classifier returns, without raising, the MIME
    type that belongs to the lowercased extension of the path:
    [font/woff2] for [.woff2], [font/woff] for [.woff], [font/ttf] for
    [.ttf], [application/vnd.ms-fontembedded-opentype] for [.eot] and
    [application/octet-stream] for every other extension; the extension is
    the second part of [os.path.splitext]: an end of the path that is
    empty, or a dot followed by characters that are neither a dot nor a
    slash.  By the shape of the path: when the file name is [a.b], with no
    dot in [b], some character other than a dot in [a] and [b] in ASCII,
    the lowercased extension is the dot and [b] with [A]-[Z] turned into
    [a]-[z]; when the file name has no dot, or only dots before its last
    dot, the extension is empty. *)
Theorem mime_classification (path : text) :
  let ext := str_lower (snd (splitext path)) in
  (ext = str ".woff2" -> get_mime_type path = str "font/woff2")
  /\ (ext = str ".woff" -> get_mime_type path = str "font/woff")
  /\ (ext = str ".ttf" -> get_mime_type path = str "font/ttf")
  /\ (ext = str ".eot" ->
      get_mime_type path = str "application/vnd.ms-fontembedded-opentype")
  /\ (ext <> str ".woff2" -> ext <> str ".woff" -> ext <> str ".ttf" ->
      ext <> str ".eot" ->
      get_mime_type path = str "application/octet-stream")
  /\ fst (splitext path) ++ snd (splitext path) = path
  /\ (snd (splitext path) = []
      \/ exists rest, snd (splitext path) = ch_dot :: rest
                      /\ ~ In ch_dot rest /\ ~ In ch_slash rest)
  /\ (forall dir a b,
        path = a ++ ch_dot :: b \/ path = dir ++ ch_slash :: a ++ ch_dot :: b ->
        ~ In ch_slash a -> ~ In ch_slash b -> ~ In ch_dot b ->
        forallb (N.eqb ch_dot) a = false -> ascii_text b = true ->
        ext = ch_dot :: lower_ascii b)
  /\ (forall dir name,
        path = name \/ path = dir ++ ch_slash :: name ->
        ~ In ch_slash name ->
        ~ In ch_dot name
        \/ (exists a b, name = a ++ ch_dot :: b /\ ~ In ch_dot b
                        /\ forallb (N.eqb ch_dot) a = true) ->
        ext = [] /\ get_mime_type path = str "application/octet-stream").
Proof.
  cbv zeta.
  assert (Hname : forall dir name,
             path = name \/ path = dir ++ ch_slash :: name ->
             ~ In ch_slash name ->
             snd (splitext path) = snd (splitext name)).
  { intros dir name [->| ->] Hs; [reflexivity | now apply splitext_directory]. }
  unfold get_mime_type, dict_get_default, mime_table.
  cbn [dict_get].
  set (ext := str_lower (snd (splitext path))).
  split; [|split; [|split; [|split; [|split; [|split; [|split; [|split]]]]]]].
  - intros ->. reflexivity.
  - intros ->. reflexivity.
  - intros ->. reflexivity.
  - intros ->. reflexivity.
  - intros H1 H2 H3 H4.
    apply not_eq_sym in H1, H2, H3, H4.
    apply text_eqb_neq in H1, H2, H3, H4. now rewrite H1, H2, H3, H4.
  - apply splitext_concat.
  - apply splitext_extension.
  - intros dir a b Hp Ha Hb Hd Hdots Hascii. subst ext.
    assert (Hs : ~ In ch_slash (a ++ ch_dot :: b)).
    { intro H. apply in_app_or in H as [H|[H|H]]; [now apply Ha | discriminate H
                                                 | now apply Hb]. }
    rewrite (Hname dir (a ++ ch_dot :: b)) by (assumption || tauto).
    rewrite (splitext_name a b Hs Hd), Hdots.
    unfold str_lower.
    replace (ascii_text (ch_dot :: b)) with true
      by (unfold ascii_text in *; cbn [forallb]; now rewrite Hascii).
    reflexivity.
  - intros dir name Hp Hs Hshape.
    assert (E : ext = []).
    { subst ext. rewrite (Hname dir name Hp Hs).
      destruct Hshape as [Hno|(a & b & -> & Hd & Hdots)].
      - now rewrite (splitext_no_dot name Hno).
      - now rewrite (splitext_name a b Hs Hd), Hdots. }
    split; [exact E|]. now rewrite E.
Qed.

End Encode.

(** On every platform: the names of the fonts are ASCII, and there
    [str.lower] has no table to consult. *)
Lemma mime_classification_examples (P : Platform) :
  map (@get_mime_type P)
    [str "fonts/KaTeX_Main-Regular.woff2"; str "fonts/A.woff"; str "fonts/B.TTF";
     str "fonts/c.d.eot"; str "fonts/e.xyz"; str "fonts/noext";
     str "fonts/.woff2"; str "fonts/dir.ttf/file"]
  = [str "font/woff2"; str "font/woff"; str "font/ttf";
     str "application/vnd.ms-fontembedded-opentype";
     str "application/octet-stream"; str "application/octet-stream";
     str "application/octet-stream"; str "application/octet-stream"].
Proof. reflexivity. Qed.

(** C7 at [fonts/B.TTF] and at [fonts/.woff2]: the first has the extension
    [.ttf] once lowercased and is [font/ttf], the second has none. *)
Lemma mime_classification_witness :
  @str_lower Mem.platform (snd (splitext (str "fonts/B.TTF"))) = str ".ttf"
  /\ @get_mime_type Mem.platform (str "fonts/B.TTF") = str "font/ttf"
  /\ @get_mime_type Mem.platform (str "fonts/.woff2") = str "application/octet-stream".
Proof.
  destruct (@mime_classification Mem.platform (str "fonts/B.TTF"))
    as (_ & _ & Httf & _ & _ & _ & _ & Hshape & _).
  destruct (@mime_classification Mem.platform (str "fonts/.woff2"))
    as (_ & _ & _ & _ & _ & _ & _ & _ & Hnone).
  cbv zeta in Httf, Hshape, Hnone.
  assert (E : @str_lower Mem.platform (snd (splitext (str "fonts/B.TTF"))) = str ".ttf").
  { refine (Hshape (str "fonts") (str "B") (str "TTF") (or_intror eq_refl) _ _ _
              eq_refl eq_refl); cbn; intuition discriminate. }
  split; [exact E|]. split; [exact (Httf E)|].
  refine (proj2 (Hnone (str "fonts") (str ".woff2") (or_intror eq_refl) _ _)).
  - cbn; intuition discriminate.
  - right. exists [], (str "woff2"). split; [reflexivity|].
    split; [cbn; intuition discriminate | reflexivity].
Defined.

(** ** Obtaining a font *)

(** The in-memory platform keeps the promise of [PlatformLaws]. *)
Lemma mem_platform_laws : PlatformLaws Mem.platform.
Proof.
  constructor. intros f p d f' H. injection H as <-.
  simpl. now rewrite text_eqb_refl.
Qed.

Section Obtain.
Context {P : Platform}.

(** C6 (as amended): for every reference path, when a file exists at that
    path the obtain operation fetches nothing and leaves the file system
    and the network as they were, and, when the line [[cached] path] can be
    printed to stdout, it returns what reading the file gives; when the line
    cannot be printed, the [print] raises and nothing is returned.
    Otherwise, when the directory can be made, the line [[download] url]
    can be printed, the fetch from the base URL plus the path succeeds and
    the bytes can be written to the path, it returns exactly the fetched
    bytes after writing them to the path; when that line cannot be printed,
    the [print] raises before any fetch.  After every successful obtain the
    file at the path exists and holds the bytes that were returned. *)
Theorem cache_precedence (L : PlatformLaws P) (p : text) (w : world) :
  (os_path_exists (fs w) p = true ->
   (printable (str "  [cached] " ++ p) = true ->
    download_font p w = (read_binary (fs w) p, printed w (str "  [cached] " ++ p)))
   /\ (printable (str "  [cached] " ++ p) = false ->
       download_font p w = (Raise (stdout_error (str "  [cached] " ++ p)), w))
   /\ fetched (snd (download_font p w)) = fetched w
   /\ net (snd (download_font p w)) = net w
   /\ fs (snd (download_font p w)) = fs w)
  /\ (os_path_exists (fs w) p = false ->
      forall f1 f2 n' data,
        os_makedirs (fs w) (dirname p) = (Ok tt, f1) ->
        urlopen_read (net w) (CDN_BASE ++ p) USER_AGENT = (Ok data, n') ->
        write_binary f1 p data = (Ok tt, f2) ->
        (printable (str "  [download] " ++ CDN_BASE ++ p) = true ->
         download_font p w
         = (Ok data,
            World f2 n' (fetched w ++ [CDN_BASE ++ p])
                  (console w ++ [str "  [download] " ++ CDN_BASE ++ p])))
        /\ (printable (str "  [download] " ++ CDN_BASE ++ p) = false ->
            download_font p w
            = (Raise (stdout_error (str "  [download] " ++ CDN_BASE ++ p)),
               World f1 (net w) (fetched w) (console w)))
        /\ os_path_exists f2 p = true
        /\ read_binary f2 p = Ok data)
  /\ (forall d w',
        download_font p w = (Ok d, w') ->
        os_path_exists (fs w') p = true /\ read_binary (fs w') p = Ok d).
Proof.
  split; [|split].
  - intro H. rewrite (download_font_cached_eq p w H).
    destruct (printable (str "  [cached] " ++ p));
      (split; [|split]; [try discriminate; reflexivity ..|]); now repeat split.
  - intros H f1 f2 n' data Hm Hu Hw.
    rewrite (download_font_fetched_eq p w f1 f2 n' data H Hm Hu Hw).
    destruct (printable (str "  [download] " ++ CDN_BASE ++ p));
      (split; [|split]; [try discriminate; reflexivity ..|]);
      exact (write_binary_read f1 p data f2 Hw).
  - intros d w'. now apply download_font_cache.
Qed.

End Obtain.

Lemma cache_precedence_witness :
  let w0 := Mem.start Sample.disk Sample.cdn in
  @download_font Mem.platform Sample.pC w0
  = (Ok (Mem.ascii_bytes "ccc"), printed w0 (str "  [cached] fonts/C.ttf"))
  /\ fetched (snd (@download_font Mem.platform Sample.pC w0)) = []
  /\ (exists w',
         @download_font Mem.platform Sample.pA w0 = (Ok (Mem.ascii_bytes "aaaa"), w')
         /\ fetched w' = [CDN_BASE ++ Sample.pA]
         /\ Mem.lookup Sample.pA (fs w') = Some (Mem.ascii_bytes "aaaa")).
Proof.
  intro w0.
  destruct (@cache_precedence Mem.platform mem_platform_laws Sample.pC w0)
    as (Hhit & _ & _).
  destruct (@cache_precedence Mem.platform mem_platform_laws Sample.pA w0)
    as (_ & Hmiss & _).
  destruct (Hhit eq_refl) as (H1 & _ & H2 & _).
  destruct (Hmiss eq_refl Sample.disk
              ((Sample.pA, Mem.ascii_bytes "aaaa") :: Sample.disk)
              Sample.cdn (Mem.ascii_bytes "aaaa") eq_refl eq_refl eq_refl)
    as (H3 & _).
  split; [exact (H1 eq_refl)|]. split; [exact H2|].
  eexists. split; [exact (H3 eq_refl)|]. split; reflexivity.
Defined.

(** C6 as stated fails on a console that cannot encode the path: the file
    of [Accent.p] exists and can be read, and the obtain operation returns
    no bytes, it raises at the [print] of its first line; when the file
    does not exist and the font is on the CDN, it raises at the [print] of
    the other line, before the fetch, and nothing is written. *)
Lemma cache_precedence_counterexample :
  let w0 := Mem.start_with Mem.ascii_codec [] Accent.disk [] in
  let w1 := Mem.start_with Mem.ascii_codec [] []
              [(CDN_BASE ++ Accent.p, [x00; x00; x00])] in
  @os_path_exists Mem.ascii_console (fs w0) Accent.p = true
  /\ @read_binary Mem.ascii_console (fs w0) Accent.p = Ok [x00; x00; x00]
  /\ @download_font Mem.ascii_console Accent.p w0
     = (Raise (str "'ascii' codec can't encode characters"), w0)
  /\ @os_path_exists Mem.ascii_console (fs w1) Accent.p = false
  /\ @urlopen_read Mem.ascii_console (net w1) (CDN_BASE ++ Accent.p) USER_AGENT
     = (Ok [x00; x00; x00], net w1)
  /\ @download_font Mem.ascii_console Accent.p w1
     = (Raise (str "'ascii' codec can't encode characters"), w1).
Proof. repeat split. Qed.

(** ** The missing input *)

Section Guard.
Context {P : Platform}.

(** C8: when the input stylesheet does not exist, the run prints its two
    lines of diagnostic and ends; the file system and the network are as
    they were and nothing was fetched: no output file is written and no
    cache file is made. *)
Theorem missing_input_guard (w : world) :
  os_path_exists (fs w) INPUT_FILE = false ->
  exists w',
    bundle w = (Ok tt, w')
    /\ fs w' = fs w /\ net w' = net w /\ fetched w' = fetched w
    /\ console w'
       = console w
         ++ [str "ERROR: katex.min.css not found in current directory.";
             str "Make sure you're running this from src/main/resources/chat-window/"].
Proof.
  intro H. rewrite (bundle_missing w H). eexists. split; [reflexivity|].
  cbn [printed fs net fetched console]. repeat split.
  now rewrite <- app_assoc.
Qed.

End Guard.

Lemma missing_input_guard_witness :
  exists w',
    @bundle Mem.platform (Mem.start [(Sample.pC, Mem.ascii_bytes "ccc")] Sample.cdn)
    = (Ok tt, w')
    /\ fs w' = [(Sample.pC, Mem.ascii_bytes "ccc")]
    /\ net w' = Sample.cdn /\ fetched w' = []
    /\ console w'
       = [str "ERROR: katex.min.css not found in current directory.";
          str "Make sure you're running this from src/main/resources/chat-window/"].
Proof.
  exact (@missing_input_guard Mem.platform
           (Mem.start [(Sample.pC, Mem.ascii_bytes "ccc")] Sample.cdn) eq_refl).
Defined.

(** ** Failures of single references *)

Section Isolation.
Context {P : Platform}.





End Isolation.



(** ** Quotes that do not match *)

Lemma apply_single_absent (p uri css : text) :
  occurs (url_plain p) css = false ->
  occurs (url_dquoted p) css = false ->
  occurs (url_squoted p) css = false ->
  apply_replacements [(p, uri)] css = css.
Proof.
  intros H1 H2 H3. unfold apply_replacements, replace_variants. cbn [fold_left fst snd].
  rewrite (str_replace_absent (url_plain p) (url_plain uri) css)
    by (assumption || discriminate).
  rewrite (str_replace_absent (url_dquoted p) (url_dquoted uri) css)
    by (assumption || discriminate).
  now rewrite (str_replace_absent (url_squoted p) (url_squoted uri) css)
    by (assumption || discriminate).
Qed.

Section Asymmetry.
Context {P : Platform}.

(** C10: for each of the two texts [Mismatch.css_open] (a double quote
    opens the argument and none closes it) and [Mismatch.css_close] (none
    opens and a double quote closes), discovery returns the path
    [fonts/X.woff2], so that the run obtains and encodes the font; and the
    substitution with the mapping of that path to any data URI leaves the
    text as it is, so that the run writes the input text unchanged. *)
Theorem mismatched_quote_asymmetry :
  Forall
    (fun css =>
       unique_fonts css = [Mismatch.p]
       /\ (forall uri, apply_replacements [(Mismatch.p, uri)] css = css)
       /\ (forall w d w3,
              os_path_exists (fs w) INPUT_FILE = true ->
              read_utf8 (fs w) INPUT_FILE = Ok css ->
              download_font Mismatch.p
                (printed (printed w (str "Reading katex.min.css..."))
                         (str "Found 1 unique font references."))
              = (Ok d, w3) ->
              bundle w
              = write_and_report css
                  ([(Mismatch.p, data_uri_of (get_mime_type Mismatch.p) d)],
                   N.of_nat (length d)) w3
              /\ apply_replacements
                   [(Mismatch.p, data_uri_of (get_mime_type Mismatch.p) d)] css
                 = css))
    [Mismatch.css_open; Mismatch.css_close].
Proof.
  assert (H : forall css,
             unique_fonts css = [Mismatch.p] ->
             occurs (url_plain Mismatch.p) css = false ->
             occurs (url_dquoted Mismatch.p) css = false ->
             occurs (url_squoted Mismatch.p) css = false ->
             unique_fonts css = [Mismatch.p]
             /\ (forall uri, apply_replacements [(Mismatch.p, uri)] css = css)
             /\ (forall w d w3,
                    os_path_exists (fs w) INPUT_FILE = true ->
                    read_utf8 (fs w) INPUT_FILE = Ok css ->
                    download_font Mismatch.p
                      (printed (printed w (str "Reading katex.min.css..."))
                               (str "Found 1 unique font references."))
                    = (Ok d, w3) ->
                    bundle w
                    = write_and_report css
                        ([(Mismatch.p, data_uri_of (get_mime_type Mismatch.p) d)],
                         N.of_nat (length d)) w3
                    /\ apply_replacements
                         [(Mismatch.p, data_uri_of (get_mime_type Mismatch.p) d)] css
                       = css)).
  { intros css Hu H1 H2 H3. split; [exact Hu|].
    split; [intro uri; now apply apply_single_absent|].
    intros w d w3 He Hr Hd. split; [|now apply apply_single_absent].
    rewrite (bundle_found w css He Hr), Hu.
    cbn [process_fonts]. unfold bind at 1.
    change (str "Reading " ++ INPUT_FILE ++ str "...")
      with (str "Reading katex.min.css...").
    change (str "Found " ++ format_int (N.of_nat (length [Mismatch.p]))
            ++ str " unique font references.")
      with (str "Found 1 unique font references.").
    rewrite (process_font_encoded Mismatch.p ([], 0%N) _ w3 d Hd).
    reflexivity. }
  apply Forall_cons; [apply H; vm_compute; reflexivity|].
  apply Forall_cons; [apply H; vm_compute; reflexivity|].
  apply Forall_nil.
Qed.

End Asymmetry.

(** On the in-memory platform: the font is fetched from the CDN and cached,
    and the output file is the input file. *)
Lemma mismatched_quote_asymmetry_witness :
  let w0 := Mem.start (Mismatch.disk Mismatch.css_open) Mismatch.cdn in
  exists w',
    @bundle Mem.platform w0 = (Ok tt, w')
    /\ fetched w' = [CDN_BASE ++ Mismatch.p]
    /\ Mem.lookup Mismatch.p (fs w') = Some (Mem.ascii_bytes "xx")
    /\ Mem.lookup OUTPUT_FILE (fs w') = Mem.lookup INPUT_FILE (fs w').
Proof.
  intro w0.
  pose proof (Forall_inv (@mismatched_quote_asymmetry Mem.platform))
    as (_ & _ & Hrun).
  edestruct (Hrun w0) as (Hb & _);
    [reflexivity | vm_compute; reflexivity | vm_compute; reflexivity|].
  eexists. split; [rewrite Hb; vm_compute; reflexivity|].
  repeat split; vm_compute; reflexivity.
Defined.

(** * Further properties *)

(** ** Substitution: what a second run of the passes does *)

Lemma token_image_bracketed (m : dict) (w : text) :
  plain_entries m -> bracketed w -> bracketed (token_image m w).
Proof.
  intro Hm. revert w. induction Hm as [|[p u] m [_ Hu] _ IH]; intros w Hw.
  - exact Hw.
  - change (token_image ((p, u) :: m) w) with (token_image m (swap_variants p u w)).
    apply IH. now apply swap_variants_bracketed.
Qed.

(** What the passes do to a bracketed text: it is kept, or it is a form of
    a mapped path and becomes the same form of its data URI. *)
Lemma token_image_shape (m : dict) (w : text) :
  plain_mapping m ->
  token_image m w = w
  \/ exists k p u, In (p, u) m /\ w = url_form k p /\ token_image m w = url_form k u.
Proof.
  intro Hm. destruct (token_image_cases m w) as [(k & p & Hp & ->)|Hw].
  - right. apply in_map_iff in Hp as ([p' u] & E & He). simpl in E. subst p'.
    destruct (plain_entries_In _ _ (proj1 Hm) He) as [Hpp _]. simpl in Hpp.
    rewrite token_image_form by assumption.
    destruct (dict_get p m) as [u'|] eqn:E.
    + exists k, p, u'. split; [now apply dict_get_In | now split].
    + apply dict_get_None in E. exfalso. apply E.
      apply in_map_iff. now exists (p, u).
  - left. now apply token_image_fixed.
Qed.

Lemma token_image_idempotent (m : dict) (w : text) :
  plain_mapping m -> token_image m (token_image m w) = token_image m w.
Proof.
  intro Hm. destruct (token_image_shape m w Hm) as [E|(k & p & u & He & -> & E)].
  - now rewrite !E.
  - rewrite E. apply token_image_fixed. intros e k' He' E'.
    destruct (plain_entries_In _ _ (proj1 Hm) He) as [_ Hu].
    destruct (plain_entries_In _ _ (proj1 Hm) He') as [Hp' _].
    apply url_form_inj in E' as [_ E']; [|assumption|assumption].
    exact (proj2 Hm _ _ He He' E').
Qed.

Lemma apply_replacements_idempotent (m : dict) (s : text) :
  plain_mapping m ->
  apply_replacements m (apply_replacements m s) = apply_replacements m s.
Proof.
  intro Hm. symmetry.
  apply tmap_deterministic with (token_image m) s.
  - apply tmap_apply_replacements, Hm.
  - apply tmap_ext with (fun w => token_image m (token_image m w)).
    + intros w _. now apply token_image_idempotent.
    + apply tmap_compose with (apply_replacements m s).
      * intros w Hw. apply token_image_bracketed; [apply Hm | assumption].
      * apply tmap_apply_replacements, Hm.
      * apply tmap_apply_replacements, Hm.
Qed.

(** A text and its image that agree up to what follows them are equal. *)
Lemma tmap_same_prefix (F : text -> text) (a a' r r' : text) :
  (forall w, bracketed w -> bracketed (F w)) ->
  tmap F a a' -> a' ++ r' = a ++ r -> a' = a /\ r' = r.
Proof.
  intros HF H. induction H as [|w s s' Hw _ IH|c s s' Hc _ IH]; intro E.
  - now split.
  - rewrite <- !app_assoc in E.
    destruct (bracketed_unique _ _ _ _ (HF _ Hw) Hw E) as [E1 E2].
    destruct (IH E2) as [-> ->]. now rewrite E1.
  - injection E as E. destruct (IH E) as [-> ->]. now split.
Qed.

Lemma apply_replacements_no_form (m : dict) (s p u : text) (k : quoting) :
  plain_mapping m -> In (p, u) m ->
  occurs (url_form k p) (apply_replacements m s) = false.
Proof.
  intros Hm He.
  destruct (plain_entries_In _ _ (proj1 Hm) He) as [Hp Hu]. simpl in Hp, Hu.
  destruct (occurs (url_form k p) (apply_replacements m s)) eqn:Ho; [|reflexivity].
  exfalso. apply occurs_split in Ho as (a & b & Eab).
  pose proof (bracketed_form k p Hp) as HT.
  assert (HF : forall w, bracketed w -> bracketed (token_image m w))
    by (intros w Hw; apply token_image_bracketed; [apply Hm | assumption]).
  assert (E : a ++ url_form k p ++ b
              = apply_replacements m a ++ token_image m (url_form k p)
                ++ apply_replacements m b).
  { apply tmap_deterministic with (token_image m) (a ++ url_form k p ++ b).
    - pose proof (tmap_apply_replacements m (apply_replacements m s) (proj1 Hm)) as H0.
      rewrite (apply_replacements_idempotent m s Hm), Eab in H0. exact H0.
    - apply tmap_app_token; [assumption | |]; apply tmap_apply_replacements, Hm. }
  symmetry in E.
  apply (tmap_same_prefix (token_image m) a _ _ _ HF) in E;
    [|apply tmap_apply_replacements, Hm].
  destruct E as [_ E].
  destruct (bracketed_unique _ _ _ _ (HF _ HT) HT E) as [E' _].
  destruct (token_image_shape m (url_form k p) Hm)
    as [Efix|(k' & p' & u' & He' & Ek & Eimg)].
  - (* the form of a mapped path is not kept *)
    rewrite token_image_form in Efix by assumption.
    destruct (dict_get p m) as [u0|] eqn:Eg.
    + apply dict_get_In in Eg.
      destruct (plain_entries_In _ _ (proj1 Hm) Eg) as [_ Hu0]. simpl in Hu0.
      apply url_form_inj in Efix as [_ Efix]; [|assumption|assumption].
      exact (proj2 Hm _ _ Eg He Efix).
    + apply dict_get_None in Eg. apply Eg. apply in_map_iff. now exists (p, u).
  - destruct (plain_entries_In _ _ (proj1 Hm) He') as [Hp' Hu']. simpl in Hp', Hu'.
    rewrite Eimg in E'.
    apply url_form_inj in E' as [_ E']; [|assumption|assumption].
    exact (proj2 Hm _ _ He' He E').
Qed.

Section SecondPass.
Context {P : Platform}.

(** X1: the substitution is idempotent.  For a stylesheet none of whose
    discovered paths contains the text [url(], applying the passes of the
    mapping the program built a second time, to any text that already went
    through them, changes nothing. *)
Theorem substitution_idempotent (css : text) (w w' : world) (st' : dict * N)
    (s : text) :
  (forall q, In q (unique_fonts css) -> no_url_open q) ->
  process_fonts (unique_fonts css) ([], 0%N) w = (Ok st', w') ->
  apply_replacements (fst st') (apply_replacements (fst st') s)
  = apply_replacements (fst st') s.
Proof.
  intros Hno Hrun.
  destruct (built_mapping_of_css css w w' st' Hno Hrun) as [Hm _].
  now apply apply_replacements_idempotent.
Qed.

(** X2: no reference to an encoded font is left.  For a stylesheet none of
    whose discovered paths contains the text [url(], the text that comes
    out of the passes contains none of the three forms [url(p)],
    [url("p")], [url('p')] of a path [p] that is in the mapping. *)
Theorem encoded_forms_removed (css : text) (w w' : world) (st' : dict * N)
    (s p : text) (k : quoting) :
  (forall q, In q (unique_fonts css) -> no_url_open q) ->
  process_fonts (unique_fonts css) ([], 0%N) w = (Ok st', w') ->
  In p (map fst (fst st')) ->
  occurs (url_form k p) (apply_replacements (fst st') s) = false.
Proof.
  intros Hno Hrun Hp.
  destruct (built_mapping_of_css css w w' st' Hno Hrun) as [Hm _].
  apply in_map_iff in Hp as ([p' u] & E & He). simpl in E. subst p'.
  now apply apply_replacements_no_form with u.
Qed.

End SecondPass.

Lemma substitution_idempotent_witness :
  apply_replacements Sample.mapping (apply_replacements Sample.mapping Sample.css)
  = apply_replacements Sample.mapping Sample.css.
Proof.
  assert (Hrun : exists w',
             @process_fonts Mem.platform (unique_fonts Sample.css) ([], 0%N)
               (Mem.start Sample.disk Sample.cdn)
             = (Ok (Sample.mapping, 7%N), w'))
    by (eexists; vm_compute; reflexivity).
  destruct Hrun as [w' Hrun].
  exact (@substitution_idempotent Mem.platform Sample.css _ w' (Sample.mapping, 7%N)
           Sample.css sample_fonts_no_url_open Hrun).
Defined.

Lemma encoded_forms_removed_witness :
  occurs (url_form Unquoted Sample.pA)
    (apply_replacements Sample.mapping Sample.css) = false.
Proof.
  assert (Hrun : exists w',
             @process_fonts Mem.platform (unique_fonts Sample.css) ([], 0%N)
               (Mem.start Sample.disk Sample.cdn)
             = (Ok (Sample.mapping, 7%N), w'))
    by (eexists; vm_compute; reflexivity).
  destruct Hrun as [w' Hrun].
  refine (@encoded_forms_removed Mem.platform Sample.css _ w' (Sample.mapping, 7%N)
            Sample.css Sample.pA Unquoted sample_fonts_no_url_open Hrun _).
  vm_compute. tauto.
Defined.

(** ** The test [token_here] and the tokens *)

Lemma is_quote_true (c : char) : is_quote c = true <-> c = ch_dquote \/ c = ch_squote.
Proof.
  unfold is_quote. rewrite orb_true_iff, !N.eqb_eq. reflexivity.
Qed.

Lemma path_charb_true (c : char) : path_charb c = true <-> path_char c.
Proof.
  unfold path_charb, path_char. cbn [existsb].
  rewrite negb_true_iff, !orb_false_iff, !N.eqb_neq. tauto.
Qed.

Lemma path_char_cases (c : char) :
  path_char c -> (c =? ch_rparen)%N = false /\ is_quote c = false.
Proof.
  intros (H1 & H2 & H3). split.
  - now apply N.eqb_neq.
  - unfold is_quote. apply orb_false_iff. split; now apply N.eqb_neq.
Qed.

Lemma path_rest_run (r q2 rest : text) :
  Forall path_char r -> quote_opt q2 ->
  path_rest (r ++ q2 ++ ch_rparen :: rest) = true.
Proof.
  intros Hr Hq. induction Hr as [|c r Hc _ IH].
  - destruct Hq as [->|[->| ->]]; reflexivity.
  - destruct (path_char_cases c Hc) as [E1 E2].
    cbn [app path_rest]. now rewrite E1, E2.
Qed.

Lemma path_rest_true (t : text) :
  path_rest t = true ->
  exists r q2 rest,
    t = r ++ q2 ++ ch_rparen :: rest /\ Forall path_char r /\ quote_opt q2.
Proof.
  induction t as [|c t IH]; cbn [path_rest]; [discriminate|].
  destruct (N.eqb_spec c ch_rparen) as [->|Hr].
  - intros _. exists [], [], t. repeat split; [constructor | now left].
  - destruct (is_quote c) eqn:Eq.
    + apply is_quote_true in Eq. destruct t as [|d t]; [discriminate|].
      intro H. apply N.eqb_eq in H. subst d.
      exists [], [c], t. repeat split; [constructor|].
      destruct Eq as [->| ->]; [right; now left | right; now right].
    + intro H. destruct (IH H) as (r & q2 & rest & -> & Hrr & Hq).
      exists (c :: r), q2, rest. repeat split; [|assumption].
      constructor; [|assumption].
      unfold is_quote in Eq. apply orb_false_iff in Eq as [E1 E2].
      apply N.eqb_neq in E1, E2. now repeat split.
Qed.

Lemma token_here_token (q1 p q2 rest : text) :
  quote_opt q1 -> quote_opt q2 -> font_path p ->
  token_here (url_token q1 p q2 ++ rest) = true.
Proof.
  intros Hq1 Hq2 (r & -> & Hne & Hr).
  rewrite url_token_chars.
  destruct r as [|c r]; [contradiction|].
  inversion Hr as [|? ? Hc Hr']; subst.
  assert (G : fonts_here ((str "fonts/" ++ c :: r) ++ q2 ++ 41%N :: rest) = true).
  { unfold fonts_here. rewrite <- app_assoc, strip_prefix_app.
    cbn [app path_here]. apply andb_true_iff. split.
    - now apply path_charb_true.
    - now apply path_rest_run. }
  destruct Hq1 as [->|[->| ->]]; exact G.
Qed.

Lemma token_here_inv (s : text) :
  token_here s = true ->
  exists q1 p q2 rest,
    quote_opt q1 /\ quote_opt q2 /\ font_path p /\ s = url_token q1 p q2 ++ rest.
Proof.
  unfold token_here.
  destruct (strip_prefix (str "url(") s) as [y|] eqn:E; [|discriminate].
  apply strip_prefix_Some in E. subst s. intro H.
  assert (G : forall t, fonts_here t = true ->
                exists p q2 rest,
                  quote_opt q2 /\ font_path p /\ t = p ++ q2 ++ ch_rparen :: rest).
  { intros t Ht. unfold fonts_here in Ht.
    destruct (strip_prefix (str "fonts/") t) as [z|] eqn:Ez; [|discriminate].
    apply strip_prefix_Some in Ez. subst t.
    destruct z as [|c z]; [discriminate|].
    cbn [path_here] in Ht. apply andb_true_iff in Ht as [Hc Hz].
    apply path_charb_true in Hc.
    destruct (path_rest_true z Hz) as (r & q2 & rest & -> & Hr & Hq2).
    exists (str "fonts/" ++ c :: r), q2, rest. split; [assumption|]. split.
    - exists (c :: r). split; [reflexivity|]. split; [discriminate | now constructor].
    - now rewrite <- app_assoc. }
  destruct y as [|c y]; [discriminate|]. cbn [quote_here] in H.
  destruct (is_quote c) eqn:Eq.
  - apply is_quote_true in Eq.
    destruct (G _ H) as (p & q2 & rest & Hq2 & Hp & ->).
    exists [c], p, q2, rest. split; [|split; [assumption|split; [assumption|]]].
    + destruct Eq as [->| ->]; [right; now left | right; now right].
    + now rewrite url_token_chars.
  - destruct (G _ H) as (p & q2 & rest & Hq2 & Hp & E).
    exists [], p, q2, rest. split; [|split; [assumption|split; [assumption|]]].
    + now left.
    + rewrite url_token_chars, E. reflexivity.
Qed.

Lemma token_here_false (s : text) :
  token_here s = false ->
  forall q1 p q2 rest,
    quote_opt q1 -> quote_opt q2 -> font_path p -> s <> url_token q1 p q2 ++ rest.
Proof.
  intros H q1 p q2 rest Hq1 Hq2 Hp ->.
  rewrite token_here_token in H by assumption. discriminate.
Qed.

(** ** [token_here] and [tmap] *)

(** The test stops at the first closing parenthesis. *)
Lemma path_rest_closed (x s s' : text) :
  ~ In ch_rparen x ->
  path_rest (x ++ ch_rparen :: s) = path_rest (x ++ ch_rparen :: s').
Proof.
  induction x as [|c x IH]; intro Hx; [reflexivity|].
  cbn [app path_rest].
  destruct (c =? ch_rparen)%N; [reflexivity|].
  destruct (is_quote c).
  - destruct x; reflexivity.
  - apply IH. intro H. apply Hx. now right.
Qed.

Lemma path_rest_bracketed (w s s' : text) :
  bracketed w -> path_rest (w ++ s) = path_rest (w ++ s').
Proof.
  intros [body [-> [Hb _]]]. rewrite <- !app_assoc.
  change (path_rest (str "url(" ++ ?x)) with (path_rest x).
  now apply path_rest_closed.
Qed.

Lemma path_rest_form (k : quoting) (x y s s' : text) :
  plain x -> plain y ->
  path_rest (url_form k x ++ s') = path_rest (url_form k y ++ s).
Proof.
  intros [Hx _] [Hy _].
  assert (G : forall z t, Forall path_char z ->
                path_rest (url_plain z ++ t) = true).
  { intros z t Hz. rewrite url_plain_chars.
    change (path_rest ((117 :: 114 :: 108 :: 40 :: ?a) ++ ?b)%N)
      with (path_rest (a ++ b)).
    rewrite <- app_assoc. apply (path_rest_run z [] t Hz). now left. }
  assert (Q : forall q z t, Forall path_char z -> is_quote q = true ->
                path_rest ((117 :: 114 :: 108 :: 40 :: q :: z ++ [q; 41]) ++ t)%N
                = false).
  { intros q z t Hz Hq.
    change (path_rest ((117 :: 114 :: 108 :: 40 :: ?a) ++ ?b)%N)
      with (path_rest (a ++ b)).
    cbn [app path_rest]. rewrite Hq.
    assert (Hr : (q =? ch_rparen)%N = false).
    { apply is_quote_true in Hq. destruct Hq as [->| ->]; reflexivity. }
    rewrite Hr. destruct Hz as [|c z Hc _]; cbn [app].
    - exact Hr.
    - now destruct (path_char_cases c Hc). }
  destruct k; cbn [url_form].
  - now rewrite !G.
  - rewrite !url_dquoted_chars, !Q by (assumption || reflexivity). reflexivity.
  - rewrite !url_squoted_chars, !Q by (assumption || reflexivity). reflexivity.
Qed.

Lemma form_preserving_bracketed (F : text -> text) :
  form_preserving F -> forall w, bracketed w -> bracketed (F w).
Proof.
  intros HF w Hw. destruct (HF w Hw) as [->|(k & x & y & _ & Hy & _ & ->)].
  - exact Hw.
  - now apply bracketed_form.
Qed.

Lemma path_rest_image (F : text -> text) (w s s' : text) :
  form_preserving F -> bracketed w ->
  path_rest (F w ++ s') = path_rest (w ++ s).
Proof.
  intros HF Hw. destruct (HF w Hw) as [->|(k & x & y & Hx & Hy & -> & ->)].
  - now apply path_rest_bracketed.
  - now apply path_rest_form.
Qed.

Lemma path_rest_tmap (F : text -> text) (t t' : text) :
  form_preserving F -> tmap F t t' -> path_rest t' = path_rest t.
Proof.
  intro HF. induction 1 as [|w s s' Hw _ _|c s s' Hc H IH].
  - reflexivity.
  - now apply path_rest_image.
  - cbn [path_rest]. destruct (c =? ch_rparen)%N; [reflexivity|].
    destruct (is_quote c); [|exact IH].
    destruct H as [|w s s' Hw _|d s s' _ _]; try reflexivity.
    destruct (bracketed_head _ s Hw) as [x ->].
    destruct (bracketed_head _ s' (form_preserving_bracketed F HF _ Hw)) as [x' ->].
    reflexivity.
Qed.

Lemma path_here_tmap (F : text -> text) (t t' : text) :
  form_preserving F -> tmap F t t' -> path_here t' = path_here t.
Proof.
  intros HF H. pose proof (path_rest_tmap F t t' HF H) as E.
  destruct H as [|w s s' Hw _|c s s' Hc H].
  - reflexivity.
  - destruct (bracketed_head _ s Hw) as [x Ex].
    destruct (bracketed_head _ s' (form_preserving_bracketed F HF _ Hw)) as [x' Ex'].
    rewrite Ex, Ex' in *. exact E.
  - cbn [path_here]. f_equal. now apply path_rest_tmap with F.
Qed.

Lemma not_u_fonts : ~ In 117%N (str "fonts/").
Proof. simpl. intros [E|[E|[E|[E|[E|[E|[]]]]]]]; discriminate. Qed.

Lemma fonts_here_tmap (F : text -> text) (t t' : text) :
  form_preserving F -> tmap F t t' -> fonts_here t' = fonts_here t.
Proof.
  intros HF H. unfold fonts_here.
  apply (after_prefix_tmap path_here F (str "fonts/") t t').
  - now apply form_preserving_bracketed.
  - intros y y'. now apply path_here_tmap.
  - exact not_u_fonts.
  - exact H.
Qed.

Lemma quote_here_tmap (F : text -> text) (t t' : text) :
  form_preserving F -> tmap F t t' -> quote_here t' = quote_here t.
Proof.
  intros HF H. pose proof (fonts_here_tmap F t t' HF H) as E.
  destruct H as [|w s s' Hw _|c s s' Hc H].
  - reflexivity.
  - destruct (bracketed_head _ s Hw) as [x Ex].
    destruct (bracketed_head _ s' (form_preserving_bracketed F HF _ Hw)) as [x' Ex'].
    rewrite Ex, Ex' in *. exact E.
  - cbn [quote_here]. destruct (is_quote c); [|exact E].
    now apply fonts_here_tmap with F.
Qed.

(** The passes create no token and remove none at a character they keep. *)
Lemma token_here_tmap (F : text -> text) (c : char) (s s' : text) :
  form_preserving F -> tmap F s s' -> token_here (c :: s') = token_here (c :: s).
Proof.
  intros HF H. unfold token_here.
  change (str "url(") with [117; 114; 108; 40]%N.
  cbn [strip_prefix].
  destruct (117 =? c)%N; [|reflexivity].
  apply (after_prefix_tmap quote_here F [114; 108; 40]%N s s').
  - now apply form_preserving_bracketed.
  - intros y y'. now apply quote_here_tmap.
  - exact not_u_rl_open.
  - exact H.
Qed.

(** ** Tokens and bracketed texts *)

(** Inside a bracketed text, after its first character, the text [url(]
    does not start, whatever follows. *)
Lemma url_open_inside (T a b s : text) :
  bracketed T -> T = a ++ b -> a <> [] -> b <> [] ->
  strip_prefix (str "url(") (b ++ s) = None.
Proof.
  intros HT E Ha Hb. apply bracketed_chars in HT. destruct HT as [body [-> Hbody]].
  destruct a as [|a1 a]; [contradiction|]. clear Ha.
  destruct a as [|a2 a]; [injection E as _ <-; reflexivity|].
  destruct a as [|a3 a]; [injection E as _ _ <-; reflexivity|].
  destruct a as [|a4 a]; [injection E as _ _ _ <-; reflexivity|].
  injection E as _ _ _ _ E.
  destruct (exists_last Hb) as (b' & d & ->).
  rewrite app_assoc in E. apply app_inj_tail in E as [-> <-].
  rewrite <- app_assoc. simpl. apply strip_url_open_body.
  apply (inner_free_part a b' []). now rewrite app_nil_r.
Qed.

Lemma token_here_inside (T a b s : text) :
  bracketed T -> T = a ++ b -> a <> [] -> b <> [] -> token_here (b ++ s) = false.
Proof.
  intros HT E Ha Hb. unfold token_here.
  now rewrite (url_open_inside T a b s HT E Ha Hb).
Qed.

(** Inside a bracketed text the passes keep every character. *)
Lemma tmap_inside (F : text -> text) (T a b s s' : text) :
  bracketed T -> T = a ++ b -> a <> [] -> tmap F s s' ->
  tmap F (b ++ s) (b ++ s').
Proof.
  intros HT E Ha H. revert a E Ha. induction b as [|c b IH]; intros a E Ha.
  - exact H.
  - cbn [app]. constructor.
    + apply (bstart_inside T a (c :: b) s HT E Ha). discriminate.
    + apply (IH (a ++ [c])).
      * now rewrite <- app_assoc.
      * intro E'. apply app_eq_nil in E' as [_ E']. discriminate.
Qed.

(** Reading on over characters at none of which a token starts. *)
Lemma scan_through (x t : text) (l : list text) :
  (forall a b, x = a ++ b -> b <> [] -> token_here (b ++ t) = false) ->
  scan (x ++ t) l <-> scan t l.
Proof.
  induction x as [|c x IH]; intro H; [reflexivity|].
  assert (Hc : token_here ((c :: x) ++ t) = false)
    by (apply (H [] (c :: x)); [reflexivity | discriminate]).
  assert (IH' : scan (x ++ t) l <-> scan t l).
  { apply IH. intros a b -> Hb. now apply (H (c :: a) b). }
  rewrite <- IH'. cbn [app]. split; intro Hs.
  - apply scan_skip_inv with c; [|exact Hs].
    now apply token_here_false.
  - constructor; [|exact Hs]. now apply token_here_false.
Qed.

(** A bracketed text that is no token is read over. *)
Lemma scan_bracketed (w t : text) (l : list text) :
  bracketed w -> token_here (w ++ t) = false ->
  scan (w ++ t) l <-> scan t l.
Proof.
  intros Hw Ht. apply scan_through. intros a b E Hb.
  destruct a as [|a1 a].
  - simpl in E. now subst b.
  - apply (token_here_inside w (a1 :: a) b t Hw E); [discriminate | assumption].
Qed.

Lemma quote_opt_inner_free (q1 p q2 : text) :
  quote_opt q1 -> quote_opt q2 -> plain p -> inner_free (q1 ++ p ++ q2).
Proof.
  intros Hq1 Hq2 Hp.
  assert (Hdq : inner_free (ch_dquote :: p ++ [ch_dquote]))
    by (apply inner_free_quoted; [now left | assumption]).
  assert (Hsq : inner_free (ch_squote :: p ++ [ch_squote]))
    by (apply inner_free_quoted; [now right | assumption]).
  pose proof (plain_inner_free p Hp) as Hpp.
  assert (Hpq : forall q, inner_free (q :: p ++ [q]) ->
                  inner_free (p ++ [q]) /\ inner_free (q :: p)).
  { intros q Hq. split.
    - now apply inner_free_tail with q.
    - apply (inner_free_part [] (q :: p) [q]). exact Hq. }
  destruct (Hpq _ Hdq) as [Hd1 Hd2]. destruct (Hpq _ Hsq) as [Hs1 Hs2].
  assert (Hmix : forall q q', (q = ch_dquote \/ q = ch_squote) ->
                   (q' = ch_dquote \/ q' = ch_squote) ->
                   inner_free (q :: p) -> inner_free (p ++ [q']) ->
                   inner_free (q :: p ++ [q'])).
  { intros q q' Hq Hq' [Ha Hb] [Hc Hd]. split.
    - intros [E|Hin]; [destruct Hq as [->| ->]; discriminate E|].
      now apply Hc.
    - unfold no_url_open in *. rewrite occurs_step.
      replace (strip_prefix (str "url(") (q :: p ++ [q'])) with (@None text)
        by (destruct Hq as [->| ->]; reflexivity).
      exact Hd. }
  destruct Hq1 as [->|[->| ->]], Hq2 as [->|[->| ->]]; cbn [app];
    rewrite ?app_nil_r; try assumption;
    apply Hmix; auto.
Qed.

(** A token whose path is plain is a bracketed text. *)
Lemma token_bracketed (q1 p q2 : text) :
  quote_opt q1 -> quote_opt q2 -> plain p -> bracketed (url_token q1 p q2).
Proof.
  intros Hq1 Hq2 Hp. exists (q1 ++ p ++ q2). split.
  - unfold url_token. now rewrite <- !app_assoc.
  - now apply quote_opt_inner_free.
Qed.

(** A token with the same quote on both sides, or none, is one of the three
    forms. *)
Lemma token_form (q p : text) :
  quote_opt q -> exists k, url_token q p q = url_form k p.
Proof.
  intros [->|[->| ->]].
  - now exists Unquoted.
  - now exists DoubleQuoted.
  - now exists SingleQuoted.
Qed.

Lemma filter_not_quote_plain (p : text) :
  Forall path_char p -> filter (fun c => negb (is_quote c)) p = p.
Proof.
  induction 1 as [|c p Hc _ IH]; [reflexivity|].
  cbn [filter]. destruct (path_char_cases c Hc) as [_ ->]. cbn [negb]. now rewrite IH.
Qed.

Lemma filter_not_quote_opt (q : text) :
  quote_opt q -> filter (fun c => negb (is_quote c)) q = [].
Proof. intros [->|[->| ->]]; reflexivity. Qed.

(** A token and a form that are the same text have the same path. *)
Lemma token_form_path (q1 p q2 p' : text) (k : quoting) :
  quote_opt q1 -> quote_opt q2 -> plain p -> plain p' ->
  url_token q1 p q2 = url_form k p' -> p = p'.
Proof.
  intros Hq1 Hq2 [Hp _] [Hp' _] E.
  apply (f_equal (filter (fun c => negb (is_quote c)))) in E.
  assert (L : filter (fun c => negb (is_quote c)) (url_token q1 p q2)
              = str "url(" ++ p ++ str ")").
  { unfold url_token. rewrite !filter_app.
    rewrite (filter_not_quote_opt q1), (filter_not_quote_opt q2) by assumption.
    rewrite (filter_not_quote_plain p) by assumption. reflexivity. }
  assert (R : filter (fun c => negb (is_quote c)) (url_form k p')
              = str "url(" ++ p' ++ str ")").
  { destruct k; cbn [url_form]; unfold url_plain, url_dquoted, url_squoted;
      rewrite !filter_app, (filter_not_quote_plain p') by assumption; reflexivity. }
  rewrite L, R in E. apply app_inv_head in E. now apply app_inv_tail in E.
Qed.

Lemma token_here_form (k : quoting) (p s : text) :
  font_path p -> token_here (url_form k p ++ s) = true.
Proof.
  intro Hp. destruct k; cbn [url_form].
  - change (url_plain p) with (url_token [] p []).
    apply token_here_token; [now left | now left | assumption].
  - change (url_dquoted p) with (url_token [ch_dquote] p [ch_dquote]).
    apply token_here_token; [right; now left | right; now left | assumption].
  - change (url_squoted p) with (url_token [ch_squote] p [ch_squote]).
    apply token_here_token; [right; now right | right; now right | assumption].
Qed.

Lemma token_here_data (k : quoting) (y s : text) :
  token_here (url_form k (str "data:" ++ y) ++ s) = false.
Proof. destruct k; reflexivity. Qed.

Lemma occurs_suffix (w a x : text) :
  occurs w (a ++ x) = false -> occurs w x = false.
Proof.
  intro H. apply (occurs_part w a x []). now rewrite app_nil_r.
Qed.

Lemma token_image_form_preserving (m : dict) :
  plain_mapping m -> form_preserving (token_image m).
Proof.
  intros Hm w _. destruct (token_image_shape m w Hm) as [E|(k & p & u & He & -> & E)].
  - now left.
  - right. destruct (plain_entries_In _ _ (proj1 Hm) He) as [Hp Hu].
    now exists k, p, u.
Qed.

(** The tokens of the image of a text: those of the text whose path is not
    mapped, when no token of a mapped path has two different quotes. *)
Lemma scan_image (m : dict) (s s' : text) :
  plain_mapping m ->
  (forall e, In e m -> font_path (fst e)) ->
  (forall e, In e m -> exists y, snd e = str "data:" ++ y) ->
  tmap (token_image m) s s' ->
  forall l,
    scan s l ->
    (forall p, In p l -> no_url_open p) ->
    (forall q1 p q2,
        quote_opt q1 -> quote_opt q2 -> q1 <> q2 -> In p (map fst m) ->
        occurs (url_token q1 p q2) s = false) ->
    scan s' (filter (unmapped m) l).
Proof.
  intros Hm Hk Hv H.
  pose proof (token_image_form_preserving m Hm) as HF.
  induction H as [|w s s' Hw H IH|c s s' Hc H IH]; intros l Hs Hno Hmis.
  - apply scan_nil_inv in Hs. subst l. constructor.
  - destruct (token_here (w ++ s)) eqn:Et.
    + apply token_here_inv in Et
        as (q1 & p & q2 & rest & Hq1 & Hq2 & Hp & E).
      rewrite E in Hs.
      destruct (scan_token_inv _ _ _ _ _ Hq1 Hq2 Hp Hs) as (l0 & -> & Hl0).
      assert (Hpp : plain p)
        by (apply font_path_plain; [assumption | apply Hno; now left]).
      pose proof (token_bracketed q1 p q2 Hq1 Hq2 Hpp) as HT.
      destruct (bracketed_unique _ _ _ _ Hw HT E) as [-> ->].
      assert (IH' : scan s' (filter (unmapped m) l0)).
      { apply IH; [assumption | |].
        - intros p' Hp'. apply Hno. now right.
        - intros a b c Ha Hc Hac Hb.
          apply occurs_suffix with (url_token q1 p q2). now apply Hmis. }
      cbn [filter]. unfold unmapped at 1.
      destruct (dict_get p m) as [u|] eqn:Eg.
      * pose proof (dict_get_In _ _ _ Eg) as Hin.
        destruct (list_eq_dec N.eq_dec q1 q2) as [->|Hne].
        -- destruct (token_form q2 p Hq2) as [k Ek]. rewrite Ek.
           rewrite token_image_form, Eg by assumption.
           destruct (Hv _ Hin) as [y Ey]. simpl in Ey. rewrite Ey.
           apply scan_bracketed; [| apply token_here_data | exact IH'].
           rewrite <- Ey. apply bracketed_form.
           now destruct (plain_entries_In _ _ (proj1 Hm) Hin).
        -- exfalso.
           assert (Hin' : In p (map fst m))
             by (apply in_map_iff; now exists (p, u)).
           pose proof (Hmis q1 p q2 Hq1 Hq2 Hne Hin') as Ho.
           pose proof (occurs_app (url_token q1 p q2) [] rest) as Ho'.
           cbn [app] in Ho'. rewrite Ho' in Ho. discriminate.
      * rewrite token_image_fixed.
        -- now constructor.
        -- intros e k He Ee.
           destruct (plain_entries_In _ _ (proj1 Hm) He) as [Hpe _].
           apply token_form_path in Ee; try assumption.
           apply dict_get_None in Eg. apply Eg. subst p. now apply in_map.
    + assert (Hs' : scan s l) by now apply (scan_bracketed w s l Hw Et).
      assert (Efix : token_image m w = w).
      { destruct (token_image_shape m w Hm) as [E|(k & p & u & He & -> & _)];
          [exact E|].
        rewrite token_here_form in Et; [discriminate|]. exact (Hk _ He). }
      rewrite Efix.
      apply scan_bracketed; [assumption| |].
      * destruct w as [|c w0]; [now apply bracketed_nonempty in Hw|].
        cbn [app]. rewrite (token_here_tmap (token_image m) c (w0 ++ s) (w0 ++ s') HF).
        -- exact Et.
        -- apply (tmap_inside _ (c :: w0) [c] w0); [assumption|reflexivity|discriminate|assumption].
      * apply IH; [assumption|assumption|].
        intros a b c Ha Hc' Hac Hb.
        apply occurs_suffix with w. now apply Hmis.
  - destruct (token_here (c :: s)) eqn:Et.
    + exfalso. apply token_here_inv in Et
        as (q1 & p & q2 & rest & Hq1 & Hq2 & Hp & E).
      rewrite E in Hs.
      destruct (scan_token_inv _ _ _ _ _ Hq1 Hq2 Hp Hs) as (l0 & -> & Hl0).
      assert (Hpp : plain p)
        by (apply font_path_plain; [assumption | apply Hno; now left]).
      rewrite E, bracketed_bstart in Hc; [discriminate|].
      now apply token_bracketed.
    + constructor.
      * apply token_here_false.
        now rewrite (token_here_tmap (token_image m) c s s' HF H).
      * apply IH; [|assumption|].
        -- apply scan_skip_inv with c; [|assumption]. now apply token_here_false.
        -- intros a b d Ha Hd Had Hb.
           apply (occurs_suffix _ [c]). now apply Hmis.
Qed.

Section Residual.
Context {P : Platform}.

(** Every entry of the mapping the loop builds from the empty dict maps a
    font of the loop to a data URI. *)
Lemma built_mapping_entries (fonts : list text) (st' : dict * N) (w w' : world) :
  process_fonts fonts ([], 0%N) w = (Ok st', w') ->
  forall e, In e (fst st') ->
    In (fst e) fonts /\ exists d, snd e = data_uri_of (get_mime_type (fst e)) d.
Proof.
  intros Hrun e He. apply process_fonts_loop_run in Hrun.
  destruct (loop_run_entries _ _ _ _ _ Hrun e He) as [[]|H]. exact H.
Qed.

(** X3: the references the output still holds.  For a stylesheet none of
    whose discovered paths contains the text [url(], and in which no
    reference to a font of the mapping has two different quotes (or a quote
    on one side only), the pattern finds in the output exactly the matches
    of the input whose font is not in the mapping, in the same order: the
    output refers to the fonts that could not be obtained and to no other.
    When every discovered font is in the mapping, discovery on the output
    finds nothing. *)
Theorem output_references (css : text) (w w' : world) (st' : dict * N) :
  (forall q, In q (unique_fonts css) -> no_url_open q) ->
  (forall q1 p q2,
      quote_opt q1 -> quote_opt q2 -> q1 <> q2 -> In p (map fst (fst st')) ->
      occurs (url_token q1 p q2) css = false) ->
  process_fonts (unique_fonts css) ([], 0%N) w = (Ok st', w') ->
  findall url_pattern (apply_replacements (fst st') css)
  = filter (unmapped (fst st')) (findall url_pattern css)
  /\ (forall p, In p (unique_fonts (apply_replacements (fst st') css))
                <-> In p (unique_fonts css) /\ dict_get p (fst st') = None)
  /\ ((forall p, In p (unique_fonts css) -> dict_get p (fst st') <> None) ->
      unique_fonts (apply_replacements (fst st') css) = []).
Proof.
  intros Hno Hmis Hrun.
  destruct (built_mapping_of_css css w w' st' Hno Hrun) as [Hm _].
  pose proof (built_mapping_entries _ _ _ _ Hrun) as Hent.
  assert (E : findall url_pattern (apply_replacements (fst st') css)
              = filter (unmapped (fst st')) (findall url_pattern css)).
  { apply scan_deterministic with (apply_replacements (fst st') css).
    - apply findall_scan.
    - apply scan_image with css.
      + exact Hm.
      + intros e He. apply unique_fonts_font_path with css. now apply Hent.
      + intros e He. destruct (Hent e He) as [_ [d ->]].
        now exists (get_mime_type (fst e) ++ str ";base64," ++ b64encode d).
      + apply tmap_apply_replacements, Hm.
      + apply findall_scan.
      + intros p Hp. apply Hno. unfold unique_fonts. now rewrite sorted_set_In.
      + exact Hmis. }
  assert (M : forall p, In p (unique_fonts (apply_replacements (fst st') css))
                        <-> In p (unique_fonts css) /\ dict_get p (fst st') = None).
  { intro p. unfold unique_fonts. rewrite !sorted_set_In, E, filter_In.
    unfold unmapped. destruct (dict_get p (fst st')); intuition congruence. }
  split; [exact E|]. split; [exact M|].
  intro Hall.
  destruct (unique_fonts (apply_replacements (fst st') css)) as [|p l] eqn:El;
    [reflexivity|].
  exfalso. destruct (proj1 (M p) (or_introl eq_refl)) as [Hp Hg].
  exact (Hall p Hp Hg).
Qed.

End Residual.

Lemma output_references_witness :
  findall url_pattern (apply_replacements Sample.mapping Sample.css)
  = filter (unmapped Sample.mapping) (findall url_pattern Sample.css).
Proof.
  assert (Hrun : exists w',
             @process_fonts Mem.platform (unique_fonts Sample.css) ([], 0%N)
               (Mem.start Sample.disk Sample.cdn)
             = (Ok (Sample.mapping, 7%N), w'))
    by (eexists; vm_compute; reflexivity).
  destruct Hrun as [w' Hrun].
  refine (proj1 (@output_references Mem.platform Sample.css _ w' (Sample.mapping, 7%N)
                   sample_fonts_no_url_open _ Hrun)).
  intros q1 p q2 Hq1 Hq2 Hne Hp.
  destruct Hp as [<-|[<-|[]]];
    destruct Hq1 as [->|[->| ->]]; destruct Hq2 as [->|[->| ->]];
    try (exfalso; apply Hne; reflexivity); vm_compute; reflexivity.
Defined.

(** ** The loop: what the mapping and the total are *)

Lemma dict_set_fresh (k v : text) (d : dict) :
  ~ In k (map fst d) -> dict_set k v d = d ++ [(k, v)].
Proof.
  induction d as [|[k' v'] d IH]; simpl; intro H; [reflexivity|].
  destruct (text_eqb k' k) eqn:E.
  - apply text_eqb_eq in E. exfalso. apply H. now left.
  - rewrite IH; [reflexivity|]. intro H'. apply H. now right.
Qed.

Lemma existsb_text_eqb (p : text) (l : list text) :
  existsb (text_eqb p) l = true <-> In p l.
Proof.
  rewrite existsb_exists. split.
  - intros (x & Hx & E). apply text_eqb_eq in E. now subst.
  - intro H. exists p. split; [assumption | apply text_eqb_refl].
Qed.

Lemma unmapped_existsb (m : dict) (p : text) :
  negb (unmapped m p) = existsb (text_eqb p) (map fst m).
Proof.
  unfold unmapped. destruct (dict_get p m) as [u|] eqn:E; cbn [negb].
  - symmetry. apply existsb_text_eqb. apply dict_get_In in E.
    apply in_map_iff. now exists (p, u).
  - apply dict_get_None in E.
    destruct (existsb (text_eqb p) (map fst m)) eqn:E'; [|reflexivity].
    apply existsb_text_eqb in E'. contradiction.
Qed.

Lemma NoDup_keys_unique {A B : Type} (l : list (A * B)) (k : A) (a b : B) :
  NoDup (map fst l) -> In (k, a) l -> In (k, b) l -> a = b.
Proof.
  induction l as [|[k' v] l IH]; cbn [map fst]; intros Hnd Ha Hb; [contradiction|].
  inversion Hnd as [|? ? Hk Hnd']; subst.
  assert (Hin : forall x, In (k, x) l -> In k (map fst l))
    by (intros x Hx; apply in_map_iff; now exists (k, x)).
  destruct Ha as [Ha|Ha], Hb as [Hb|Hb].
  - congruence.
  - injection Ha as -> _. exfalso. apply Hk. now apply Hin with b.
  - injection Hb as -> _. exfalso. apply Hk. now apply Hin with a.
  - now apply IH.
Qed.

Section Accounting.
Context {P : Platform}.

Lemma outcomes_encoded (p : text) (more : list text) (w w1 : world) (d : bytes) :
  download_font p w = (Ok d, w1) ->
  outcomes (p :: more) w = (p, Ok d) :: outcomes more w1.
Proof. intro E. cbn [outcomes]. now rewrite E. Qed.

Lemma outcomes_skipped (p : text) (more : list text) (w w1 : world) (e : exn) :
  download_font p w = (Raise e, w1) ->
  printable (error_line p e) = true ->
  outcomes (p :: more) w = (p, Raise e) :: outcomes more (printed w1 (error_line p e)).
Proof. intros E Hp. cbn [outcomes]. now rewrite E, (print_ok _ _ Hp). Qed.

Lemma obtained_In (fonts : list text) (w : world) (p : text) (d : bytes) :
  In (p, d) (obtained fonts w) <-> In (p, Ok d) (outcomes fonts w).
Proof.
  unfold obtained. rewrite in_flat_map. split.
  - intros ([q [d'|e]] & Hin & H); cbn [fst snd] in H; [|contradiction].
    destruct H as [[= <- <-]|[]]. exact Hin.
  - intro H. exists (p, Ok d). split; [exact H | now left].
Qed.

(** What one obtained font adds to the mapping. *)
Lemma loop_run_accounting (fonts : list text) (st st' : dict * N) (w w' : world) :
  loop_run fonts st w st' w' ->
  NoDup fonts ->
  (forall p, In p fonts -> ~ In p (map fst (fst st))) ->
  map fst (outcomes fonts w) = fonts
  /\ fst st' = fst st
               ++ map (fun e => (fst e, data_uri_of (get_mime_type (fst e)) (snd e)))
                    (obtained fonts w)
  /\ snd st' = (snd st + N.of_nat (length (concat (map snd (obtained fonts w)))))%N
  /\ map fst (obtained fonts w)
     = filter (fun p => existsb (text_eqb p) (map fst (obtained fonts w))) fonts.
Proof.
  induction 1 as [st w|p more st w d w1 st' w' E _ IH
                 |p more st w e w1 st' w' E Hpr _ IH];
    intros Hnd Hfresh.
  - cbn. rewrite app_nil_r, N.add_0_r. now repeat split.
  - inversion Hnd as [|? ? Hp Hnd']; subst.
    destruct IH as (E0 & E1 & E2 & E3); [assumption| |].
    { intros q Hq. cbn [fst]. rewrite dict_set_keys. intros [->|H]; [contradiction|].
      apply (Hfresh q); [now right | assumption]. }
    cbn [fst snd] in E1, E2.
    rewrite dict_set_fresh in E1 by (apply Hfresh; now left).
    assert (Eo : obtained (p :: more) w = (p, d) :: obtained more w1)
      by (unfold obtained; now rewrite (outcomes_encoded p more w w1 d E)).
    rewrite Eo, (outcomes_encoded p more w w1 d E).
    split; [cbn [map fst]; now rewrite E0|]. split; [|split].
    + rewrite E1, <- app_assoc. reflexivity.
    + rewrite E2. cbn [map concat snd]. rewrite length_app. lia.
    + cbn [map fst filter existsb]. rewrite text_eqb_refl. cbn [orb]. f_equal.
      rewrite E3 at 1. apply filter_ext_in. intros q Hq.
      cbn [existsb].
      replace (text_eqb q p) with false; [reflexivity|].
      symmetry. apply text_eqb_neq. intros ->. contradiction.
  - inversion Hnd as [|? ? Hp Hnd']; subst.
    destruct IH as (E0 & E1 & E2 & E3); [assumption| |].
    { intros q Hq. apply Hfresh. now right. }
    assert (Eo : obtained (p :: more) w = obtained more (printed w1 (error_line p e)))
      by (unfold obtained; now rewrite (outcomes_skipped p more w w1 e E Hpr)).
    rewrite Eo, (outcomes_skipped p more w w1 e E Hpr).
    split; [cbn [map fst]; now rewrite E0|].
    split; [assumption|]. split; [assumption|].
    cbn [filter].
    destruct (existsb (text_eqb p)
                (map fst (obtained more (printed w1 (error_line p e))))) eqn:Ex;
      [|exact E3].
    exfalso. apply existsb_text_eqb in Ex. rewrite E3 in Ex.
    apply filter_In in Ex as [Ex _]. contradiction.
Qed.

(** X4: the mapping and the total after the loop.  Over fonts that are
    pairwise different (as the discovered ones are), a loop that started
    with the empty dict and ended has called [download_font] once for every
    font, in order; its dict has, in the order of the loop, one entry for
    each call that returned bytes: the font with the data URI of these
    bytes; [total_size] is the sum of the lengths of these bytes; a font
    whose call raised is no key of the dict. *)
Theorem loop_accounting (fonts : list text) (w w' : world) (st' : dict * N) :
  NoDup fonts ->
  process_fonts fonts ([], 0%N) w = (Ok st', w') ->
  map fst (outcomes fonts w) = fonts
  /\ fst st' = map (fun e => (fst e, data_uri_of (get_mime_type (fst e)) (snd e)))
                 (obtained fonts w)
  /\ snd st' = N.of_nat (length (concat (map snd (obtained fonts w))))
  /\ (forall p d, In (p, Ok d) (outcomes fonts w) ->
        dict_get p (fst st') = Some (data_uri_of (get_mime_type p) d))
  /\ (forall p e, In (p, Raise e) (outcomes fonts w) -> dict_get p (fst st') = None)
  /\ map fst (fst st') = filter (fun p => negb (unmapped (fst st') p)) fonts
  /\ (length (fst st') <= length fonts)%nat.
Proof.
  intros Hnd Hrun. apply process_fonts_loop_run in Hrun.
  destruct (loop_run_accounting _ _ _ _ _ Hrun Hnd) as (E0 & E1 & E2 & E3);
    [intros p _ []|].
  pose proof (loop_run_NoDup _ _ _ _ _ Hrun (NoDup_nil _)) as Hkeys.
  cbn [fst snd app] in E1, E2. rewrite N.add_0_l in E2.
  assert (K : map fst (fst st') = map fst (obtained fonts w)).
  { rewrite E1, map_map. reflexivity. }
  assert (F : map fst (fst st') = filter (fun p => negb (unmapped (fst st') p)) fonts).
  { rewrite K at 1. rewrite E3. apply filter_ext. intro p.
    now rewrite unmapped_existsb, K. }
  split; [exact E0|]. split; [exact E1|]. split; [exact E2|].
  split; [|split; [|split; [exact F|]]].
  - intros p d Hin. apply dict_get_unique; [exact Hkeys|].
    rewrite E1. apply in_map_iff. exists (p, d). split; [reflexivity|].
    now apply obtained_In.
  - intros p e Hin. apply dict_get_None. rewrite K. intro Hk.
    apply in_map_iff in Hk as ([q d] & Eq & Hd). cbn [fst] in Eq. subst q.
    apply obtained_In in Hd.
    assert (Hnd' : NoDup (map fst (outcomes fonts w))) by (now rewrite E0).
    discriminate (NoDup_keys_unique _ _ _ _ Hnd' Hd Hin).
  - rewrite <- (length_map fst), F. apply filter_length_le.
Qed.

End Accounting.

(** The loop on the fonts of [Sample.css]: [fonts/A.woff2] is fetched,
    [fonts/B.woff] fails, [fonts/C.ttf] is read from the cache. *)
Lemma loop_accounting_witness :
  let w0 := Mem.start Sample.disk Sample.cdn in
  @outcomes Mem.platform (unique_fonts Sample.css) w0
  = [(Sample.pA, Ok (Mem.ascii_bytes "aaaa"));
     (Sample.pB, Raise (str "HTTP Error 404: Not Found"));
     (Sample.pC, Ok (Mem.ascii_bytes "ccc"))]
  /\ Sample.mapping
     = map (fun e => (fst e, data_uri_of (@get_mime_type Mem.platform (fst e)) (snd e)))
         (@obtained Mem.platform (unique_fonts Sample.css) w0)
  /\ 7%N = N.of_nat (length (concat (map snd (@obtained Mem.platform
                                                (unique_fonts Sample.css) w0))))
  /\ dict_get Sample.pB Sample.mapping = None.
Proof.
  intro w0.
  assert (Hrun : exists w',
             @process_fonts Mem.platform (unique_fonts Sample.css) ([], 0%N) w0
             = (Ok (Sample.mapping, 7%N), w'))
    by (eexists; vm_compute; reflexivity).
  destruct Hrun as [w' Hrun].
  destruct (@loop_accounting Mem.platform (unique_fonts Sample.css) w0 w'
              (Sample.mapping, 7%N)) as (_ & H1 & H2 & _ & H3 & _).
  - unfold unique_fonts. apply sorted_set_NoDup.
  - exact Hrun.
  - split; [vm_compute; reflexivity|]. split; [exact H1|]. split; [exact H2|].
    apply (H3 Sample.pB (str "HTTP Error 404: Not Found")).
    vm_compute. tauto.
Defined.

(** ** The effects of a run *)

Lemma subseq_refl_nil {A : Type} (l : list A) : subseq [] l.
Proof. induction l; now constructor. Qed.

Lemma font_event_more {P : Platform} (fonts : list text) (p : text) (ev : fs_event) :
  font_event fonts ev -> font_event (p :: fonts) ev.
Proof.
  destruct ev as [d|q data|q s]; cbn.
  - intros (x & Hx & ->). exists x. split; [now right | reflexivity].
  - intros [H Hu]. split; [now right | exact Hu].
  - exact (fun H => H).
Qed.

Lemma font_event_head {P : Platform} (fonts : list text) (p : text) (ev : fs_event) :
  font_event [p] ev -> font_event (p :: fonts) ev.
Proof.
  destruct ev as [d|q data|q s]; cbn.
  - intros (x & [<-|[]] & ->). exists p. split; [now left | reflexivity].
  - intros [[<-|[]] Hu]. split; [now left | exact Hu].
  - exact (fun H => H).
Qed.

Lemma subseq_In {A : Type} (l1 l2 : list A) (x : A) :
  subseq l1 l2 -> In x l1 -> In x l2.
Proof.
  induction 1 as [|y l1 l2 _ IH|y l1 l2 _ IH]; intro H.
  - exact H.
  - right. now apply IH.
  - destruct H as [->|H]; [now left | right; now apply IH].
Qed.

Lemma subseq_NoDup {A : Type} (l1 l2 : list A) :
  subseq l1 l2 -> NoDup l2 -> NoDup l1.
Proof.
  induction 1 as [|y l1 l2 _ IH|y l1 l2 Hs IH]; intro H.
  - constructor.
  - inversion H; subst. now apply IH.
  - inversion H as [|? ? Hy Hl]; subst. constructor; [|now apply IH].
    intro Hin. apply Hy. now apply subseq_In with l1.
Qed.

Section EffectsOfRun.
Context {P : Platform}.

Lemma fs_replay_app (f : filesystem) (a b : list fs_event) :
  fs_replay f (a ++ b) = fs_replay (fs_replay f a) b.
Proof. unfold fs_replay. apply fold_left_app. Qed.

(** What [download_font] does to the file system and to the network: at
    most one request, of the font's URL, and only when the font is not
    cached; on the file system, [os.makedirs] and the write of the cache
    file at most. *)
Lemma download_font_effects (p : text) (w : world) :
  ((fetched (snd (download_font p w)) = fetched w
    /\ net (snd (download_font p w)) = net w)
   \/ (os_path_exists (fs w) p = false
       /\ fetched (snd (download_font p w)) = fetched w ++ [CDN_BASE ++ p]))
  /\ exists evs,
       fs (snd (download_font p w)) = fs_replay (fs w) evs
       /\ Forall (font_event [p]) evs.
Proof.
  destruct (os_path_exists (fs w) p) eqn:Ex.
  - rewrite (download_font_cached_eq p w Ex).
    destruct (printable (str "  [cached] " ++ p));
      cbn [fs net fetched console snd printed];
      (split; [left; now split|]);
      exists []; (split; [reflexivity | constructor]).
  - assert (Hmk : font_event [p] (Makedirs (dirname p)))
      by (exists p; split; [now left | reflexivity]).
    assert (Hwr : forall data n',
               urlopen_read (net w) (CDN_BASE ++ p) USER_AGENT = (Ok data, n') ->
               font_event [p] (WriteBinary p data))
      by (intros data n' H; split; [now left | now exists (net w), n']).
    unfold download_font, bind, path_exists, print, read_bytes, makedirs, urlopen,
      write_bytes, on_fs, ret.
    cbn [fs net fetched console]. rewrite Ex.
    destruct (os_makedirs (fs w) (dirname p)) as [[[]|e] f1] eqn:Emk;
      cbn [fs net fetched console snd].
    + destruct (printable (str "  [download] " ++ CDN_BASE ++ p));
        cbn [fs net fetched console snd].
      * destruct (urlopen_read (net w) (CDN_BASE ++ p) USER_AGENT)
          as [[data|e] n'] eqn:Eurl;
          cbn [fs net fetched console snd].
        -- specialize (Hwr data n' eq_refl).
           destruct (write_binary f1 p data) as [[[]|e] f2] eqn:Ewr;
             cbn [fs net fetched console snd];
             (split; [right; now split|]);
             exists [Makedirs (dirname p); WriteBinary p data];
             (split; [cbn; rewrite Emk; cbn; now rewrite Ewr|]);
             (constructor; [exact Hmk | constructor; [exact Hwr | constructor]]).
        -- split; [right; now split|].
           exists [Makedirs (dirname p)].
           split; [cbn; now rewrite Emk | now repeat constructor].
      * split; [left; now split|].
        exists [Makedirs (dirname p)].
        split; [cbn; now rewrite Emk | now repeat constructor].
    + split; [left; now split|].
      exists [Makedirs (dirname p)].
      split; [cbn; now rewrite Emk | now repeat constructor].
Qed.

(** The handler changes the console only. *)
Lemma process_font_world (p : text) (st : dict * N) (w : world) :
  fs (snd (process_font p st w)) = fs (snd (download_font p w))
  /\ net (snd (process_font p st w)) = net (snd (download_font p w))
  /\ fetched (snd (process_font p st w)) = fetched (snd (download_font p w)).
Proof.
  destruct (download_font p w) as [[d|e] w1] eqn:E.
  - rewrite (process_font_encoded p st w w1 d E). now repeat split.
  - rewrite (process_font_raised p st w w1 e E).
    destruct (printable (error_line p e)); now repeat split.
Qed.

Lemma process_fonts_effects (fonts : list text) (st : dict * N) (w : world) :
  exists requested evs,
    fetched (snd (process_fonts fonts st w))
    = fetched w ++ map (app CDN_BASE) requested
    /\ subseq requested fonts
    /\ (requested = [] -> net (snd (process_fonts fonts st w)) = net w)
    /\ fs (snd (process_fonts fonts st w)) = fs_replay (fs w) evs
    /\ Forall (font_event fonts) evs.
Proof.
  revert st w. induction fonts as [|p more IH]; intros st w.
  - exists [], []. cbn. rewrite app_nil_r. repeat split; constructor.
  - destruct (process_font_world p st w) as (Efs & Ene & Efe).
    destruct (download_font_effects p w) as [Hreq (evs0 & F1 & F2)].
    assert (F2' : Forall (font_event (p :: more)) evs0)
      by (apply Forall_impl with (2 := F2); apply font_event_head).
    destruct (process_font p st w) as [[st1|e] w1] eqn:Epf; cbn [fst snd] in *.
    + assert (Estep : process_fonts (p :: more) st w = process_fonts more st1 w1)
        by (cbn [process_fonts]; unfold bind; now rewrite Epf).
      rewrite Estep.
      destruct (IH st1 w1) as (req & evs & R1 & R2 & Rn & R3 & R4).
      assert (Hev : fs (snd (process_fonts more st1 w1))
                    = fs_replay (fs w) (evs0 ++ evs)
                    /\ Forall (font_event (p :: more)) (evs0 ++ evs)).
      { split.
        - now rewrite R3, Efs, F1, fs_replay_app.
        - apply Forall_app. split; [exact F2'|].
          apply Forall_impl with (2 := R4). apply font_event_more. }
      destruct Hev as [Hev1 Hev2].
      destruct Hreq as [[Hreq Hnet]|[_ Hreq]].
      * exists req, (evs0 ++ evs). split; [|split; [|split; [|split]]]; try assumption.
        -- now rewrite R1, Efe, Hreq.
        -- now constructor.
        -- intro E. now rewrite (Rn E), Ene.
      * exists (p :: req), (evs0 ++ evs).
        split; [|split; [|split; [|split]]]; try assumption.
        -- rewrite R1, Efe, Hreq. now rewrite <- app_assoc.
        -- now constructor.
        -- discriminate.
    + assert (Estep : process_fonts (p :: more) st w = (Raise e, w1))
        by (cbn [process_fonts]; unfold bind; now rewrite Epf).
      rewrite Estep. cbn [snd].
      destruct Hreq as [[Hreq Hnet]|[_ Hreq]].
      * exists [], evs0. split; [|split; [|split; [|split]]].
        -- cbn [map]. now rewrite app_nil_r, Efe.
        -- apply subseq_refl_nil.
        -- intros _. now rewrite Ene.
        -- now rewrite Efs.
        -- exact F2'.
      * exists [p], evs0. split; [|split; [|split; [|split]]].
        -- cbn [map]. now rewrite Efe.
        -- apply subseq_take, subseq_refl_nil.
        -- discriminate.
        -- now rewrite Efs.
        -- exact F2'.
Qed.

Lemma write_and_report_effects (css : text) (st : dict * N) (w : world) :
  fetched (snd (write_and_report css st w)) = fetched w
  /\ net (snd (write_and_report css st w)) = net w
  /\ fs (snd (write_and_report css st w))
     = fs_replay (fs w) [WriteText OUTPUT_FILE (apply_replacements (fst st) css)].
Proof.
  unfold write_and_report, bind, write_text, on_fs, getsize.
  cbn [fs_replay fold_left fs_apply].
  destruct (write_utf8 (fs w) OUTPUT_FILE (apply_replacements (fst st) css))
    as [[[]|e] f2]; cbn [fs net fetched console snd]; [|now repeat split].
  destruct (os_path_getsize f2 INPUT_FILE) as [n1|e];
    cbn [fs net fetched console snd]; [|now repeat split].
  destruct (os_path_getsize f2 OUTPUT_FILE) as [n2|e];
    cbn [fs net fetched console snd]; [|now repeat split].
  repeat (rewrite print_ascii by ascii_line; cbv beta iota).
  cbn [fs net fetched console snd printed]. now repeat split.
Qed.

(** An input that exists and cannot be read: [bundle] raises what the read
    raised, after its first line. *)
Lemma bundle_unreadable (w : world) (e : exn) :
  os_path_exists (fs w) INPUT_FILE = true ->
  read_utf8 (fs w) INPUT_FILE = Raise e ->
  bundle w = (Raise e, printed w (str "Reading " ++ INPUT_FILE ++ str "...")).
Proof.
  intros Hex Hrd. unfold bundle. unfold bind at 1. unfold path_exists.
  rewrite Hex. cbn [negb].
  unfold bind at 1. rewrite print_ascii by reflexivity.
  unfold bind at 1. unfold read_text. cbn [printed fs]. now rewrite Hrd.
Qed.

(** X5: the requests of a run.  [bundle] requests nothing but URLs made of
    [CDN_BASE] and a discovered path, each at most once and in the sorted
    order of the paths; without a readable input it requests nothing, and a
    run that requests nothing leaves the network as it was. *)
Theorem bundle_requests (w : world) :
  exists requested,
    fetched (snd (bundle w)) = fetched w ++ map (app CDN_BASE) requested
    /\ (os_path_exists (fs w) INPUT_FILE = false -> requested = [])
    /\ (forall e, read_utf8 (fs w) INPUT_FILE = Raise e -> requested = [])
    /\ (forall css,
          os_path_exists (fs w) INPUT_FILE = true ->
          read_utf8 (fs w) INPUT_FILE = Ok css ->
          subseq requested (unique_fonts css) /\ NoDup requested)
    /\ (requested = [] -> net (snd (bundle w)) = net w).
Proof.
  destruct (os_path_exists (fs w) INPUT_FILE) eqn:Hex.
  - destruct (read_utf8 (fs w) INPUT_FILE) as [css|e] eqn:Hrd.
    + rewrite (bundle_found w css Hex Hrd).
      set (w2 := printed (printed w _) _).
      destruct (process_fonts_effects (unique_fonts css) ([], 0%N) w2)
        as (req & evs & R1 & R2 & Rn & _).
      assert (Hsub : forall css',
                 true = true -> Ok css = Ok css' ->
                 subseq req (unique_fonts css') /\ NoDup req).
      { intros css' _ [= <-]. split; [exact R2|].
        apply (subseq_NoDup _ _ R2). unfold unique_fonts. apply sorted_set_NoDup. }
      destruct (process_fonts (unique_fonts css) ([], 0%N) w2) as [[st'|e] w3];
        cbn [snd] in R1, Rn.
      * destruct (write_and_report_effects css st' w3) as (F1 & F2 & _).
        exists req. rewrite F1, F2. split; [exact R1|].
        split; [discriminate|]. split; [discriminate|]. split; [exact Hsub | exact Rn].
      * exists req. cbn [snd]. split; [exact R1|].
        split; [discriminate|]. split; [discriminate|]. split; [exact Hsub | exact Rn].
    + rewrite (bundle_unreadable w e Hex Hrd). exists []. cbn.
      rewrite app_nil_r. repeat split; discriminate.
  - rewrite (bundle_missing w Hex). exists []. cbn. rewrite app_nil_r.
    repeat split; discriminate.
Qed.


End EffectsOfRun.


(** ** When a run raises *)


Section Failures.
Context {P : Platform}.




(** X9: obtaining a font twice.  On a platform where a written file exists
    and reads back as written, a second [download_font] after a successful
    one returns the same bytes from the cache: it prints the cache line
    and makes no request. *)
Theorem download_font_twice (L : PlatformLaws P) (p : text) (w w1 : world)
    (d : bytes) :
  download_font p w = (Ok d, w1) ->
  download_font p w1 = (Ok d, printed w1 (str "  [cached] " ++ p)).
Proof.
  intro H. destruct (download_font_cache L p w w1 d H) as [Hex Hrd].
  rewrite (download_font_cached p w1 Hex (download_font_printable p w w1 d H)).
  now rewrite Hrd.
Qed.

End Failures.



Lemma download_font_twice_witness :
  exists w1,
    @download_font Mem.platform Sample.pA (Mem.start Sample.disk Sample.cdn)
    = (Ok (Mem.ascii_bytes "aaaa"), w1)
    /\ @download_font Mem.platform Sample.pA w1
       = (Ok (Mem.ascii_bytes "aaaa"), printed w1 (str "  [cached] " ++ Sample.pA)).
Proof.
  eexists. split.
  - vm_compute. reflexivity.
  - apply (@download_font_twice Mem.platform mem_platform_laws Sample.pA
             (Mem.start Sample.disk Sample.cdn)).
    vm_compute. reflexivity.
Defined.

(** ** The directory of a font *)

Lemma rstrip_slash_cons (c : char) (s : text) :
  rstrip_slash (c :: s)
  = match rstrip_slash s with
    | [] => if (c =? ch_slash)%N then [] else [c]
    | _ :: _ => c :: rstrip_slash s
    end.
Proof. reflexivity. Qed.

Lemma rstrip_slash_keep (c : char) (s : text) :
  c <> ch_slash -> rstrip_slash (c :: s) = c :: rstrip_slash s.
Proof.
  intro Hc. rewrite rstrip_slash_cons. destruct (rstrip_slash s); [|reflexivity].
  apply N.eqb_neq in Hc. now rewrite Hc.
Qed.

Lemma rstrip_slash_last (s : text) :
  rstrip_slash (s ++ [ch_slash]) = rstrip_slash s.
Proof.
  induction s as [|c s IH]; [reflexivity|].
  cbn [app]. now rewrite !rstrip_slash_cons, IH.
Qed.

(** What [rstrip] leaves is the text without the slashes at its end. *)
Lemma rstrip_slash_prefix (s : text) :
  exists t, s = rstrip_slash s ++ t /\ Forall (eq ch_slash) t.
Proof.
  induction s as [|c s (t & E & Ht)].
  - now exists [].
  - rewrite rstrip_slash_cons. destruct (rstrip_slash s) as [|d r] eqn:Er.
    + destruct (N.eqb_spec c ch_slash) as [->|Hc].
      * exists (ch_slash :: s). split; [reflexivity|].
        constructor; [reflexivity|]. now rewrite E.
      * exists s. split; [reflexivity|]. now rewrite E.
    + exists t. split; [|assumption]. cbn [app]. f_equal. exact E.
Qed.

Lemma rstrip_slash_end (s x : text) : rstrip_slash s <> x ++ [ch_slash].
Proof.
  revert x. induction s as [|c s IH]; intro x.
  - destruct x; discriminate.
  - rewrite rstrip_slash_cons. destruct (rstrip_slash s) as [|d r] eqn:Er.
    + destruct (N.eqb_spec c ch_slash) as [->|Hc].
      * destruct x; discriminate.
      * destruct x as [|y [|z x]]; try discriminate.
        intros [= ->]. now apply Hc.
    + destruct x as [|y x]; [destruct r; discriminate|].
      intros [= -> E]. exact (IH x E).
Qed.

(** X10: the directory [download_font] creates.  For every path the
    pattern can capture, [os.path.dirname] gives a directory that is not
    empty: it begins with [fonts], does not end with a slash, and the path
    is this directory, a slash and what is left. *)
Theorem font_directory (p : text) :
  font_path p ->
  exists d r,
    dirname p = str "fonts" ++ d
    /\ p = dirname p ++ ch_slash :: r
    /\ (forall x, dirname p <> x ++ [ch_slash]).
Proof.
  intros (r0 & Ep & _).
  assert (Hin : In ch_slash p).
  { rewrite Ep. apply in_or_app. left. cbn. tauto. }
  destruct (rfind_from_spec 0 ch_slash p ltac:(lia))
    as [[_ Hno]|(a & b & Eab & Hb & Er)]; [contradiction|].
  assert (Ha : exists a', a = str "fonts" ++ a').
  { rewrite Ep in Eab.
    change (str "fonts/" ++ r0) with (102 :: 111 :: 110 :: 116 :: 115 :: 47 :: r0)%N
      in Eab.
    do 5 (destruct a as [|? a]; [discriminate Eab | injection Eab as <- Eab]).
    now exists a. }
  destruct Ha as [a' ->].
  assert (Ed : dirname p = rstrip_slash (str "fonts" ++ a')).
  { unfold dirname, rfind. rewrite Er. unfold slice_to.
    replace (Z.to_nat (0 + Z.of_nat (length (str "fonts" ++ a')) + 1))
      with (length ((str "fonts" ++ a') ++ [ch_slash]))
      by (rewrite length_app; cbn [length]; lia).
    rewrite Eab.
    replace ((str "fonts" ++ a') ++ ch_slash :: b)
      with (((str "fonts" ++ a') ++ [ch_slash]) ++ b)
      by (now rewrite <- app_assoc).
    rewrite firstn_app, firstn_all, Nat.sub_diag, firstn_O, app_nil_r.
    change (text_eqb ((str "fonts" ++ a') ++ [ch_slash]) []) with false.
    change (forallb (N.eqb ch_slash) ((str "fonts" ++ a') ++ [ch_slash])) with false.
    cbn [negb andb]. apply rstrip_slash_last. }
  assert (Ek : rstrip_slash (str "fonts" ++ a') = str "fonts" ++ rstrip_slash a').
  { change (str "fonts" ++ a') with (102 :: 111 :: 110 :: 116 :: 115 :: a')%N.
    now rewrite !rstrip_slash_keep by discriminate. }
  destruct (rstrip_slash_prefix a') as (t & Et & Ht).
  exists (rstrip_slash a'),
         (match t with [] => b | _ :: t' => t' ++ ch_slash :: b end).
  split; [now rewrite Ed, Ek|]. split.
  - rewrite Ed, Ek, Eab. rewrite Et at 1. rewrite <- !app_assoc.
    do 2 f_equal. destruct Ht as [|c t <- _]; [reflexivity|].
    now rewrite <- app_comm_cons.
  - intro x. rewrite Ed. apply rstrip_slash_end.
Qed.

Lemma font_directory_witness :
  exists d r,
    dirname (str "fonts/sub//KaTeX_Main-Regular.woff2") = str "fonts" ++ d
    /\ str "fonts/sub//KaTeX_Main-Regular.woff2"
       = dirname (str "fonts/sub//KaTeX_Main-Regular.woff2") ++ ch_slash :: r
    /\ (forall x, dirname (str "fonts/sub//KaTeX_Main-Regular.woff2")
                  <> x ++ [ch_slash]).
Proof.
  apply font_directory.
  exists (str "sub//KaTeX_Main-Regular.woff2").
  split; [reflexivity|]. split; [discriminate|].
  apply Forall_forall. intros c Hc. vm_compute in Hc.
  repeat (destruct Hc as [<-|Hc]; [repeat split; discriminate|]).
  contradiction.
Defined.

(** ** The size of the encoding *)

Lemma digit_in_alphabet (n : N) : (n < 64)%N -> In (b64_char n) b64_alphabet.
Proof. intro Hn. now apply b64_char_facts. Qed.

Ltac digits_in_alphabet :=
  repeat (apply Forall_cons;
          [apply digit_in_alphabet; zify; Z.to_euclidean_division_equations; lia|]);
  apply Forall_nil.

(** The encoding is digits of the alphabet followed by the pads. *)
Lemma b64encode_digits_pads (data : bytes) :
  exists digits,
    b64encode data
    = digits ++ repeat ch_equals ((3 - length data mod 3) mod 3)
    /\ Forall (fun c => In c b64_alphabet) digits.
Proof.
  induction data as [|a|a b|a b c l (digits & E & Hd)] using list_ind3.
  - exists []. split; [reflexivity | constructor].
  - pose proof (byte_bound a) as Ba.
    exists [b64_char (Byte.to_N a * 16 / 64); b64_char ((Byte.to_N a * 16) mod 64)].
    split; [reflexivity|].
    digits_in_alphabet.
  - pose proof (byte_bound a) as Ba. pose proof (byte_bound b) as Bb.
    exists (firstn 3 (enc2 a b)). split; [reflexivity|].
    unfold enc2. cbn [firstn].
    digits_in_alphabet.
  - pose proof (byte_bound a) as Ba. pose proof (byte_bound b) as Bb.
    pose proof (byte_bound c) as Bc.
    exists (enc3 a b c ++ digits). split.
    + change (b64encode (a :: b :: c :: l)) with (enc3 a b c ++ b64encode l).
      rewrite E, <- app_assoc. do 3 f_equal. cbn [length].
      replace (S (S (S (length l)))) with (length l + 1 * 3) by lia.
      now rewrite Nat.Div0.mod_add.
    + apply Forall_app. split; [|assumption].
      unfold enc3.
      digits_in_alphabet.
Qed.

(** X11: the size of what is embedded.  The base64 text of [n] bytes has
    [4 * ceil(n / 3)] characters: digits of the alphabet and then
    [(3 - n mod 3) mod 3] pads.  The data URI adds the thirteen characters
    of [data:] and [;base64,] and the MIME type. *)
Theorem b64encode_size (mime : text) (data : bytes) :
  length (b64encode data) = 4 * ((length data + 2) / 3)
  /\ (exists digits,
         b64encode data
         = digits ++ repeat ch_equals ((3 - length data mod 3) mod 3)
         /\ Forall (fun c => In c b64_alphabet) digits)
  /\ length (data_uri_of mime data)
     = 13 + length mime + 4 * ((length data + 2) / 3).
Proof.
  assert (H : length (b64encode data) = 4 * ((length data + 2) / 3)).
  { induction data as [|a|a b|a b c l IH] using list_ind3; try reflexivity.
    change (b64encode (a :: b :: c :: l)) with (enc3 a b c ++ b64encode l).
    rewrite length_app, IH. cbn [length enc3].
    replace (S (S (S (length l))) + 2) with (length l + 2 + 1 * 3) by lia.
    rewrite Nat.div_add by discriminate. lia. }
  split; [exact H|]. split; [apply b64encode_digits_pads|].
  unfold data_uri_of. rewrite !length_app, H. cbn [length str]. simpl. lia.
Qed.

(** ** Numbers in the report *)

Lemma string_of_str (s : string) :
  string_of_list_ascii (map ascii_of_N (str s)) = s.
Proof.
  unfold str. rewrite map_map.
  rewrite (map_ext _ (fun a => a) ascii_N_embedding), map_id.
  apply string_of_list_ascii_of_string.
Qed.

Lemma format_int_parse (n : N) : parse_int (format_int n) = Some n.
Proof.
  unfold parse_int, format_int. rewrite string_of_str.
  rewrite DecimalString.NilZero.usu by apply to_uint_not_nil.
  cbn [option_map]. now rewrite DecimalN.Unsigned.of_to.
Qed.

(** The groups of [group3], read from the left. *)
Lemma group3_groups (l : text) :
  l <> [] ->
  exists head groups,
    rev (group3 l) = head ++ concat (map (cons 44%N) groups)
    /\ head ++ concat groups = rev l
    /\ 1 <= length head <= 3
    /\ Forall (fun g => length g = 3) groups.
Proof.
  remember (length l) as n eqn:Hn. revert l Hn.
  induction n as [n IH] using lt_wf_ind. intros l Hn Hl.
  destruct l as [|a [|b [|c [|d more]]]]; [contradiction | | | |].
  - exists [a], []. repeat split; cbn; (lia || constructor).
  - exists [b; a], []. repeat split; cbn; (lia || constructor).
  - exists [c; b; a], []. repeat split; cbn; (lia || constructor).
  - destruct (IH (length (d :: more))) with (l := d :: more)
      as (head & groups & E1 & E2 & Hh & Hg);
      [subst n; cbn; lia | reflexivity | discriminate|].
    exists head, (groups ++ [[c; b; a]]). split; [|split; [|split]].
    + change (group3 (a :: b :: c :: d :: more))
        with (a :: b :: c :: 44%N :: group3 (d :: more)).
      change (a :: b :: c :: 44%N :: group3 (d :: more))
        with ([a; b; c; 44%N] ++ group3 (d :: more)).
      rewrite rev_app_distr, E1, map_app, concat_app, <- app_assoc.
      reflexivity.
    + change (a :: b :: c :: d :: more) with ([a; b; c] ++ d :: more).
      rewrite rev_app_distr, <- E2, concat_app, <- !app_assoc. reflexivity.
    + exact Hh.
    + apply Forall_app. split; [assumption | now repeat constructor].
Qed.

(** X12: the numbers of the report.  [str(n)] is a non-empty text of
    decimal digits that reads back as [n]; the text with thousands
    separators is the same digits, a first group of one to three digits and
    then groups of exactly three digits, a comma before each. *)
Theorem format_int_commas_groups (n : N) :
  parse_int (format_int n) = Some n
  /\ Forall is_digit (format_int n)
  /\ exists head groups,
       format_int_commas n = head ++ concat (map (cons 44%N) groups)
       /\ head ++ concat groups = format_int n
       /\ 1 <= length head <= 3
       /\ Forall (fun g => length g = 3) groups.
Proof.
  destruct (format_int_digits n) as [Hd Hne].
  split; [apply format_int_parse|]. split; [exact Hd|].
  destruct (group3_groups (rev (format_int n))) as (head & groups & E1 & E2 & H).
  - intro E. apply Hne. now rewrite <- (rev_involutive (format_int n)), E.
  - exists head, groups. unfold format_int_commas.
    rewrite rev_involutive in E2. now repeat split.
Qed.

(** ** The order of the fonts *)

(** A strictly increasing list is determined by its elements. *)
Lemma sorted_same_elements (l1 l2 : list text) :
  StronglySorted text_lt l1 -> StronglySorted text_lt l2 ->
  (forall x, In x l1 <-> In x l2) -> l1 = l2.
Proof.
  intro H1. revert l2. induction H1 as [|a l1 H1 IH Ha]; intros l2 H2 Hin.
  - destruct l2 as [|b l2]; [reflexivity|].
    exfalso. apply (proj2 (Hin b)). now left.
  - destruct H2 as [|b l2 H2 Hb].
    + exfalso. apply (proj1 (Hin a)). now left.
    + rewrite Forall_forall in Ha, Hb.
      assert (E : a = b).
      { destruct (proj1 (Hin a) (or_introl eq_refl)) as [E|Ha2]; [now symmetry|].
        destruct (proj2 (Hin b) (or_introl eq_refl)) as [E|Hb1]; [assumption|].
        exfalso. apply (text_lt_irrefl a).
        apply text_lt_trans with b; [now apply Ha | now apply Hb]. }
      subst b. f_equal. apply IH; [assumption|].
      intro x. split; intro Hx.
      * destruct (proj1 (Hin x) (or_intror Hx)) as [<-|H]; [|assumption].
        exfalso. exact (text_lt_irrefl a (Ha a Hx)).
      * destruct (proj2 (Hin x) (or_intror Hx)) as [<-|H]; [|assumption].
        exfalso. exact (text_lt_irrefl a (Hb a Hx)).
Qed.

(** X13: the fonts and their order depend on the set of matches only.
    Two lists of matches with the same elements, in whatever order and
    however many times each, give the same sorted list of fonts; so
    [sorted(set(...))] of a list that is already its result is this list. *)
Theorem sorted_set_canonical (l l' : list text) :
  (forall x, In x l <-> In x l') ->
  sorted_set l = sorted_set l' /\ sorted_set (sorted_set l) = sorted_set l.
Proof.
  intro H. split.
  - apply sorted_same_elements; try apply sorted_set_Sorted.
    intro x. now rewrite !sorted_set_In.
  - apply sorted_same_elements; try apply sorted_set_Sorted.
    intro x. now rewrite !sorted_set_In.
Qed.

Lemma sorted_set_canonical_witness :
  unique_fonts (str "url(fonts/b.ttf)url(fonts/a.ttf)")
  = unique_fonts (str "url('fonts/a.ttf')url(fonts/b.ttf)url(fonts/a.ttf)").
Proof.
  unfold unique_fonts. apply sorted_set_canonical.
  intro x. vm_compute. tauto.
Defined.

(** ** When the passes change nothing *)

Lemma url_form_nonempty (k : quoting) (x : text) : url_form k x <> [].
Proof. destruct k; discriminate. Qed.

Lemma apply_replacements_absent (m : dict) (s : text) :
  (forall e k, In e m -> occurs (url_form k (fst e)) s = false) ->
  apply_replacements m s = s.
Proof.
  induction m as [|[p u] m IH]; intro H; [reflexivity|].
  change (apply_replacements ((p, u) :: m) s)
    with (apply_replacements m (replace_variants p u s)).
  assert (E : replace_variants p u s = s).
  { unfold replace_variants.
    rewrite (str_replace_absent (url_plain p));
      [|exact (url_form_nonempty Unquoted p)
       |exact (H (p, u) Unquoted (or_introl eq_refl))].
    rewrite (str_replace_absent (url_dquoted p));
      [|exact (url_form_nonempty DoubleQuoted p)
       |exact (H (p, u) DoubleQuoted (or_introl eq_refl))].
    apply (str_replace_absent (url_squoted p));
      [exact (url_form_nonempty SingleQuoted p)
      |exact (H (p, u) SingleQuoted (or_introl eq_refl))]. }
  rewrite E. apply IH. intros e k He. apply H. now right.
Qed.

Section Unchanged.
Context {P : Platform}.

(** X14: when the output is the input.  For a stylesheet none of whose
    discovered paths contains the text [url(], the passes of the mapping
    the program built leave a text as it is exactly when the text contains
    none of the three forms of a path of the mapping. *)
Theorem substitution_changes_iff (css : text) (w w' : world) (st' : dict * N)
    (s : text) :
  (forall q, In q (unique_fonts css) -> no_url_open q) ->
  process_fonts (unique_fonts css) ([], 0%N) w = (Ok st', w') ->
  apply_replacements (fst st') s = s
  <-> (forall p k, In p (map fst (fst st')) -> occurs (url_form k p) s = false).
Proof.
  intros Hno Hrun.
  destruct (built_mapping_of_css css w w' st' Hno Hrun) as [Hm _].
  split.
  - intros E p k Hp. rewrite <- E.
    apply in_map_iff in Hp as ([p' u] & Ep & He). simpl in Ep. subst p'.
    now apply apply_replacements_no_form with u.
  - intro H. apply apply_replacements_absent. intros e k He.
    apply H. now apply in_map.
Qed.

End Unchanged.

Lemma substitution_changes_iff_witness :
  apply_replacements Sample.mapping (str "a{src:url('fonts/B.woff')}")
  = str "a{src:url('fonts/B.woff')}"
  <-> (forall p k, In p (map fst Sample.mapping) ->
         occurs (url_form k p) (str "a{src:url('fonts/B.woff')}") = false).
Proof.
  assert (Hrun : exists w',
             @process_fonts Mem.platform (unique_fonts Sample.css) ([], 0%N)
               (Mem.start Sample.disk Sample.cdn)
             = (Ok (Sample.mapping, 7%N), w'))
    by (eexists; vm_compute; reflexivity).
  destruct Hrun as [w' Hrun].
  exact (@substitution_changes_iff Mem.platform Sample.css _ w' (Sample.mapping, 7%N)
           (str "a{src:url('fonts/B.woff')}") sample_fonts_no_url_open Hrun).
Defined.

(** ** A run with every font in the cache *)

Section Offline.
Context {P : Platform}.

(** The loop leaves the entry of a path that is not among its fonts. *)
Lemma process_fonts_get_other (fonts : list text) (st st' : dict * N)
    (w w' : world) (p : text) :
  process_fonts fonts st w = (Ok st', w') -> ~ In p fonts ->
  dict_get p (fst st') = dict_get p (fst st).
Proof.
  intros Hrun Hp. apply process_fonts_loop_run in Hrun.
  induction Hrun as [st w|q more st w d w1 st' w' E _ IH
                    |q more st w e w1 st' w' E _ _ IH].
  - reflexivity.
  - rewrite IH by (intro H; apply Hp; now right).
    cbn [fst]. apply dict_get_set_other. intros ->. apply Hp. now left.
  - apply IH. intro H. apply Hp. now right.
Qed.




End Offline.


(** ** Discovery and the occurrences of tokens *)

Lemma occurs_after (w a s : text) : occurs w s = true -> occurs w (a ++ s) = true.
Proof.
  intro H. apply occurs_split in H as (pre & post & ->).
  rewrite app_assoc. apply occurs_app.
Qed.

(** Every path the reading finds stands in a token of the text. *)
Lemma scan_occurs (s : text) (l : list text) :
  scan s l ->
  forall p, In p l ->
    exists q1 q2,
      quote_opt q1 /\ quote_opt q2 /\ occurs (url_token q1 p q2) s = true.
Proof.
  induction 1 as [|q1 p0 q2 rest l Hq1 Hq2 Hp0 _ IH|c s l _ _ IH]; intros p Hp.
  - destruct Hp.
  - destruct Hp as [<-|Hp].
    + exists q1, q2. split; [assumption|]. split; [assumption|].
      apply (occurs_app _ [] rest).
    + destruct (IH p Hp) as (a & b & Ha & Hb & Ho).
      exists a, b. split; [assumption|]. split; [assumption|].
      now apply occurs_after.
  - destruct (IH p Hp) as (a & b & Ha & Hb & Ho).
    exists a, b. split; [assumption|]. split; [assumption|].
    now apply (occurs_after _ [c]).
Qed.

(** When no path found contains [url(], the reading misses no token. *)
Lemma scan_finds (s : text) (l : list text) :
  scan s l ->
  (forall q, In q l -> no_url_open q) ->
  forall pre q1 p q2 post,
    quote_opt q1 -> quote_opt q2 -> font_path p ->
    s = pre ++ url_token q1 p q2 ++ post -> In p l.
Proof.
  induction 1 as [|q1' p' q2' rest l Hq1' Hq2' Hp' _ IH|c s l Hnone _ IH];
    intros Hno pre q1 p q2 post Hq1 Hq2 Hp E.
  - exfalso. symmetry in E. apply app_eq_nil in E as [_ E].
    apply app_eq_nil in E as [E _]. discriminate E.
  - assert (Hpp' : plain p')
      by (apply font_path_plain; [assumption | apply Hno; now left]).
    assert (IH' : forall pre0, rest = pre0 ++ url_token q1 p q2 ++ post -> In p l).
    { intros pre0 E0. apply (IH (fun q Hq => Hno q (or_intror Hq))
                               pre0 q1 p q2 post Hq1 Hq2 Hp E0). }
    apply app_eq_app in E as [x [[E1 E2]|[E1 E2]]].
    + destruct pre as [|a pre].
      * left. cbn [app] in E1. subst x.
        pose proof (re_match_token q1 p q2 post Hq1 Hq2 Hp) as M.
        rewrite E2, re_match_token in M by assumption.
        now injection M as ->.
      * destruct x as [|b x].
        -- right. apply (IH' []). cbn [app] in *. now rewrite E2.
        -- exfalso.
           pose proof (url_open_inside _ (a :: pre) (b :: x) rest
                         (token_bracketed q1' p' q2' Hq1' Hq2' Hpp') E1
                         ltac:(discriminate) ltac:(discriminate)) as Hnone.
           rewrite <- E2, url_token_chars in Hnone. discriminate Hnone.
    + right. now apply (IH' x).
  - destruct pre as [|a pre].
    + exfalso. exact (Hnone q1 p q2 post Hq1 Hq2 Hp E).
    + injection E as _ E.
      now apply (IH Hno pre q1 p q2 post).
Qed.

(** X16: discovery is complete.  For a stylesheet none of whose discovered
    paths contains the text [url(], a path is discovered exactly when it is
    a path the pattern can capture and the text contains a token of it:
    [url(], an optional quote, the path, an optional quote, [)]. *)
Theorem discovery_complete (css p : text) :
  (forall q, In q (unique_fonts css) -> no_url_open q) ->
  In p (unique_fonts css)
  <-> font_path p
      /\ exists q1 q2,
           quote_opt q1 /\ quote_opt q2 /\ occurs (url_token q1 p q2) css = true.
Proof.
  intro Hno. unfold unique_fonts. rewrite sorted_set_In. split.
  - intro Hp. split.
    + pose proof (scan_font_path _ _ (findall_scan css)) as F.
      rewrite Forall_forall in F. now apply F.
    + now apply (scan_occurs css _ (findall_scan css)).
  - intros (Hp & q1 & q2 & Hq1 & Hq2 & Ho).
    apply occurs_split in Ho as (pre & post & E).
    apply (scan_finds css _ (findall_scan css)) with pre q1 q2 post;
      try assumption.
    intros q Hq. apply Hno. unfold unique_fonts. now rewrite sorted_set_In.
Qed.

Lemma discovery_complete_witness :
  In Sample.pB (unique_fonts Sample.css)
  <-> font_path Sample.pB
      /\ exists q1 q2,
           quote_opt q1 /\ quote_opt q2
           /\ occurs (url_token q1 Sample.pB q2) Sample.css = true.
Proof. exact (discovery_complete Sample.css Sample.pB sample_fonts_no_url_open). Defined.

(** ** The extension of a file name *)

Section FileName.
Context {P : Platform}.

(** X17: the extension is the file name's.  The directories of a path do
    not count: the extension, and so the MIME type, of [dir/name] is that
    of [name].  A name without a dot has no extension; otherwise the
    extension goes from the last dot to the end, unless only dots stand
    before that dot, and then there is none. *)
Theorem file_name_extension (dir name : text) :
  ~ In ch_slash name ->
  snd (splitext (dir ++ ch_slash :: name)) = snd (splitext name)
  /\ get_mime_type (dir ++ ch_slash :: name) = get_mime_type name
  /\ (~ In ch_dot name -> snd (splitext name) = [])
  /\ (forall a b,
         name = a ++ ch_dot :: b -> ~ In ch_dot b ->
         snd (splitext name)
         = if forallb (N.eqb ch_dot) a then [] else ch_dot :: b).
Proof.
  intro Hs. pose proof (splitext_directory dir name Hs) as E.
  split; [exact E|]. split; [unfold get_mime_type; now rewrite E|].
  split; [apply splitext_no_dot|].
  intros a b -> Hb. now apply splitext_name.
Qed.

End FileName.

Lemma file_name_extension_witness :
  snd (splitext (str "fonts/v0.16/..KaTeX.Main.WOFF2"))
  = snd (splitext (str "..KaTeX.Main.WOFF2"))
  /\ @get_mime_type Mem.platform (str "fonts/v0.16/..KaTeX.Main.WOFF2")
     = @get_mime_type Mem.platform (str "..KaTeX.Main.WOFF2")
  /\ (~ In ch_dot (str "..KaTeX.Main.WOFF2") ->
      snd (splitext (str "..KaTeX.Main.WOFF2")) = [])
  /\ (forall a b,
         str "..KaTeX.Main.WOFF2" = a ++ ch_dot :: b -> ~ In ch_dot b ->
         snd (splitext (str "..KaTeX.Main.WOFF2"))
         = if forallb (N.eqb ch_dot) a then [] else ch_dot :: b).
Proof.
  apply (@file_name_extension Mem.platform (str "fonts/v0.16") (str "..KaTeX.Main.WOFF2")).
  vm_compute. intuition discriminate.
Defined.

(** ** The lines of the loop *)

Section Log.
Context {P : Platform}.

Lemma download_font_console (p : text) (w : world) :
  exists ls,
    console (snd (download_font p w)) = console w ++ ls
    /\ match fst (download_font p w) with
       | Ok _ => ls = [cached_line p] \/ ls = [download_line p]
       | Raise _ => ls = [cached_line p] \/ ls = [] \/ ls = [download_line p]
       end.
Proof.
  unfold download_font, bind, path_exists, print, read_bytes, makedirs, urlopen,
    write_bytes, on_fs, ret.
  cbn [fs net fetched console].
  destruct (os_path_exists (fs w) p).
  - destruct (printable (str "  [cached] " ++ p)); cbn [fs net fetched console fst snd].
    + exists [cached_line p]. split; [reflexivity|].
      destruct (read_binary (fs w) p); now left.
    + exists []. rewrite app_nil_r. split; auto.
  - destruct (os_makedirs (fs w) (dirname p)) as [[[]|e] f1];
      cbn [fs net fetched console fst snd].
    + destruct (printable (str "  [download] " ++ CDN_BASE ++ p));
        cbn [fs net fetched console fst snd].
      * exists [download_line p].
        destruct (urlopen_read (net w) (CDN_BASE ++ p) USER_AGENT) as [[data|e] n'];
          cbn [fs net fetched console fst snd].
        -- destruct (write_binary f1 p data) as [[[]|e] f2];
             cbn [fs net fetched console fst snd]; split; auto.
        -- split; auto.
      * exists []. rewrite app_nil_r. split; auto.
    + exists []. rewrite app_nil_r. split; auto.
Qed.

Lemma loop_log_from (fonts : list text) (st st' : dict * N) (w w' : world) :
  NoDup fonts ->
  (forall p, In p fonts -> dict_get p (fst st) = None) ->
  process_fonts fonts st w = (Ok st', w') ->
  exists logs,
    console w' = console w ++ concat logs
    /\ Forall2 (font_log (fst st')) fonts logs.
Proof.
  revert st w. induction fonts as [|p more IH]; intros st w Hnd Hfresh Hrun.
  - cbn in Hrun. injection Hrun as <- <-. exists []. cbn.
    rewrite app_nil_r. split; [reflexivity | constructor].
  - inversion Hnd as [|? ? Hp Hnd']; subst.
    cbn [process_fonts] in Hrun. unfold bind in Hrun.
    destruct (download_font_console p w) as (ls & Ec & Hls).
    destruct (download_font p w) as [[d|e] w1] eqn:E; cbn [fst snd] in Ec, Hls.
    + rewrite (process_font_encoded p st w w1 d E) in Hrun.
      assert (Hfresh' : forall q, In q more ->
                dict_get q (fst (dict_set p (data_uri_of (get_mime_type p) d) (fst st),
                                 (snd st + N.of_nat (length d))%N)) = None).
      { intros q Hq. cbn [fst].
        rewrite dict_get_set_other by (intros ->; contradiction).
        apply Hfresh. now right. }
      destruct (IH _ _ Hnd' Hfresh' Hrun) as (logs & Ec' & Hlogs).
      exists (ls :: logs). split.
      * rewrite Ec', Ec. cbn [concat]. now rewrite <- app_assoc.
      * constructor; [|exact Hlogs]. unfold font_log.
        rewrite (process_fonts_get_other _ _ _ _ _ _ Hrun Hp). cbn [fst].
        now rewrite dict_get_set_same.
    + rewrite (process_font_raised p st w w1 e E) in Hrun.
      destruct (printable (error_line p e)); [|discriminate Hrun].
      assert (Hfresh' : forall q, In q more -> dict_get q (fst st) = None)
        by (intros q Hq; apply Hfresh; now right).
      destruct (IH _ _ Hnd' Hfresh' Hrun) as (logs & Ec' & Hlogs).
      exists ((ls ++ [error_line p e]) :: logs). split.
      * rewrite Ec'. cbn [printed console concat]. rewrite Ec.
        now rewrite <- !app_assoc.
      * constructor; [|exact Hlogs]. unfold font_log.
        rewrite (process_fonts_get_other _ _ _ _ _ _ Hrun Hp).
        rewrite (Hfresh p (or_introl eq_refl)).
        exists e. destruct Hls as [->|[->| ->]]; auto.
Qed.

(** X18: no font fails silently.  Over fonts that are pairwise different,
    the loop prints for every font, in the order of the loop, the line of
    the cache or the line of the download when the font ends in the
    mapping, and otherwise one error line, after the line of the cache or
    of the download if the failure came after it; it prints nothing else. *)
Theorem loop_log (fonts : list text) (w w' : world) (st' : dict * N) :
  NoDup fonts ->
  process_fonts fonts ([], 0%N) w = (Ok st', w') ->
  exists logs,
    console w' = console w ++ concat logs
    /\ Forall2 (font_log (fst st')) fonts logs.
Proof.
  intros Hnd Hrun. apply (loop_log_from fonts ([], 0%N) st' w w' Hnd); [|exact Hrun].
  reflexivity.
Qed.

End Log.

Lemma loop_log_witness :
  let w := Mem.start Sample.disk Sample.cdn in
  exists w' logs,
    @process_fonts Mem.platform (unique_fonts Sample.css) ([], 0%N) w
    = (Ok (Sample.mapping, 7%N), w')
    /\ console w' = console w ++ concat logs
    /\ Forall2 (font_log Sample.mapping) (unique_fonts Sample.css) logs.
Proof.
  intro w.
  assert (Hrun : exists w',
             @process_fonts Mem.platform (unique_fonts Sample.css) ([], 0%N) w
             = (Ok (Sample.mapping, 7%N), w'))
    by (eexists; vm_compute; reflexivity).
  destruct Hrun as [w' Hrun]. exists w'.
  destruct (@loop_log Mem.platform (unique_fonts Sample.css) w w'
              (Sample.mapping, 7%N)) as (logs & H1 & H2).
  - unfold unique_fonts. apply sorted_set_NoDup.
  - exact Hrun.
  - exists logs. now repeat split.
Defined.

(** ** A stylesheet without references *)

Section NoReference.
Context {P : Platform}.

(** X19: a stylesheet without references is copied.  When discovery finds
    nothing, the text contains no token at all, the run makes no request
    and leaves the network as it was, and the only change to the file
    system is the write of the input text, as it is, to the output file. *)
Theorem no_reference_copy (w : world) (css : text) :
  os_path_exists (fs w) INPUT_FILE = true ->
  read_utf8 (fs w) INPUT_FILE = Ok css ->
  unique_fonts css = [] ->
  (forall q1 p q2,
      quote_opt q1 -> quote_opt q2 -> font_path p ->
      occurs (url_token q1 p q2) css = false)
  /\ fs (snd (bundle w)) = snd (write_utf8 (fs w) OUTPUT_FILE css)
  /\ fetched (snd (bundle w)) = fetched w
  /\ net (snd (bundle w)) = net w.
Proof.
  intros Hex Hrd Hnone. split.
  - intros q1 p q2 Hq1 Hq2 Hp.
    destruct (occurs (url_token q1 p q2) css) eqn:Ho; [|reflexivity].
    exfalso. apply occurs_split in Ho as (pre & post & E).
    assert (Hin : In p (unique_fonts css)).
    { unfold unique_fonts. rewrite sorted_set_In.
      apply (scan_finds css _ (findall_scan css)) with pre q1 q2 post;
        try assumption.
      intros q Hq. exfalso.
      assert (Hq' : In q (unique_fonts css))
        by (unfold unique_fonts; now rewrite sorted_set_In).
      rewrite Hnone in Hq'. exact Hq'. }
    rewrite Hnone in Hin. exact Hin.
  - rewrite (bundle_found w css Hex Hrd), Hnone.
    cbn [process_fonts ret length].
    set (w2 := printed (printed w _) _).
    destruct (write_and_report_effects css ([], 0%N) w2) as (E1 & E2 & E3).
    rewrite E1, E2, E3. now repeat split.
Qed.

End NoReference.

Lemma no_reference_copy_witness :
  let css := str "a{color:red}b{src:url(other/a.ttf)}" in
  let w := Mem.start [(INPUT_FILE, text_bytes css)] [] in
  (forall q1 p q2,
      quote_opt q1 -> quote_opt q2 -> font_path p ->
      occurs (url_token q1 p q2) css = false)
  /\ fs (snd (@bundle Mem.platform w))
     = snd (@write_utf8 Mem.platform (fs w) OUTPUT_FILE css)
  /\ fetched (snd (@bundle Mem.platform w)) = fetched w
  /\ net (snd (@bundle Mem.platform w)) = net w.
Proof.
  intros css w. apply (@no_reference_copy Mem.platform w css);
    vm_compute; reflexivity.
Defined.
